(** * The trace-agent Concentrator: bucket rotation, ingestion and shutdown

    A shallow embedding of [agent/concentrator.go].  The Concentrator owns a
    two-slot ring of statistics buckets.  Two goroutines work on it: the
    ingestor ranges over the inbound span channel, and [bucketCloser]
    rotates the ring on every timer tick and shuts down on the exit
    channel.  The goroutines are modelled statement by statement and run
    under an arbitrary scheduler, so that every result below holds for all
    interleavings (under sequentially consistent memory). *)

From Stdlib Require Import ZArith List Bool Lia.
From stdpp Require Import base tactics option list numbers.

Open Scope Z_scope.

(** ** Machine integers *)

(** Two's complement wrap-around of Go's [int32] and [int64]. *)
Definition wrap32 (x : Z) : Z := (x + 2147483648) mod 4294967296 - 2147483648.
Definition wrap64 (x : Z) : Z :=
  (x + 9223372036854775808) mod 18446744073709551616 - 9223372036854775808.

(** [(i + 1) % 2] on [int32]: Go's [%] truncates toward zero. *)
Definition next_index (i : Z) : Z := Z.rem (wrap32 (i + 1)) 2.

(** ** Run-time outcomes of a Go statement *)

Inductive panic : Type :=
| NilDereference
| IndexOutOfRange
| SendOnClosedChannel
| CloseOfNilChannel
| CloseOfClosedChannel
| NegativeWaitGroupCounter.

Inductive outcome (A : Type) : Type :=
| Returns (a : A)
| Panics (r : panic)
| Blocks.
Arguments Returns {A} a.
Arguments Panics {A} r.
Arguments Blocks {A}.

#[global] Instance outcome_ret : MRet outcome := fun A a => Returns a.
#[global] Instance outcome_bind : MBind outcome := fun A B f m =>
  match m with
  | Returns a => f a
  | Panics r => Panics r
  | Blocks => Blocks
  end.

(** A Go reference: [None] is nil, [Some i] points at object [i] of the
    store for its type. *)
Abbreviation ref := (option nat).

(** ** Channels *)

(** A channel is its queue of values in flight and its closed flag.  The
    capacity is chosen by the host and unknown here: a send completes by
    putting its value at the back of the queue, which covers unbuffered
    channels too (the matching receive is then the next step). *)
Record Chan (A : Type) : Type := mkChan { queue : list A; closed : bool }.
Arguments mkChan {A} queue closed.
Arguments queue {A} c.
Arguments closed {A} c.

Definition open_chan {A : Type} : Chan A := mkChan [] false.

(** [ch <- x] *)
Definition chan_send {A : Type} (h : ref) (x : A) (st : list (Chan A))
  : outcome (list (Chan A)) :=
  match h with
  | None => Blocks
  | Some i =>
      match st !! i with
      | None => Blocks
      | Some ch =>
          if closed ch then Panics SendOnClosedChannel
          else Returns (<[i := mkChan (queue ch ++ [x]) false]> st)
      end
  end.

(** [x, ok := <-ch]: [None] is the zero value with [ok = false] of a
    closed and drained channel. *)
Definition chan_recv {A : Type} (h : ref) (st : list (Chan A))
  : outcome (option A * list (Chan A)) :=
  match h with
  | None => Blocks
  | Some i =>
      match st !! i with
      | None => Blocks
      | Some ch =>
          match queue ch with
          | x :: q => Returns (Some x, <[i := mkChan q (closed ch)]> st)
          | [] => if closed ch then Returns (None, st) else Blocks
          end
      end
  end.

(** [close(ch)] *)
Definition chan_close {A : Type} (h : ref) (st : list (Chan A))
  : outcome (list (Chan A)) :=
  match h with
  | None => Panics CloseOfNilChannel
  | Some i =>
      match st !! i with
      | None => Panics CloseOfNilChannel
      | Some ch =>
          if closed ch then Panics CloseOfClosedChannel
          else Returns (<[i := mkChan (queue ch) true]> st)
      end
  end.

(** ** sync.WaitGroup *)

(** [wg.Add(delta)]; [wg.Done()] is [wg.Add(-1)]. *)
Definition wg_add (h : ref) (delta : Z) (st : list Z) : outcome (list Z) :=
  match h with
  | None => Panics NilDereference
  | Some i =>
      match st !! i with
      | None => Panics NilDereference
      | Some n =>
          if n + delta <? 0 then Panics NegativeWaitGroupCounter
          else Returns (<[i := n + delta]> st)
      end
  end.

(** ** Fixed arrays of two elements *)

Definition array2 (A : Type) : Type := (A * A)%type.

Definition array_get {A : Type} (a : array2 A) (i : Z) : outcome A :=
  if i =? 0 then Returns (fst a)
  else if i =? 1 then Returns (snd a)
  else Panics IndexOutOfRange.

Definition array_set {A : Type} (a : array2 A) (i : Z) (x : A)
  : outcome (array2 A) :=
  if i =? 0 then Returns (x, snd a)
  else if i =? 1 then Returns (fst a, x)
  else Panics IndexOutOfRange.

(** ** The statistics bucket (package [model]) *)

Module model.
Section StatsBucket.
Variables Span Eps : Type.

(** Modelled from the spec: [model.StatsBucket] is declared outside this
    file.  The spec gives it a window [Start], [Duration] and the opaque
    operations [New(eps)], [HandleSpan] and [Encode]; the accumulated
    statistics are kept as the list of spans absorbed, and the state after
    [Encode] as a flag. *)
Record StatsBucket : Type := mkStatsBucket {
  Start : Z;
  Duration : Z;
  Epsilon : Eps;
  Absorbed : list Span;
  Encoded : bool
}.

(** Modelled from the spec: [NewStatsBucket(eps)] opens a window that
    begins at the clock reading [now]; its [Duration] is set when the
    window is closed. *)
Definition NewStatsBucket (eps : Eps) (now : Z) : StatsBucket :=
  mkStatsBucket now 0 eps [] false.

(** Modelled from the spec: [b.HandleSpan(s)] absorbs one span. *)
Definition HandleSpan (s : Span) (b : StatsBucket) : StatsBucket :=
  mkStatsBucket (Start b) (Duration b) (Epsilon b) (Absorbed b ++ [s]) (Encoded b).

(** Modelled from the spec: [b.Encode()] freezes the bucket for
    transmission. *)
Definition Encode (b : StatsBucket) : StatsBucket :=
  mkStatsBucket (Start b) (Duration b) (Epsilon b) (Absorbed b) true.

(** [b.Duration = d] *)
Definition set_Duration (d : Z) (b : StatsBucket) : StatsBucket :=
  mkStatsBucket (Start b) d (Epsilon b) (Absorbed b) (Encoded b).

End StatsBucket.
Arguments mkStatsBucket {Span Eps}.
Arguments Start {Span Eps} b : rename.
Arguments Duration {Span Eps} b : rename.
Arguments Epsilon {Span Eps} b : rename.
Arguments Absorbed {Span Eps} b : rename.
Arguments Encoded {Span Eps} b : rename.
Arguments NewStatsBucket {Span Eps} eps now.
Arguments HandleSpan {Span Eps} s b.
Arguments Encode {Span Eps} b.
Arguments set_Duration {Span Eps} d b.

End model.

(** ** The Concentrator and the process around it *)

(** A [*model.StatsBucket] is the index of the bucket in the heap. *)
Abbreviation ptr := nat.

Set Implicit Arguments.
Set Contextual Implicit.

Section Concentrator.
Variables Span Eps : Type.

Local Abbreviation StatsBucket := (model.StatsBucket Span Eps).

(** [type Concentrator struct]: channels and the wait group are
    references into the stores of the process, [openBucket] is the
    [[2]*model.StatsBucket] ring and [currentBucket] an [int32]. *)
Record Concentrator : Type := mkConcentrator {
  inSpans : ref;
  outStats : ref;
  outSpans : ref;
  exit : ref;
  exitGroup : ref;
  bucketDuration : Z;
  eps : Eps;
  openBucket : array2 (option ptr);
  currentBucket : Z
}.

Definition set_openBucket (a : array2 (option ptr)) (c : Concentrator) : Concentrator :=
  mkConcentrator (inSpans c) (outStats c) (outSpans c) (exit c) (exitGroup c)
    (bucketDuration c) (eps c) a (currentBucket c).

Definition set_currentBucket (i : Z) (c : Concentrator) : Concentrator :=
  mkConcentrator (inSpans c) (outStats c) (outSpans c) (exit c) (exitGroup c)
    (bucketDuration c) (eps c) (openBucket c) i.

(** Program points of the goroutine [go func() { for s := range c.inSpans
    { c.HandleNewSpan(&s); c.outSpans <- s } }()].  [HandleNewSpan] is
    [c.openBucket[c.currentBucket].HandleSpan(s)]: it reads the index,
    loads the slot and calls the bucket, and the rotation can run between
    any two of these. *)
Inductive ipc : Type :=
| IRange                              (* evaluate the range expression *)
| IRecv                               (* loop head: receive from the channel *)
| IIndex (s : Span)                   (* read c.currentBucket *)
| ILoad (s : Span) (i : Z)            (* load c.openBucket[i] *)
| ICall (s : Span) (b : option ptr)   (* b.HandleSpan(s) *)
| ISend (s : Span)                    (* c.outSpans <- s *)
| IReturned.

(** Program points of [bucketCloser]; the [F] points are the statements of
    [flush], with its locals [nextBucket] and [bucketToSend]. *)
Inductive cpc : Type :=
| CAdd                                (* c.exitGroup.Add(1) *)
| CTicker                             (* ticker := time.Tick(...) *)
| CSelect                             (* select *)
| CClose                              (* close(c.outSpans) *)
| CDone                               (* c.exitGroup.Done() *)
| CReturned
| FNext                               (* nextBucket := (c.currentBucket + 1) % 2 *)
| FAlloc (nextBucket : Z)             (* c.openBucket[nextBucket] = NewStatsBucket *)
| FStamp (nextBucket : Z)             (* ....Duration = model.Now() - ....Start *)
| FFlip (nextBucket : Z)              (* c.currentBucket = nextBucket *)
| FDrain                              (* bucketToSend := (c.currentBucket + 1) % 2 *)
| FCheck (bucketToSend : Z)           (* if c.openBucket[bucketToSend] != nil *)
| FEncode (bucketToSend : Z)          (* c.openBucket[bucketToSend].Encode() *)
| FSend (bucketToSend : Z).           (* c.outStats <- *c.openBucket[bucketToSend] *)

(** The supervising caller of [exitGroup.Wait()]. *)
Inductive wpc : Type := WIdle | WBlocked | WReleased.

Inductive goroutine : Type := Ingestor | Closer.

Inductive chan_kind : Type := SpanChan | StatsChan | ExitChan.

(** What the goroutines and the host have done, as a ghost log. *)
Inductive event : Type :=
| EvAdd                                   (* exitGroup.Add(1) *)
| EvTick                                  (* select took the ticker case *)
| EvExit                                  (* select took the exit case *)
| EvNew (slot : Z) (p : ptr) (t : Z)      (* openBucket[slot] = new bucket p, Start t *)
| EvStamp (p : ptr) (now d : Z)           (* bucket p: Duration = d = now - Start *)
| EvFlip (i : Z)                          (* currentBucket = i *)
| EvSkip (slot : Z)                       (* openBucket[slot] == nil: nothing sent *)
| EvEncode (p : ptr)                      (* bucket p: Encode() *)
| EvEmit (p : ptr) (b : StatsBucket)      (* outStats <- *p, the copy sent is b *)
| EvClose (k : chan_kind) (h : ref)       (* close(h), a channel of kind k *)
| EvDone                                  (* exitGroup.Done() *)
| EvRecv (s : Span)                       (* s received from inSpans *)
| EvHandle (p : ptr) (s : Span)           (* bucket p: HandleSpan(s) *)
| EvForward (s : Span)                    (* outSpans <- s *)
| EvIngestorReturns                       (* the range loop ended *)
| EvHostSend (s : Span)                   (* the producer sent s *)
| EvHostExit                              (* the host closed the exit channel *)
| EvWaitReturns                           (* exitGroup.Wait() returned *)
| EvPanic (g : goroutine) (r : panic).

(** The process: the Concentrator object, the heap of buckets, the
    channels and wait groups the host created, the runtime's ticker (the
    one-slot buffer of the channel [time.Tick] returned, [None] when there
    is none), the goroutines, and the log (latest event first).  An
    unrecovered panic ends the process. *)
Record World : Type := mkWorld {
  conc : Concentrator;
  heap : list StatsBucket;
  spanChans : list (Chan Span);
  statsChans : list (Chan StatsBucket);
  exitChans : list (Chan bool);
  waitGroups : list Z;
  ticker : option bool;
  ingestor : option (ref * ipc);   (* the channel its range evaluated, and where it is *)
  closer : option cpc;
  waiter : wpc;
  crashed : option (goroutine * panic);
  trace : list event
}.

Definition set_conc (x : Concentrator) (w : World) : World :=
  mkWorld x (heap w) (spanChans w) (statsChans w) (exitChans w) (waitGroups w)
    (ticker w) (ingestor w) (closer w) (waiter w) (crashed w) (trace w).
Definition set_heap (x : list StatsBucket) (w : World) : World :=
  mkWorld (conc w) x (spanChans w) (statsChans w) (exitChans w) (waitGroups w)
    (ticker w) (ingestor w) (closer w) (waiter w) (crashed w) (trace w).
Definition set_spanChans (x : list (Chan Span)) (w : World) : World :=
  mkWorld (conc w) (heap w) x (statsChans w) (exitChans w) (waitGroups w)
    (ticker w) (ingestor w) (closer w) (waiter w) (crashed w) (trace w).
Definition set_statsChans (x : list (Chan StatsBucket)) (w : World) : World :=
  mkWorld (conc w) (heap w) (spanChans w) x (exitChans w) (waitGroups w)
    (ticker w) (ingestor w) (closer w) (waiter w) (crashed w) (trace w).
Definition set_exitChans (x : list (Chan bool)) (w : World) : World :=
  mkWorld (conc w) (heap w) (spanChans w) (statsChans w) x (waitGroups w)
    (ticker w) (ingestor w) (closer w) (waiter w) (crashed w) (trace w).
Definition set_waitGroups (x : list Z) (w : World) : World :=
  mkWorld (conc w) (heap w) (spanChans w) (statsChans w) (exitChans w) x
    (ticker w) (ingestor w) (closer w) (waiter w) (crashed w) (trace w).
Definition set_ticker (x : option bool) (w : World) : World :=
  mkWorld (conc w) (heap w) (spanChans w) (statsChans w) (exitChans w) (waitGroups w)
    x (ingestor w) (closer w) (waiter w) (crashed w) (trace w).
Definition set_ingestor (x : option (ref * ipc)) (w : World) : World :=
  mkWorld (conc w) (heap w) (spanChans w) (statsChans w) (exitChans w) (waitGroups w)
    (ticker w) x (closer w) (waiter w) (crashed w) (trace w).
Definition set_closer (x : option cpc) (w : World) : World :=
  mkWorld (conc w) (heap w) (spanChans w) (statsChans w) (exitChans w) (waitGroups w)
    (ticker w) (ingestor w) x (waiter w) (crashed w) (trace w).
Definition set_waiter (x : wpc) (w : World) : World :=
  mkWorld (conc w) (heap w) (spanChans w) (statsChans w) (exitChans w) (waitGroups w)
    (ticker w) (ingestor w) (closer w) x (crashed w) (trace w).
Definition set_crashed (x : option (goroutine * panic)) (w : World) : World :=
  mkWorld (conc w) (heap w) (spanChans w) (statsChans w) (exitChans w) (waitGroups w)
    (ticker w) (ingestor w) (closer w) (waiter w) x (trace w).
Definition log (e : event) (w : World) : World :=
  mkWorld (conc w) (heap w) (spanChans w) (statsChans w) (exitChans w) (waitGroups w)
    (ticker w) (ingestor w) (closer w) (waiter w) (crashed w) (e :: trace w).

(** [*p], which panics on nil. *)
Definition deref (p : option ptr) (h : list StatsBucket) : outcome (ptr * StatsBucket) :=
  match p with
  | None => Panics NilDereference
  | Some a =>
      match h !! a with
      | Some b => Returns (a, b)
      | None => Panics NilDereference
      end
  end.

(** *** Construction and lifecycle *)

(** [func NewConcentrator(bucketDuration, eps, exit, exitGroup)]: the
    other fields keep their zero values. *)
Definition NewConcentrator (bd : Z) (e : Eps) (ex : ref) (eg : ref) : Concentrator :=
  mkConcentrator None None None ex eg bd e (None, None) 0.

(** [func (c *Concentrator) Init(inSpans, outStats, outSpans)] *)
Definition Init (i : ref) (os : ref) (o : ref) (w : World) : World :=
  let c := conc w in
  set_conc (mkConcentrator i os o (exit c) (exitGroup c) (bucketDuration c)
              (eps c) (openBucket c) (currentBucket c)) w.

(** [func (c *Concentrator) Start()]: the first bucket goes into slot 0
    (its window begins at the clock reading [now]), then both goroutines
    are launched. *)
Definition Start (now : Z) (w : World) : World :=
  let c := conc w in
  let p := length (heap w) in
  let w := set_heap (heap w ++ [model.NewStatsBucket (eps c) now]) w in
  let w := set_conc (set_openBucket (Some p, snd (openBucket c)) c) w in
  let w := log (EvNew 0 p now) w in
  let w := set_ingestor (Some (None, IRange)) w in
  set_closer (Some CAdd) w.

(** *** [HandleNewSpan] *)

(** [b.HandleSpan(s)] on the bucket a loaded slot points at. *)
Definition bucket_call (s : Span) (b : option ptr) (w : World) : outcome World :=
  '(p, bk) ← deref b (heap w);
  Returns (log (EvHandle p s) (set_heap (<[p := model.HandleSpan s bk]> (heap w)) w)).

(** [func (c *Concentrator) HandleNewSpan(s *model.Span)], called without
    interruption. *)
Definition HandleNewSpan (s : Span) (w : World) : outcome World :=
  let i := currentBucket (conc w) in
  b ← array_get (openBucket (conc w)) i;
  bucket_call s b w.

(** *** [flush], statement by statement *)

(** [c.openBucket[nextBucket] = model.NewStatsBucket(c.eps)] *)
Definition flush_alloc (now : Z) (nextBucket : Z) (w : World) : outcome World :=
  let c := conc w in
  let p := length (heap w) in
  a ← array_set (openBucket c) nextBucket (Some p);
  Returns (log (EvNew nextBucket p now)
             (set_conc (set_openBucket a c)
                (set_heap (heap w ++ [model.NewStatsBucket (eps c) now]) w))).

(** [c.openBucket[c.currentBucket].Duration =
       model.Now() - c.openBucket[c.currentBucket].Start] *)
Definition flush_stamp (now : Z) (w : World) : outcome World :=
  let c := conc w in
  slot ← array_get (openBucket c) (currentBucket c);
  '(p, b) ← deref slot (heap w);
  let d := now - model.Start b in
  Returns (log (EvStamp p now d)
             (set_heap (<[p := model.set_Duration d b]> (heap w)) w)).

(** [c.currentBucket = nextBucket] *)
Definition flush_flip (nextBucket : Z) (w : World) : World :=
  log (EvFlip nextBucket) (set_conc (set_currentBucket nextBucket (conc w)) w).

(** [c.openBucket[bucketToSend] != nil] *)
Definition flush_check (bucketToSend : Z) (w : World) : outcome bool :=
  slot ← array_get (openBucket (conc w)) bucketToSend;
  Returns (match slot with Some _ => true | None => false end).

(** [c.openBucket[bucketToSend].Encode()] *)
Definition flush_encode (bucketToSend : Z) (w : World) : outcome World :=
  slot ← array_get (openBucket (conc w)) bucketToSend;
  '(p, b) ← deref slot (heap w);
  Returns (log (EvEncode p) (set_heap (<[p := model.Encode b]> (heap w)) w)).

(** [c.outStats <- *c.openBucket[bucketToSend]]: a copy of the bucket is
    sent. *)
Definition flush_send (bucketToSend : Z) (w : World) : outcome World :=
  slot ← array_get (openBucket (conc w)) bucketToSend;
  '(p, b) ← deref slot (heap w);
  st ← chan_send (outStats (conc w)) b (statsChans w);
  Returns (log (EvEmit p b) (set_statsChans st w)).

(** [func (c *Concentrator) flush()], called without interruption; the
    clock is read at [t_new] by the constructor and at [t_now] by
    [model.Now()]. *)
Definition flush (t_new t_now : Z) (w : World) : outcome World :=
  let nextBucket := next_index (currentBucket (conc w)) in
  w ← flush_alloc t_new nextBucket w;
  w ← flush_stamp t_now w;
  let w := flush_flip nextBucket w in
  let bucketToSend := next_index (currentBucket (conc w)) in
  full ← flush_check bucketToSend w;
  if full : bool then
    w ← flush_encode bucketToSend w;
    flush_send bucketToSend w
  else Returns (log (EvSkip bucketToSend) w).

(** *** The goroutines *)

(** One statement of the ingestor; [ch] is the channel its [range]
    evaluated. *)
Definition ingestor_step (ch : ref) (pc : ipc) (w : World)
  : outcome (ref * ipc * World) :=
  match pc with
  | IRange => Returns (inSpans (conc w), IRecv, w)
  | IRecv =>
      '(x, st) ← chan_recv ch (spanChans w);
      match x with
      | Some s => Returns (ch, IIndex s, log (EvRecv s) (set_spanChans st w))
      | None => Returns (ch, IReturned, log EvIngestorReturns w)
      end
  | IIndex s => Returns (ch, ILoad s (currentBucket (conc w)), w)
  | ILoad s i =>
      b ← array_get (openBucket (conc w)) i;
      Returns (ch, ICall s b, w)
  | ICall s b =>
      w ← bucket_call s b w;
      Returns (ch, ISend s, w)
  | ISend s =>
      st ← chan_send (outSpans (conc w)) s (spanChans w);
      Returns (ch, IRecv, log (EvForward s) (set_spanChans st w))
  | IReturned => Blocks
  end.

(** [time.Tick(time.Duration(c.bucketDuration) * time.Second)]: no ticker
    for a period that is not positive. *)
Definition new_ticker (bd : Z) : option bool :=
  if 0 <? wrap64 (wrap64 bd * 1000000000) then Some false else None.

(** One statement of [bucketCloser] other than its [select]. *)
Definition closer_step (now : Z) (pc : cpc) (w : World) : outcome (cpc * World) :=
  match pc with
  | CAdd =>
      st ← wg_add (exitGroup (conc w)) 1 (waitGroups w);
      Returns (CTicker, log EvAdd (set_waitGroups st w))
  | CTicker => Returns (CSelect, set_ticker (new_ticker (bucketDuration (conc w))) w)
  | CSelect => Blocks
  | CClose =>
      st ← chan_close (outSpans (conc w)) (spanChans w);
      Returns (CDone, log (EvClose SpanChan (outSpans (conc w))) (set_spanChans st w))
  | CDone =>
      st ← wg_add (exitGroup (conc w)) (-1) (waitGroups w);
      Returns (CReturned, log EvDone (set_waitGroups st w))
  | CReturned => Blocks
  | FNext => Returns (FAlloc (next_index (currentBucket (conc w))), w)
  | FAlloc nb => w ← flush_alloc now nb w; Returns (FStamp nb, w)
  | FStamp nb => w ← flush_stamp now w; Returns (FFlip nb, w)
  | FFlip nb => Returns (FDrain, flush_flip nb w)
  | FDrain => Returns (FCheck (next_index (currentBucket (conc w))), w)
  | FCheck bts =>
      full ← flush_check bts w;
      Returns (if full : bool then (FEncode bts, w) else (CSelect, log (EvSkip bts) w))
  | FEncode bts => w ← flush_encode bts w; Returns (FSend bts, w)
  | FSend bts => w ← flush_send bts w; Returns (CSelect, w)
  end.

(** The [select] of [bucketCloser]: [case <-c.exit] is ready when the exit
    channel holds a value or is closed, [case <-ticker] when a tick is
    pending.  When both are ready the runtime picks either. *)
Inductive branch : Type := OnExit | OnTick.

Definition closer_select (br : branch) (w : World) : outcome (cpc * World) :=
  match br with
  | OnExit =>
      '(_, st) ← chan_recv (exit (conc w)) (exitChans w);
      Returns (CClose, log EvExit (set_exitChans st w))
  | OnTick =>
      match ticker w with
      | Some true => Returns (FNext, log EvTick (set_ticker (Some false) w))
      | _ => Blocks
      end
  end.

(** *** The host and the scheduler *)

(** The objects the host created and handed to [NewConcentrator] and
    [Init]. *)
Definition hostIn : nat := 0%nat.
Definition hostOut : nat := 1%nat.
Definition hostStats : nat := 0%nat.
Definition hostExit : nat := 0%nat.
Definition hostGroup : nat := 0%nat.

Inductive action : Type :=
| RunIngestor                 (* the ingestor runs one statement *)
| RunCloser (now : Z)         (* bucketCloser runs one statement; the clock reads now *)
| Select (br : branch)        (* bucketCloser's select takes a ready case *)
| TimerFires                  (* the runtime puts a tick into the ticker *)
| HostSend (s : Span)         (* the producer sends a span *)
| HostCloseIn                 (* the producer closes the inbound channel *)
| HostExit                    (* the host closes the exit channel *)
| HostWait                    (* the supervisor calls, or is woken in, exitGroup.Wait() *)
| HostRecvSpan                (* the span writer receives *)
| HostRecvStats.              (* the stats writer receives *)

Definition crash (g : goroutine) (r : panic) (w : World) : World :=
  log (EvPanic g r) (set_crashed (Some (g, r)) w).

(** One scheduling step; [None] when the action is not enabled (its
    goroutine is blocked or gone, or the process has crashed). *)
Definition step (a : action) (w : World) : option World :=
  match crashed w with
  | Some _ => None
  | None =>
      match a with
      | RunIngestor =>
          match ingestor w with
          | None => None
          | Some (ch, pc) =>
              match ingestor_step ch pc w with
              | Returns (ch', pc', w') => Some (set_ingestor (Some (ch', pc')) w')
              | Panics r => Some (crash Ingestor r w)
              | Blocks => None
              end
          end
      | RunCloser now =>
          match closer w with
          | None => None
          | Some pc =>
              match closer_step now pc w with
              | Returns (pc', w') => Some (set_closer (Some pc') w')
              | Panics r => Some (crash Closer r w)
              | Blocks => None
              end
          end
      | Select br =>
          match closer w with
          | Some CSelect =>
              match closer_select br w with
              | Returns (pc', w') => Some (set_closer (Some pc') w')
              | Panics r => Some (crash Closer r w)
              | Blocks => None
              end
          | _ => None
          end
      | TimerFires =>
          match ticker w with
          | Some _ => Some (set_ticker (Some true) w)
          | None => None
          end
      | HostSend s =>
          match chan_send (Some hostIn) s (spanChans w) with
          | Returns st => Some (log (EvHostSend s) (set_spanChans st w))
          | _ => None
          end
      | HostCloseIn =>
          match chan_close (Some hostIn) (spanChans w) with
          | Returns st => Some (set_spanChans st w)
          | _ => None
          end
      | HostExit =>
          match chan_close (Some hostExit) (exitChans w) with
          | Returns st => Some (log EvHostExit (set_exitChans st w))
          | _ => None
          end
      | HostWait =>
          match waiter w, waitGroups w !! hostGroup with
          | WReleased, _ | _, None => None
          | _, Some n =>
              if n =? 0 then Some (log EvWaitReturns (set_waiter WReleased w))
              else Some (set_waiter WBlocked w)
          end
      | HostRecvSpan =>
          match chan_recv (Some hostOut) (spanChans w) with
          | Returns (_, st) => Some (set_spanChans st w)
          | _ => None
          end
      | HostRecvStats =>
          match chan_recv (Some hostStats) (statsChans w) with
          | Returns (_, st) => Some (set_statsChans st w)
          | _ => None
          end
      end
  end.

(** A schedule is run from left to right. *)
Fixpoint run (sched : list action) (w : World) : option World :=
  match sched with
  | [] => Some w
  | a :: rest =>
      match step a w with
      | Some w' => run rest w'
      | None => None
      end
  end.

(** The process when [main] has made its channels and wait group and
    called [NewConcentrator]. *)
Definition boot (bd : Z) (e : Eps) : World :=
  mkWorld (NewConcentrator bd e (Some hostExit) (Some hostGroup)) []
    [open_chan; open_chan] [open_chan] [open_chan] [0] None None None WIdle None [].

(** ... and after [Init] and [Start]. *)
Definition started (bd : Z) (e : Eps) (t0 : Z) : World :=
  Start t0 (Init (Some hostIn) (Some hostStats) (Some hostOut) (boot bd e)).

End Concentrator.

(** * Readings of the log, and the invariant *)

Set Maximal Implicit Insertion.

Section Specification.
Variables Span Eps : Type.

(** The clock reading at which [Start] opened the first bucket. *)
Variable t0 : Z.

Local Abbreviation StatsBucket := (model.StatsBucket Span Eps).
Local Abbreviation event := (event Span Eps).
Local Abbreviation World := (World Span Eps).

(** ** Readings of the log *)

(** The events of [bucketCloser] from its [select] on: rotations and
    shutdown. *)
Definition closer_event (e : event) : bool :=
  match e with
  | EvTick | EvExit | EvNew _ _ _ | EvStamp _ _ _ | EvFlip _ | EvSkip _
  | EvEncode _ | EvEmit _ _ | EvClose _ _ | EvDone => true
  | _ => false
  end.

Definition closer_events (tr : list event) : list event := List.filter closer_event tr.

(** The buckets sent on the stats channel, latest first, with the copy that
    was sent. *)
Fixpoint emitted (tr : list event) : list (ptr * StatsBucket) :=
  match tr with
  | [] => []
  | EvEmit p v :: tr => (p, v) :: emitted tr
  | _ :: tr => emitted tr
  end.

(** The buckets whose [Duration] was stamped, latest first, with the clock
    reading. *)
Fixpoint stamped (tr : list event) : list (ptr * Z) :=
  match tr with
  | [] => []
  | EvStamp p now _ :: tr => (p, now) :: stamped tr
  | _ :: tr => stamped tr
  end.

(** The buckets allocated, latest first, with the begin of their window. *)
Fixpoint allocated (tr : list event) : list (ptr * Z) :=
  match tr with
  | [] => []
  | EvNew _ p t :: tr => (p, t) :: allocated tr
  | _ :: tr => allocated tr
  end.

(** The number of rotations begun: ticks that [bucketCloser] took. *)
Fixpoint rotations (tr : list event) : nat :=
  match tr with
  | [] => 0
  | EvTick :: tr => S (rotations tr)
  | _ :: tr => rotations tr
  end.

(** The closes that the goroutines performed. *)
Fixpoint closes (tr : list event) : list (chan_kind * ref) :=
  match tr with
  | [] => []
  | EvClose k h :: tr => (k, h) :: closes tr
  | _ :: tr => closes tr
  end.

(** [bucketCloser] is inside [flush]. *)
Definition in_flush (pc : cpc) : bool :=
  match pc with
  | FNext | FAlloc _ | FStamp _ | FFlip _ | FDrain | FCheck _ | FEncode _ | FSend _ => true
  | _ => false
  end.

(** The bucket that [c.openBucket[c.currentBucket]] points at: the write
    target of [HandleNewSpan]. *)
Definition current_target (w : World) : option ptr :=
  match array_get (openBucket (conc w)) (currentBucket (conc w)) with
  | Returns b => b
  | _ => None
  end.

(** The window of a bucket and whether it was encoded: what the rotation
    reads and writes, as opposed to the statistics the ingestor adds. *)
Definition window (b : StatsBucket) : Z * Z * bool :=
  (model.Start b, model.Duration b, model.Encoded b).

(** ** The history of the rotations *)

(** [rotation_log k c t lg]: [lg] (latest first) is the history of [Start]
    and [k] whole rotations, after which the current index is [c] and the
    current bucket is bucket [k], whose window began at [t].  Rotation
    [k + 1] allocates bucket [k + 1] into the other slot, stamps bucket [k],
    flips, and encodes and sends bucket [k]. *)
Inductive rotation_log : nat → Z → Z → list event → Prop :=
| rotation_log_start :
    rotation_log 0 0 t0 [EvNew 0 0%nat t0]
| rotation_log_next k c t lg t' now v :
    rotation_log k c t lg →
    window v = (t, now - t, true) →
    rotation_log (S k) (1 - c) t'
      (EvEmit k v :: EvEncode k :: EvFlip (1 - c) :: EvStamp k now (now - t)
         :: EvNew (1 - c) (S k) t' :: EvTick :: lg).

(** ** The invariant *)

(** Slot [c] of the ring holds [a] and the other slot holds [b]. *)
Definition slots_are (c : Z) (a b : option ptr) (slots : array2 (option ptr)) : Prop :=
  (c = 0 ∧ slots = (a, b)) ∨ (c = 1 ∧ slots = (b, a)).

Definition prev_bucket (k : nat) : option ptr :=
  match k with
  | O => None
  | S j => Some j
  end.

(** How far a rotation has come once it has allocated. *)
Inductive phase : Type := PhAllocated | PhStamped | PhFlipped | PhEncoded.

Definition flipped (ph : phase) : bool :=
  match ph with
  | PhAllocated | PhStamped => false
  | PhFlipped | PhEncoded => true
  end.

(** The events of the rotation under way, latest first. *)
Definition block_prefix (ph : phase) (k : nat) (c0 t t' now : Z) : list event :=
  match ph with
  | PhAllocated => [EvNew (1 - c0) (S k) t'; EvTick]
  | PhStamped => [EvStamp k now (now - t); EvNew (1 - c0) (S k) t'; EvTick]
  | PhFlipped =>
      [EvFlip (1 - c0); EvStamp k now (now - t); EvNew (1 - c0) (S k) t'; EvTick]
  | PhEncoded =>
      [EvEncode k; EvFlip (1 - c0); EvStamp k now (now - t);
       EvNew (1 - c0) (S k) t'; EvTick]
  end.

(** Program points at which the ring is as the last whole rotation left it,
    with what [bucketCloser] has logged since. *)
Definition resting_prefix (pc : cpc) : option (list event) :=
  match pc with
  | CAdd | CTicker | CSelect => Some []
  | CClose => Some [EvExit]
  | CDone => Some [EvClose SpanChan (Some hostOut); EvExit]
  | CReturned => Some [EvDone; EvClose SpanChan (Some hostOut); EvExit]
  | FNext | FAlloc _ => Some [EvTick]
  | _ => None
  end.

Definition turning_phase (pc : cpc) : option phase :=
  match pc with
  | FStamp _ => Some PhAllocated
  | FFlip _ => Some PhStamped
  | FDrain | FCheck _ | FEncode _ => Some PhFlipped
  | FSend _ => Some PhEncoded
  | _ => None
  end.

(** The locals of [flush], where [c0] is the index that was current when the
    rotation began. *)
Definition local_ok (pc : cpc) (c0 : Z) : Prop :=
  match pc with
  | FAlloc nb | FStamp nb | FFlip nb => nb = 1 - c0
  | FCheck b | FEncode b | FSend b => b = c0
  | _ => True
  end.

(** The ring, the windows of the heap and the log of [bucketCloser] at each
    of its program points. *)
Inductive ring_inv (pc : cpc) (c : Z) (slots : array2 (option ptr))
  (hp : list (Z * Z * bool)) (lg : list event) : Prop :=
| ring_resting pre k t d enc lg0 :
    resting_prefix pc = Some pre →
    local_ok pc c →
    lg = pre ++ lg0 →
    rotation_log k c t lg0 →
    slots_are c (Some k) (prev_bucket k) slots →
    length hp = S k →
    hp !! k = Some (t, d, enc) →
    ring_inv pc c slots hp lg
| ring_turning ph k c0 t t' now dk enck d' enc' lg0 :
    turning_phase pc = Some ph →
    local_ok pc c0 →
    c = (if flipped ph then 1 - c0 else c0) →
    lg = block_prefix ph k c0 t t' now ++ lg0 →
    rotation_log k c0 t lg0 →
    slots_are c0 (Some k) (Some (S k)) slots →
    length hp = S (S k) →
    hp !! k = Some (t, dk, enck) →
    (ph ≠ PhAllocated → dk = now - t) →
    (ph = PhEncoded → enck = true) →
    hp !! S k = Some (t', d', enc') →
    ring_inv pc c slots hp lg.

(** The wait group counter and the outbound span channel along
    [bucketCloser]. *)
Definition shutdown_inv (pc : cpc) (n : Z) (out_closed : bool) : Prop :=
  match pc with
  | CAdd => n = 0 ∧ out_closed = false
  | CDone => n = 1 ∧ out_closed = true
  | CReturned => n = 0 ∧ out_closed = true
  | _ => n = 1 ∧ out_closed = false
  end.

(** The locals of the ingestor inside [HandleNewSpan]: an index it has read
    is that of a slot that holds a bucket, a pointer it has loaded is that of
    a bucket of the heap. *)
Definition ingest_inv (pc : ipc Span) (slots : array2 (option ptr)) (n : nat) : Prop :=
  match pc with
  | ILoad _ i => ∃ p, array_get slots i = Returns (Some p)
  | ICall _ b => ∃ p, b = Some p ∧ (p < n)%nat
  | _ => True
  end.

(** The one panic the goroutines can raise. *)
Definition crash_inv (cr : option (goroutine * panic)) : Prop :=
  cr = None ∨ cr = Some (Ingestor, SendOnClosedChannel).

(** Everything that holds of the process from [Start] on, under every
    schedule. *)
Inductive Inv (bd : Z) (e : Eps) : World → Prop :=
| Inv_intro slots c hp cin cout cs ce n tk ich ip cp wt cr tr :
    closed cs = false →
    ring_inv cp c slots (window <$> hp) (closer_events tr) →
    shutdown_inv cp n (closed cout) →
    ingest_inv ip slots (length hp) →
    crash_inv cr →
    Inv bd e
      (mkWorld
         (mkConcentrator (Some hostIn) (Some hostStats) (Some hostOut)
            (Some hostExit) (Some hostGroup) bd e slots c)
         hp [cin; cout] [cs] [ce] [n] tk (Some (ich, ip)) (Some cp) wt cr tr).

(** ** What an action can log *)

(** The events an action can log, given where [bucketCloser] stands. *)
Definition may_log (a : action Span) (cp : option cpc) (e : event) : Prop :=
  match a, e with
  | RunIngestor, (EvRecv _ | EvHandle _ _ | EvForward _ | EvIngestorReturns
                 | EvPanic Ingestor _) => True
  | RunCloser _, EvAdd => cp = Some CAdd
  | RunCloser _, EvClose k _ => cp = Some CClose ∧ k = SpanChan
  | RunCloser _, EvDone => cp = Some CDone
  | RunCloser _, EvNew _ _ _ => ∃ nb, cp = Some (FAlloc nb)
  | RunCloser _, EvStamp _ _ _ => ∃ nb, cp = Some (FStamp nb)
  | RunCloser _, EvFlip _ => ∃ nb, cp = Some (FFlip nb)
  | RunCloser _, EvSkip _ => ∃ b, cp = Some (FCheck b)
  | RunCloser _, EvEncode _ => ∃ b, cp = Some (FEncode b)
  | RunCloser _, EvEmit _ _ => ∃ b, cp = Some (FSend b)
  | RunCloser _, EvPanic Closer _ => True
  | Select OnExit, EvExit | Select OnTick, EvTick | Select _, EvPanic Closer _ =>
      cp = Some CSelect
  | HostSend s, EvHostSend s' => s' = s
  | HostExit, EvHostExit | HostWait, EvWaitReturns => True
  | _, _ => False
  end.

(** ** Readings for shutdown *)

(** What shutdown needs of the channels and the wait group: their closed
    flags and the counters. *)
Definition shutdown_state (w : World) : list bool * list bool * list bool * list Z :=
  (closed <$> spanChans w, closed <$> statsChans w, closed <$> exitChans w,
   waitGroups w).

(** A step of a rotation: the [select] taking a tick, or a statement of
    [flush]. *)
Definition rotation_step (a : action Span) (cp : option cpc) : Prop :=
  match a, cp with
  | Select OnTick, Some CSelect => True
  | RunCloser _, Some pc => in_flush pc = true
  | _, _ => False
  end.

(** The events that close a channel or touch the wait group. *)
Definition shutdown_event (e : event) : bool :=
  match e with
  | EvAdd | EvClose _ _ | EvDone => true
  | _ => false
  end.

(** What [bucketCloser] has logged since its [select] took the exit case,
    latest first. *)
Definition shutdown_log (pc : cpc) : list event :=
  match pc with
  | CClose => [EvExit]
  | CDone => [EvClose SpanChan (Some hostOut); EvExit]
  | CReturned => [EvDone; EvClose SpanChan (Some hostOut); EvExit]
  | _ => []
  end.

(** The events of the exit path. *)
Definition exit_event (e : event) : bool :=
  match e with
  | EvExit | EvClose _ _ | EvDone => true
  | _ => false
  end.

(** ** Readings for the spans *)

(** The spans the producer sent, those the ingestor received, handled and
    forwarded, latest first. *)
Fixpoint produced (tr : list event) : list Span :=
  match tr with
  | [] => []
  | EvHostSend s :: tr => s :: produced tr
  | _ :: tr => produced tr
  end.

Fixpoint received (tr : list event) : list Span :=
  match tr with
  | [] => []
  | EvRecv s :: tr => s :: received tr
  | _ :: tr => received tr
  end.

Fixpoint handled (tr : list event) : list Span :=
  match tr with
  | [] => []
  | EvHandle _ s :: tr => s :: handled tr
  | _ :: tr => handled tr
  end.

Fixpoint forwarded (tr : list event) : list Span :=
  match tr with
  | [] => []
  | EvForward s :: tr => s :: forwarded tr
  | _ :: tr => forwarded tr
  end.

(** The spans along the loop of the ingestor: the span in hand has been
    received, then handled, and is forwarded last. *)
Definition flow_at (pc : ipc Span) (tr : list event) : Prop :=
  match pc with
  | IRange | IRecv | IReturned =>
      handled tr = received tr ∧ forwarded tr = handled tr
  | IIndex s | ILoad s _ | ICall s _ =>
      received tr = s :: handled tr ∧ forwarded tr = handled tr
  | ISend s =>
      handled tr = received tr ∧ handled tr = s :: forwarded tr
  end.

(** What the producer sent is what the ingestor received followed by what
    waits in the inbound channel; the ingestor ranges over that channel and
    returns only when it is closed and empty. *)
Definition Flow (w : World) : Prop :=
  ∃ cin ich ip,
    spanChans w !! hostIn = Some cin ∧ ingestor w = Some (ich, ip) ∧
    rev (produced (trace w)) = rev (received (trace w)) ++ queue cin ∧
    flow_at ip (trace w) ∧
    (ip ≠ IRange → ich = Some hostIn) ∧
    (ip = IReturned → queue cin = [] ∧ closed cin = true).

(** What [Flow] reads of the process. *)
Definition span_view (w : World) :=
  (spanChans w !! hostIn, ingestor w,
   (produced (trace w), received (trace w), handled (trace w), forwarded (trace w))).

(** ** The steps, case by case *)

(** [transition a w w']: action [a] takes the process from [w] to [w'].
    There is one case for each statement that returns and one for the
    unrecovered panic of each goroutine. *)
Inductive transition : action Span → World → World → Prop :=
| t_range w ch :
    ingestor w = Some (ch, IRange) →
    transition RunIngestor w (set_ingestor (Some (inSpans (conc w), IRecv)) w)
| t_recv w ch s st :
    ingestor w = Some (ch, IRecv) →
    chan_recv ch (spanChans w) = Returns (Some s, st) →
    transition RunIngestor w
      (set_ingestor (Some (ch, IIndex s)) (log (EvRecv s) (set_spanChans st w)))
| t_drained w ch st :
    ingestor w = Some (ch, IRecv) →
    chan_recv ch (spanChans w) = Returns (None, st) →
    transition RunIngestor w
      (set_ingestor (Some (ch, IReturned)) (log EvIngestorReturns w))
| t_index w ch s :
    ingestor w = Some (ch, IIndex s) →
    transition RunIngestor w
      (set_ingestor (Some (ch, ILoad s (currentBucket (conc w)))) w)
| t_load w ch s i b :
    ingestor w = Some (ch, ILoad s i) →
    array_get (openBucket (conc w)) i = Returns b →
    transition RunIngestor w (set_ingestor (Some (ch, ICall s b)) w)
| t_call w ch s p bk :
    ingestor w = Some (ch, ICall s (Some p)) →
    heap w !! p = Some bk →
    transition RunIngestor w
      (set_ingestor (Some (ch, ISend s))
         (log (EvHandle p s)
            (set_heap (<[p := model.HandleSpan s bk]> (heap w)) w)))
| t_forward w ch s st :
    ingestor w = Some (ch, ISend s) →
    chan_send (outSpans (conc w)) s (spanChans w) = Returns st →
    transition RunIngestor w
      (set_ingestor (Some (ch, IRecv)) (log (EvForward s) (set_spanChans st w)))
| t_ingestor_panics w ch pc r :
    ingestor w = Some (ch, pc) →
    ingestor_step ch pc w = Panics r →
    transition RunIngestor w (crash Ingestor r w)
| t_add w now st :
    closer w = Some CAdd →
    wg_add (exitGroup (conc w)) 1 (waitGroups w) = Returns st →
    transition (RunCloser now) w
      (set_closer (Some CTicker) (log EvAdd (set_waitGroups st w)))
| t_ticker w now :
    closer w = Some CTicker →
    transition (RunCloser now) w
      (set_closer (Some CSelect)
         (set_ticker (new_ticker (bucketDuration (conc w))) w))
| t_close w now st :
    closer w = Some CClose →
    chan_close (outSpans (conc w)) (spanChans w) = Returns st →
    transition (RunCloser now) w
      (set_closer (Some CDone)
         (log (EvClose SpanChan (outSpans (conc w))) (set_spanChans st w)))
| t_done w now st :
    closer w = Some CDone →
    wg_add (exitGroup (conc w)) (-1) (waitGroups w) = Returns st →
    transition (RunCloser now) w
      (set_closer (Some CReturned) (log EvDone (set_waitGroups st w)))
| t_next w now :
    closer w = Some FNext →
    transition (RunCloser now) w
      (set_closer (Some (FAlloc (next_index (currentBucket (conc w))))) w)
| t_alloc w now nb a :
    closer w = Some (FAlloc nb) →
    array_set (openBucket (conc w)) nb (Some (length (heap w))) = Returns a →
    transition (RunCloser now) w
      (set_closer (Some (FStamp nb))
         (log (EvNew nb (length (heap w)) now)
            (set_conc (set_openBucket a (conc w))
               (set_heap (heap w ++ [model.NewStatsBucket (eps (conc w)) now]) w))))
| t_stamp w now nb p b :
    closer w = Some (FStamp nb) →
    array_get (openBucket (conc w)) (currentBucket (conc w)) = Returns (Some p) →
    heap w !! p = Some b →
    transition (RunCloser now) w
      (set_closer (Some (FFlip nb))
         (log (EvStamp p now (now - model.Start b))
            (set_heap (<[p := model.set_Duration (now - model.Start b) b]> (heap w)) w)))
| t_flip w now nb :
    closer w = Some (FFlip nb) →
    transition (RunCloser now) w (set_closer (Some FDrain) (flush_flip nb w))
| t_drain w now :
    closer w = Some FDrain →
    transition (RunCloser now) w
      (set_closer (Some (FCheck (next_index (currentBucket (conc w))))) w)
| t_check_full w now bts p :
    closer w = Some (FCheck bts) →
    array_get (openBucket (conc w)) bts = Returns (Some p) →
    transition (RunCloser now) w (set_closer (Some (FEncode bts)) w)
| t_check_empty w now bts :
    closer w = Some (FCheck bts) →
    array_get (openBucket (conc w)) bts = Returns None →
    transition (RunCloser now) w (set_closer (Some CSelect) (log (EvSkip bts) w))
| t_encode w now bts p b :
    closer w = Some (FEncode bts) →
    array_get (openBucket (conc w)) bts = Returns (Some p) →
    heap w !! p = Some b →
    transition (RunCloser now) w
      (set_closer (Some (FSend bts))
         (log (EvEncode p) (set_heap (<[p := model.Encode b]> (heap w)) w)))
| t_send w now bts p b st :
    closer w = Some (FSend bts) →
    array_get (openBucket (conc w)) bts = Returns (Some p) →
    heap w !! p = Some b →
    chan_send (outStats (conc w)) b (statsChans w) = Returns st →
    transition (RunCloser now) w
      (set_closer (Some CSelect) (log (EvEmit p b) (set_statsChans st w)))
| t_closer_panics w now pc r :
    closer w = Some pc →
    closer_step now pc w = Panics r →
    transition (RunCloser now) w (crash Closer r w)
| t_exit w x st :
    closer w = Some CSelect →
    chan_recv (exit (conc w)) (exitChans w) = Returns (x, st) →
    transition (Select OnExit) w
      (set_closer (Some CClose) (log EvExit (set_exitChans st w)))
| t_tick w :
    closer w = Some CSelect →
    ticker w = Some true →
    transition (Select OnTick) w
      (set_closer (Some FNext) (log EvTick (set_ticker (Some false) w)))
| t_timer w b :
    ticker w = Some b →
    transition TimerFires w (set_ticker (Some true) w)
| t_host_send w s st :
    chan_send (Some hostIn) s (spanChans w) = Returns st →
    transition (HostSend s) w (log (EvHostSend s) (set_spanChans st w))
| t_host_close w st :
    chan_close (Some hostIn) (spanChans w) = Returns st →
    transition HostCloseIn w (set_spanChans st w)
| t_host_exit w st :
    chan_close (Some hostExit) (exitChans w) = Returns st →
    transition HostExit w (log EvHostExit (set_exitChans st w))
| t_wait_returns w :
    waiter w ≠ WReleased →
    waitGroups w !! hostGroup = Some 0 →
    transition HostWait w (log EvWaitReturns (set_waiter WReleased w))
| t_wait_blocks w n :
    waiter w ≠ WReleased →
    waitGroups w !! hostGroup = Some n → n ≠ 0 →
    transition HostWait w (set_waiter WBlocked w)
| t_host_recv_span w x st :
    chan_recv (Some hostOut) (spanChans w) = Returns (x, st) →
    transition HostRecvSpan w (set_spanChans st w)
| t_host_recv_stats w x st :
    chan_recv (Some hostStats) (statsChans w) = Returns (x, st) →
    transition HostRecvStats w (set_statsChans st w).

(** ** Readings for the statistics *)

(** The spans bucket [p] has absorbed, latest first. *)
Fixpoint absorbed_by (p : ptr) (tr : list event) : list Span :=
  match tr with
  | [] => []
  | EvHandle q s :: tr =>
      if Nat.eqb q p then s :: absorbed_by p tr else absorbed_by p tr
  | _ :: tr => absorbed_by p tr
  end.

(** The number of spans the buckets of a heap hold. *)
Definition absorbed_total (hp : list StatsBucket) : nat :=
  sum_list_with (λ b, length (model.Absorbed b)) hp.

(** The heap agrees with the log: a bucket holds the spans handled into it,
    in that order, and was made with [eps]; nothing was handled into an
    address that is not allocated. *)
Definition heap_ledger (e : Eps) (w : World) : Prop :=
  ∀ p,
    match heap w !! p with
    | Some b => model.Absorbed b = rev (absorbed_by p (trace w)) ∧ model.Epsilon b = e
    | None => absorbed_by p (trace w) = []
    end.

(** Each copy sent holds what its bucket had absorbed when it was sent, and
    was encoded. *)
Fixpoint sent_ledger (e : Eps) (tr : list event) : Prop :=
  match tr with
  | [] => True
  | EvEmit p v :: tr =>
      (model.Absorbed v = rev (absorbed_by p tr) ∧ model.Epsilon v = e ∧
       model.Encoded v = true) ∧ sent_ledger e tr
  | _ :: tr => sent_ledger e tr
  end.

(** ** Readings for the channels *)

(** What waits in the outbound span channel was forwarded, last and in
    order. *)
Definition out_ledger (w : World) : Prop :=
  ∃ cout, spanChans w !! hostOut = Some cout ∧
          queue cout `suffix_of` rev (forwarded (trace w)).

(** What waits in the stats channel was sent by [flush], last and in
    order. *)
Definition stats_ledger (w : World) : Prop :=
  ∃ cs, statsChans w !! hostStats = Some cs ∧
        queue cs `suffix_of` rev (map snd (emitted (trace w))).

(** ** Readings for panics and for the exit *)

(** The host signals the exit by closing the exit channel, which carries no
    value: the [select] has taken the exit case only if the channel is
    closed, and it is closed only if the host has closed it. *)
Definition exit_ledger (w : World) : Prop :=
  ∃ ce, exitChans w !! hostExit = Some ce ∧ queue ce = [] ∧
        (In EvExit (trace w) → closed ce = true) ∧
        (closed ce = true → In EvHostExit (trace w)).

(** The one way in which the process ends in a panic: the ingestor sends on
    the outbound span channel when it is closed. *)
Definition crash_shape (w : World) : Prop :=
  crashed w = None ∨
  (crashed w = Some (Ingestor, SendOnClosedChannel) ∧
   (∃ ch s, ingestor w = Some (ch, ISend s)) ∧
   (∃ cout, spanChans w !! hostOut = Some cout ∧ closed cout = true) ∧
   ∃ tr, trace w = EvPanic Ingestor SendOnClosedChannel :: tr).

(** ** Readings for a Concentrator without ticker *)

(** No tick can come and no rotation has begun. *)
Definition idle (w : World) : Prop :=
  ticker w = None ∧ rotations (trace w) = 0%nat ∧
  ∃ pc, closer w = Some pc ∧ in_flush pc = false.

(** ** A Concentrator started without [Init] *)

(** The process when [Start] is called on what [NewConcentrator] returned,
    with no [Init] in between: the three work channels are nil. *)
Definition started_without_Init (bd : Z) (e : Eps) : World := Start t0 (boot bd e).

(** The events that need a work channel, and [Done], which comes after the
    close. *)
Definition needs_channel (ev : event) : bool :=
  match ev with
  | EvRecv _ | EvHandle _ _ | EvForward _ | EvIngestorReturns | EvEmit _ _
  | EvClose _ _ | EvDone => true
  | _ => false
  end.

(** The ingestor is at the head of its loop, on a nil channel;
    [bucketCloser] has not come past its close; and nothing that needs a
    channel has happened. *)
Definition stalled (w : World) : Prop :=
  inSpans (conc w) = None ∧ outStats (conc w) = None ∧ outSpans (conc w) = None ∧
  (∃ ch pc, ingestor w = Some (ch, pc) ∧ (pc = IRange ∨ pc = IRecv ∧ ch = None)) ∧
  (∃ pc, closer w = Some pc ∧ pc ≠ CDone ∧ pc ≠ CReturned) ∧
  Forall (λ ev, needs_channel ev = false) (trace w).

(** ** Sequential use *)

(** A call of [HandleNewSpan] or of [flush]; [flush] reads the clock in the
    constructor of the new bucket and in [model.Now()]. *)
Inductive call : Type :=
| Handle (s : Span)
| Flush (t_new t_now : Z).

(** The calls made one after the other, each returning before the next
    begins. *)
Fixpoint calls (cs : list call) (w : World) : outcome World :=
  match cs with
  | [] => Returns w
  | Handle s :: cs => w ← HandleNewSpan s w; calls cs w
  | Flush t_new t_now :: cs => w ← flush t_new t_now w; calls cs w
  end.

(** Time-bucketed statistics, as the comment on [Concentrator] has it: the
    buckets that the flushes among [cs] are to send, and the bucket left
    open, when the open bucket began at [start] and holds [cur].  A flush
    closes the open bucket with the spans handled since the flush before and
    opens the next. *)
Fixpoint buckets_of (e : Eps) (start : Z) (cur : list Span) (cs : list call)
  : list StatsBucket * StatsBucket :=
  match cs with
  | [] => ([], model.mkStatsBucket start 0 e cur false)
  | Handle s :: cs => buckets_of e start (cur ++ [s]) cs
  | Flush t_new t_now :: cs =>
      let '(sent, last) := buckets_of e t_new [] cs in
      (model.mkStatsBucket start (t_now - start) e cur true :: sent, last)
  end.

(** The Concentrator between two calls: the current slot holds the open
    bucket, which began at [start] and holds [cur], and [q] waits in the
    stats channel. *)
Definition ready (e : Eps) (start : Z) (cur : list Span) (q : list StatsBucket)
    (w : World) : Prop :=
  ∃ k x,
    slots_are (currentBucket (conc w)) (Some k) x (openBucket (conc w)) ∧
    heap w !! k = Some (model.mkStatsBucket start 0 e cur false) ∧
    eps (conc w) = e ∧ outStats (conc w) = Some hostStats ∧
    statsChans w = [mkChan q false].

(** ** A span that arrives as a rotation begins *)

(** The ingestor receives [s] and, inside [HandleNewSpan], loads the pointer
    to the current bucket; a tick comes and [bucketCloser] makes a whole
    rotation; then the ingestor calls [HandleSpan]. *)
Definition late_handle (s : Span) (t : Z) : list (action Span) :=
  [RunCloser t; RunCloser t; HostSend s;
   RunIngestor; RunIngestor; RunIngestor; RunIngestor;
   TimerFires; Select OnTick; RunCloser t; RunCloser t; RunCloser t; RunCloser t;
   RunCloser t; RunCloser t; RunCloser t; RunCloser t; RunIngestor].

(** ** Draining the inbound channel *)

(** The ingestor takes a span through its loop and the span writer receives
    it; this [n] times, and then the receive that finds the inbound channel
    closed and empty. *)
Definition drain (n : nat) : list (action Span) :=
  concat (replicate n [RunIngestor; RunIngestor; RunIngestor; RunIngestor;
                       RunIngestor; HostRecvSpan]) ++ [RunIngestor].

(** ** Readings for the ticks *)

Definition is_tick (a : action Span) : bool :=
  match a with
  | TimerFires => true
  | _ => false
  end.

(** The ticks the runtime has delivered in a schedule, and the tick that
    waits in the ticker. *)
Definition ticks (sched : list (action Span)) : nat := length (List.filter is_tick sched).

Definition pending (w : World) : nat :=
  match ticker w with
  | Some true => 1
  | _ => 0
  end.

(** ** The functions, statement by statement *)


End Specification.

Unset Implicit Arguments.
Unset Contextual Implicit.
Unset Maximal Implicit Insertion.

(** * Concrete executions *)

(** Spans are numbered, [eps] is left out, buckets last 2 seconds and
    [Start] runs at time 0. *)
Module Example.

Definition process : World nat unit := started 2 tt 0.

(** [bucketCloser] up to its [select]. *)
Definition startup : list (action nat) := [RunCloser 0; RunCloser 0].

(** A tick, and the statements of [flush] up to the send. *)
Definition rotation_to_send (t_new t_now : Z) : list (action nat) :=
  [TimerFires; Select OnTick; RunCloser 0; RunCloser t_new; RunCloser t_now;
   RunCloser 0; RunCloser 0; RunCloser 0; RunCloser 0].

(** A whole rotation at time [t]. *)
Definition rotation (t : Z) : list (action nat) :=
  rotation_to_send t t ++ [RunCloser 0].

(** The first bucket as the first rotation, at time 2, sends it. *)
Definition bucket0 : model.StatsBucket nat unit := model.mkStatsBucket 0 2 tt [] true.

(** The second bucket as the second rotation, at time 4, sends it. *)
Definition bucket1 : model.StatsBucket nat unit := model.mkStatsBucket 2 2 tt [] true.

(** The process after [Start] and one whole rotation at time 2, and after a
    second rotation at time 4. *)
Definition after_first : World nat unit :=
  Eval vm_compute in default process (run (startup ++ rotation 2) process).

Definition after_second : World nat unit :=
  Eval vm_compute in default process (run (startup ++ rotation 2 ++ rotation 4) process).

(** The process when the [select] has taken the second tick. *)
Definition ticked : World nat unit :=
  Eval vm_compute in default process (run [TimerFires; Select OnTick] after_first).

(** The first rotation as the specification has it: when one rotation has
    been made, nothing has been sent. *)
Definition first_rotation_silent (w0 : World nat unit) : Prop :=
  ∀ sched w pc,
    run sched w0 = Some w → closer w = Some pc → in_flush pc = false →
    rotations (trace w) = 1%nat → emitted (trace w) = [].

(** The count as the specification has it: one bucket fewer than
    rotations. *)
Definition one_bucket_fewer (w0 : World nat unit) : Prop :=
  ∀ sched w pc,
    run sched w0 = Some w → closer w = Some pc → in_flush pc = false →
    (2 ≤ rotations (trace w))%nat →
    length (emitted (trace w)) = (rotations (trace w) - 1)%nat.

(** The process when [flush] has run a second time, at time 4. *)
Definition flushed_again : World nat unit :=
  Eval vm_compute in
    match flush 4 4 after_first with
    | Returns w => w
    | _ => after_first
    end.

(** The drain slot as the specification has it: what a rotation sends was
    stamped before that rotation began. *)
Definition drain_holds_earlier_bucket (w0 : World nat unit) : Prop :=
  ∀ sched w pc t_new t_now w' p v,
    run sched w0 = Some w → closer w = Some pc → in_flush pc = false →
    flush t_new t_now w = Returns w' →
    In (p, v) (emitted (trace w')) → ¬ In p (map fst (emitted (trace w))) →
    In p (map fst (stamped (trace w))).

(** The first rotation when [flush] is about to send. *)
Definition before_send : World nat unit :=
  Eval vm_compute in default process (run (startup ++ rotation_to_send 2 2) process).

(** [bucketCloser] at its [select] when the host has closed the exit
    channel. *)
Definition exit_signalled : World nat unit :=
  Eval vm_compute in default process (run (startup ++ [HostExit]) process).

(** [Start] has returned and [bucketCloser] has not yet run its first
    statement, [c.exitGroup.Add(1)], when the host closes the exit channel
    and calls [exitGroup.Wait()]. *)
Definition released_early : World nat unit :=
  Eval vm_compute in default process (run [HostExit; HostWait] process).

(** The producer sends span 7 and closes the inbound channel; the ingestor
    receives the span; the host closes the exit channel and [bucketCloser]
    closes the outbound span channel; the ingestor then handles the span and
    sends it on. *)
Definition late_span : list (action nat) :=
  startup ++
  [HostSend 7%nat; HostCloseIn; RunIngestor; RunIngestor;
   HostExit; Select OnExit; RunCloser 0;
   RunIngestor; RunIngestor; RunIngestor; RunIngestor].

Definition after_late_span : World nat unit :=
  Eval vm_compute in default process (run late_span process).

(** Span 7 arrives as the first rotation begins, at time 2: the process
    when the ingestor has handled it. *)
Definition late_world : World nat unit :=
  Eval vm_compute in default process (run (late_handle 7%nat 2) process).

(** [bucketCloser] has called [Add(1)], and then the supervisor calls
    [exitGroup.Wait()]. *)
Definition added : World nat unit :=
  Eval vm_compute in default process (run [RunCloser 0] process).

Definition blocked : World nat unit :=
  Eval vm_compute in default process (run [RunCloser 0; HostWait] process).

(** A Concentrator with [bucketDuration = 0], and the process when its
    ingestor has handled and forwarded span 7. *)
Definition process_without_ticker : World nat unit := started 0 tt 0.

Definition one_span : list (action nat) :=
  startup ++ [HostSend 7%nat; RunIngestor; RunIngestor; RunIngestor; RunIngestor;
              RunIngestor; RunIngestor].

Definition without_ticker : World nat unit :=
  Eval vm_compute in
    default process_without_ticker (run one_span process_without_ticker).

(** [Start] without [Init]: the host closes the exit channel and the [select]
    of [bucketCloser] takes the exit case. *)
Definition to_the_close : list (action nat) := startup ++ [HostExit; Select OnExit].

Definition at_nil_close : World nat unit :=
  Eval vm_compute in
    default process (run to_the_close (started_without_Init 0 2 tt)).

(** The process after [NewConcentrator] and [Init], before [Start]. *)
Definition initialised : World nat unit :=
  Init (Some hostIn) (Some hostStats) (Some hostOut) (boot 2 tt).

(** The producer sends spans 7 and 8 and closes the inbound channel; the
    ingestor comes to the head of its loop. *)
Definition two_spans : list (action nat) :=
  [HostSend 7%nat; HostSend 8%nat; HostCloseIn; RunIngestor].

Definition closing : World nat unit :=
  Eval vm_compute in default process (run two_spans process).




End Example.

(** * Verification *)

(** [next_index] on the two indices the ring uses. *)
Lemma next_index_flip (c : Z) : c = 0 ∨ c = 1 → next_index c = 1 - c.
Proof. intros [-> | ->]; reflexivity. Qed.

Section Verification.
Variables Span Eps : Type.
Variable t0 : Z.

Local Abbreviation StatsBucket := (model.StatsBucket Span Eps).
Local Abbreviation event := (event Span Eps).
Local Abbreviation World := (World Span Eps).

(** ** Basic facts *)

Lemma rotation_log_index k c t (lg : list event) :
  rotation_log t0 k c t lg → c = 0 ∨ c = 1.
Proof. induction 1; lia. Qed.

Lemma slots_are_current c a b slots :
  slots_are c a b slots → array_get slots c = Returns a.
Proof. intros [[-> ->] | [-> ->]]; reflexivity. Qed.

Lemma slots_are_other c a b slots :
  slots_are c a b slots → array_get slots (1 - c) = Returns b.
Proof. intros [[-> ->] | [-> ->]]; reflexivity. Qed.

Lemma slots_are_flip c a b slots :
  slots_are c a b slots → slots_are (1 - c) b a slots.
Proof. intros [[-> ->] | [-> ->]]; [right | left]; done. Qed.

Lemma slots_are_set c a b b' slots :
  slots_are c a b slots →
  ∃ slots', array_set slots (1 - c) b' = Returns slots' ∧ slots_are c a b' slots'.
Proof.
  intros [[-> ->] | [-> ->]]; eexists; (split; [reflexivity |]); [left | right]; done.
Qed.

(** A slot that holds a bucket holds one after any store of a bucket. *)
Lemma array_set_keeps (slots slots' : array2 (option ptr)) i j q p :
  array_set slots j (Some q) = Returns slots' →
  array_get slots i = Returns (Some p) →
  ∃ p', array_get slots' i = Returns (Some p').
Proof.
  unfold array_set, array_get. intros Hset Hget.
  destruct slots as [s0 s1].
  repeat case_match; simplify_eq/=; eauto.
Qed.

(** The current slot always holds a bucket of the heap. *)
Lemma ring_inv_current pc c slots hp (lg : list event) :
  ring_inv t0 pc c slots hp lg →
  (c = 0 ∨ c = 1) ∧ ∃ p, array_get slots c = Returns (Some p) ∧ (p < length hp)%nat.
Proof.
  intros [pre k t d enc lg0 _ _ _ Hlog Hs Hlen _
         | ph k c0 t t' now dk enck d' enc' lg0 _ _ -> _ Hlog Hs Hlen _ _ _ _].
  - split; [by eapply rotation_log_index |].
    exists k. split; [by eapply slots_are_current | lia].
  - pose proof (rotation_log_index _ _ _ _ Hlog) as Hc.
    destruct (flipped ph).
    + split; [lia |]. exists (S k). split; [by eapply slots_are_other | lia].
    + split; [done |]. exists k. split; [by eapply slots_are_current | lia].
Qed.

Lemma started_Inv bd (e : Eps) : Inv t0 bd e (started (Span:=Span) bd e t0).
Proof.
  apply Inv_intro; simpl; try done.
  - eapply @ring_resting with (pre:=[]) (k:=0%nat); simpl; try done.
    + apply rotation_log_start.
    + by left.
  - by left.
Qed.

(** ** The ring along [bucketCloser] *)

Lemma resting_not_turning pc (pre : list event) ph :
  resting_prefix pc = Some pre → turning_phase pc = Some ph → False.
Proof. destruct pc; discriminate. Qed.

(** Outside a rotation the ring stays as it is, whatever is logged. *)
Lemma ring_inv_rest pc pc' pre pre' c slots hp (lg : list event) :
  resting_prefix pc = Some pre →
  resting_prefix pc' = Some (pre' ++ pre) →
  local_ok pc' c →
  ring_inv t0 pc c slots hp lg →
  ring_inv t0 pc' c slots hp (pre' ++ lg).
Proof.
  intros Hpre Hpre' Hloc
    [pre0 k t d enc lg0 Hp0 _ -> Hlog Hs Hlen Hk
    | ph k c0 t t' now dk enck d' enc' lg0 Hph].
  - simplify_eq. eapply ring_resting; eauto. by rewrite app_assoc.
  - destruct (resting_not_turning _ _ _ Hpre Hph).
Qed.

(** [c.openBucket[nextBucket] = model.NewStatsBucket(c.eps)] *)
Lemma ring_alloc nb c slots hp (lg : list event) t' d' enc' :
  ring_inv t0 (FAlloc nb) c slots hp lg →
  ∃ slots', array_set slots nb (Some (length hp)) = Returns slots' ∧
    ring_inv t0 (FStamp nb) c slots' (hp ++ [(t', d', enc')])
      (EvNew nb (length hp) t' :: lg).
Proof.
  intros [pre k t d enc lg0 Hp Hloc -> Hlog Hs Hlen Hk
         | ph k c0 t t1 now dk enck d0 enc0 lg0 Hph]; [| discriminate].
  simpl in *. simplify_eq.
  destruct (slots_are_set _ _ _ (Some (S k)) _ Hs) as (slots' & Hset & Hs').
  exists slots'. rewrite Hlen. split; [done |].
  eapply @ring_turning with (ph:=PhAllocated) (k:=k) (c0:=c) (t:=t) (t':=t')
    (now:=0) (dk:=d) (enck:=enc) (d':=d') (enc':=enc'); simpl; try done.
  - rewrite length_app. simpl. lia.
  - rewrite lookup_app_l; [done | lia].
  - rewrite lookup_app_r; [| lia]. by rewrite Hlen, Nat.sub_diag.
Qed.

(** [....Duration = model.Now() - ....Start] *)
Lemma ring_stamp nb c slots hp (lg : list event) now :
  ring_inv t0 (FStamp nb) c slots hp lg →
  ∃ k t dk enck,
    array_get slots c = Returns (Some k) ∧ hp !! k = Some (t, dk, enck) ∧
    ring_inv t0 (FFlip nb) c slots (<[k := (t, now - t, enck)]> hp)
      (EvStamp k now (now - t) :: lg).
Proof.
  intros [pre k t d enc lg0 Hp | ph k c0 t t' now0 dk enck d' enc' lg0
            Hph Hloc -> -> Hlog Hs Hlen Hk _ _ Hk']; [discriminate |].
  simpl in *. simplify_eq/=.
  exists k, t, dk, enck. split; [by eapply slots_are_current |]. split; [done |].
  eapply @ring_turning with (ph:=PhStamped) (k:=k) (c0:=c0) (t:=t) (t':=t')
    (now:=now) (dk:=now - t) (enck:=enck) (d':=d') (enc':=enc'); simpl; try done.
  - by rewrite length_insert.
  - rewrite list_lookup_insert_eq; [done | lia].
  - rewrite list_lookup_insert_ne; [done | lia].
Qed.

(** [c.currentBucket = nextBucket] *)
Lemma ring_flip nb c slots hp (lg : list event) :
  ring_inv t0 (FFlip nb) c slots hp lg →
  ring_inv t0 FDrain nb slots hp (EvFlip nb :: lg).
Proof.
  intros [pre k t d enc lg0 Hp | ph k c0 t t' now dk enck d' enc' lg0
            Hph Hloc -> -> Hlog Hs Hlen Hk Hdk Henc Hk']; [discriminate |].
  simpl in *. simplify_eq/=.
  eapply @ring_turning with (ph:=PhFlipped) (k:=k) (c0:=c0) (t:=t) (t':=t')
    (now:=now) (dk:=dk) (enck:=enck) (d':=d') (enc':=enc'); simpl; try done.
  intros _. by apply Hdk.
Qed.

(** [bucketToSend := (c.currentBucket + 1) % 2] is the index that was
    current when the rotation began. *)
Lemma ring_drain c slots hp (lg : list event) :
  ring_inv t0 FDrain c slots hp lg →
  ring_inv t0 (FCheck (next_index c)) c slots hp lg.
Proof.
  intros [pre k t d enc lg0 Hp | ph k c0 t t' now dk enck d' enc' lg0
            Hph Hloc -> -> Hlog Hs Hlen Hk Hdk Henc Hk']; [discriminate |].
  simpl in *. simplify_eq/=.
  pose proof (rotation_log_index _ _ _ _ Hlog) as Hc.
  eapply @ring_turning with (ph:=PhFlipped) (k:=k) (c0:=c0) (t:=t) (t':=t')
    (now:=now) (dk:=dk) (enck:=enck) (d':=d') (enc':=enc'); simpl; try done.
  rewrite next_index_flip; lia.
Qed.

(** [c.openBucket[bucketToSend] != nil] always holds. *)
Lemma ring_check b c slots hp (lg : list event) :
  ring_inv t0 (FCheck b) c slots hp lg →
  (∃ p, array_get slots b = Returns (Some p)) ∧ ring_inv t0 (FEncode b) c slots hp lg.
Proof.
  intros [pre k t d enc lg0 Hp | ph k c0 t t' now dk enck d' enc' lg0
            Hph Hloc -> -> Hlog Hs Hlen Hk Hdk Henc Hk']; [discriminate |].
  simpl in *. simplify_eq/=. split.
  - exists k. by eapply slots_are_current.
  - eapply @ring_turning with (ph:=PhFlipped) (k:=k) (c0:=c0) (t:=t) (t':=t')
      (now:=now) (dk:=dk) (enck:=enck) (d':=d') (enc':=enc'); simpl; try done.
Qed.

(** [c.openBucket[bucketToSend].Encode()] *)
Lemma ring_encode b c slots hp (lg : list event) :
  ring_inv t0 (FEncode b) c slots hp lg →
  ∃ k t dk enck,
    array_get slots b = Returns (Some k) ∧ hp !! k = Some (t, dk, enck) ∧
    ring_inv t0 (FSend b) c slots (<[k := (t, dk, true)]> hp) (EvEncode k :: lg).
Proof.
  intros [pre k t d enc lg0 Hp | ph k c0 t t' now dk enck d' enc' lg0
            Hph Hloc -> -> Hlog Hs Hlen Hk Hdk Henc Hk']; [discriminate |].
  simpl in *. simplify_eq/=.
  exists k, t, dk, enck. split; [by eapply slots_are_current |]. split; [done |].
  eapply @ring_turning with (ph:=PhEncoded) (k:=k) (c0:=c0) (t:=t) (t':=t')
    (now:=now) (dk:=dk) (enck:=true) (d':=d') (enc':=enc'); simpl; try done.
  - by rewrite length_insert.
  - rewrite list_lookup_insert_eq; [done | lia].
  - intros _. by apply Hdk.
  - rewrite list_lookup_insert_ne; [done | lia].
Qed.

(** [c.outStats <- *c.openBucket[bucketToSend]] ends the rotation. *)
Lemma ring_send b c slots hp (lg : list event) :
  ring_inv t0 (FSend b) c slots hp lg →
  ∃ k win,
    array_get slots b = Returns (Some k) ∧ hp !! k = Some win ∧
    ∀ v, window v = win → ring_inv t0 CSelect c slots hp (EvEmit k v :: lg).
Proof.
  intros [pre k t d enc lg0 Hp | ph k c0 t t' now dk enck d' enc' lg0
            Hph Hloc -> -> Hlog Hs Hlen Hk Hdk Henc Hk']; [discriminate |].
  simpl in *. simplify_eq/=.
  exists k, (t, dk, enck). split; [by eapply slots_are_current |]. split; [done |].
  intros v Hv.
  eapply @ring_resting with (pre:=[]) (k:=S k) (t:=t') (d:=d') (enc:=enc');
    simpl; try done.
  - eapply rotation_log_next; [done |].
    rewrite Hv, Hdk, Henc; done.
  - by apply slots_are_flip.
Qed.

(** ** Every step keeps the invariant *)

Lemma window_set_Duration (b : StatsBucket) t dk enck d :
  window b = (t, dk, enck) → window (model.set_Duration d b) = (t, d, enck).
Proof. unfold window. simpl. congruence. Qed.

Lemma window_Encode (b : StatsBucket) t dk enck :
  window b = (t, dk, enck) → window (model.Encode b) = (t, dk, true).
Proof. unfold window. simpl. congruence. Qed.

Lemma window_HandleSpan (s : Span) (b : StatsBucket) :
  window (model.HandleSpan s b) = window b.
Proof. reflexivity. Qed.

Lemma lookup_windows (hp : list StatsBucket) k win :
  (window <$> hp) !! k = Some win → ∃ b, hp !! k = Some b ∧ window b = win.
Proof.
  rewrite list_lookup_fmap. destruct (hp !! k) as [b |]; [| done].
  intros [= <-]. eauto.
Qed.

Lemma ingest_inv_store (ip : ipc Span) (slots slots' : array2 (option ptr)) j q n n' :
  array_set slots j (Some q) = Returns slots' → (n ≤ n')%nat →
  ingest_inv ip slots n → ingest_inv ip slots' n'.
Proof.
  intros Hset Hn. destruct ip; simpl; try done.
  - intros [p Hp]. by eapply array_set_keeps.
  - intros (p & -> & Hp). exists p. split; [done | lia].
Qed.

Lemma closer_step_Inv bd (e : Eps) now (w w' : World) :
  Inv t0 bd e w → step (RunCloser now) w = Some w' → Inv t0 bd e w'.
Proof.
  intros [slots c hp cin cout cs ce n tk ich ip cp wt cr tr Hcs Hring Hshut Hing Hcr] Hstep.
  destruct Hcr as [-> | ->]; [| discriminate].
  unfold step in Hstep; simpl in Hstep.
  destruct cp; simpl in Hstep; try discriminate.
  - (* CAdd *)
    destruct Hshut as [-> Hout]. simpl in Hstep. simplify_eq.
    apply Inv_intro; simpl; try done.
    + eapply ring_inv_rest with (pre':=[]); [| | | exact Hring]; done.
    + by left.
  - (* CTicker *)
    simplify_eq. apply Inv_intro; simpl; try done.
    + eapply ring_inv_rest with (pre':=[]); [| | | exact Hring]; done.
    + by left.
  - (* CClose *)
    destruct Hshut as [-> Hout]. rewrite Hout in Hstep. simpl in Hstep. simplify_eq.
    apply Inv_intro; simpl; try done.
    + eapply ring_inv_rest with (pre':=[EvClose SpanChan (Some hostOut)]);
        [| | | exact Hring]; done.
    + by left.
  - (* CDone *)
    destruct Hshut as [-> Hout]. simpl in Hstep. simplify_eq.
    apply Inv_intro; simpl; try done.
    + eapply ring_inv_rest with (pre':=[EvDone]); [| | | exact Hring]; done.
    + by left.
  - (* FNext *)
    simplify_eq. apply Inv_intro; simpl; try done.
    + destruct (ring_inv_current _ _ _ _ _ Hring) as [Hc _].
      eapply ring_inv_rest with (pre':=[]); [| | | exact Hring]; try done.
      simpl. by apply next_index_flip.
    + by left.
  - (* FAlloc *)
    destruct (ring_alloc _ _ _ _ _ now 0 false Hring) as (slots' & Hset & Hring').
    rewrite length_fmap in Hset, Hring'.
    unfold flush_alloc in Hstep. simpl in Hstep. rewrite Hset in Hstep.
    simpl in Hstep. simplify_eq.
    apply Inv_intro; simpl; try done.
    + by rewrite fmap_app.
    + eapply ingest_inv_store; [done | | done]. rewrite length_app. lia.
    + by left.
  - (* FStamp *)
    destruct (ring_stamp _ _ _ _ _ now Hring) as (k & t & dk & enck & Hget & Hk & Hring').
    apply lookup_windows in Hk as (b & Hb & Hwin).
    unfold flush_stamp in Hstep. simpl in Hstep. rewrite Hget in Hstep.
    simpl in Hstep. rewrite Hb in Hstep. simpl in Hstep. simplify_eq.
    apply Inv_intro; simpl; try done.
    + rewrite list_fmap_insert, (window_set_Duration _ _ _ _ _ Hwin).
      assert (model.Start b = t) as -> by (unfold window in Hwin; congruence).
      done.
    + by rewrite length_insert.
    + by left.
  - (* FFlip *)
    simplify_eq. apply Inv_intro; simpl; try done.
    + by eapply ring_flip.
    + by left.
  - (* FDrain *)
    simplify_eq. apply Inv_intro; simpl; try done.
    + by apply ring_drain.
    + by left.
  - (* FCheck *)
    destruct (ring_check _ _ _ _ _ Hring) as [[p Hget] Hring'].
    unfold flush_check in Hstep. simpl in Hstep. rewrite Hget in Hstep.
    simpl in Hstep. simplify_eq.
    apply Inv_intro; simpl; try done. by left.
  - (* FEncode *)
    destruct (ring_encode _ _ _ _ _ Hring) as (k & t & dk & enck & Hget & Hk & Hring').
    apply lookup_windows in Hk as (b & Hb & Hwin).
    unfold flush_encode in Hstep. simpl in Hstep. rewrite Hget in Hstep.
    simpl in Hstep. rewrite Hb in Hstep. simpl in Hstep. simplify_eq.
    apply Inv_intro; simpl; try done.
    + by rewrite list_fmap_insert, (window_Encode _ _ _ _ Hwin).
    + by rewrite length_insert.
    + by left.
  - (* FSend *)
    destruct (ring_send _ _ _ _ _ Hring) as (k & win & Hget & Hk & Hring').
    apply lookup_windows in Hk as (b & Hb & Hwin).
    unfold flush_send in Hstep. simpl in Hstep. rewrite Hget in Hstep.
    simpl in Hstep. rewrite Hb in Hstep. simpl in Hstep. rewrite Hcs in Hstep.
    simpl in Hstep. simplify_eq.
    apply Inv_intro; simpl; try done.
    + by apply Hring'.
    + by left.
Qed.

Lemma select_Inv bd (e : Eps) br (w w' : World) :
  Inv t0 bd e w → step (Select br) w = Some w' → Inv t0 bd e w'.
Proof.
  intros [slots c hp cin cout cs ce n tk ich ip cp wt cr tr Hcs Hring Hshut Hing Hcr] Hstep.
  destruct Hcr as [-> | ->]; [| discriminate].
  unfold step in Hstep; simpl in Hstep.
  destruct cp; simpl in Hstep; try discriminate.
  destruct br; simpl in Hstep.
  - (* case <-c.exit *)
    assert (∃ ce', Some w' = Some (set_closer (Some CClose) (log EvExit (set_exitChans [ce']
              (mkWorld (mkConcentrator (Some hostIn) (Some hostStats) (Some hostOut)
                 (Some hostExit) (Some hostGroup) bd e slots c)
                 hp [cin; cout] [cs] [ce] [n] tk (Some (ich, ip)) (Some CSelect) wt None tr)))))
      as [ce' Hw'].
    { destruct (queue ce); [destruct (closed ce) |]; simplify_eq/=; eauto. }
    clear Hstep. simplify_eq/=.
    apply Inv_intro; simpl; try done.
    + eapply ring_inv_rest with (pre':=[EvExit]); [| | | exact Hring]; done.
    + by left.
  - (* case <-ticker *)
    destruct tk as [[|] |]; simplify_eq/=.
    apply Inv_intro; simpl; try done.
    + eapply ring_inv_rest with (pre':=[EvTick]); [| | | exact Hring]; done.
    + by left.
Qed.

(** Every bucket in the ring is in the heap. *)
Lemma ring_inv_valid pc c slots hp (lg : list event) i p :
  ring_inv t0 pc c slots hp lg →
  array_get slots i = Returns (Some p) → (p < length hp)%nat.
Proof.
  intros [pre k t d enc lg0 _ _ _ _ Hs Hlen _
         | ph k c0 t t' now dk enck d' enc' lg0 _ _ _ _ _ Hs Hlen _ _ _ _] Hget;
    unfold array_get in Hget;
    destruct Hs as [[-> ->] | [-> ->]]; repeat case_match; simplify_eq/=;
    try lia; destruct k; simplify_eq/=; lia.
Qed.

(** Receiving leaves the closed flags as they are. *)
Lemma chan_recv_two {A : Type} h (cin cout : Chan A) x st :
  chan_recv h [cin; cout] = Returns (x, st) →
  ∃ cin' cout', st = [cin'; cout'] ∧ closed cout' = closed cout.
Proof.
  unfold chan_recv. intros Hrecv.
  destruct h as [[| [| i]] |]; simpl in Hrecv; try discriminate;
    repeat case_match; simplify_eq/=; eauto.
Qed.

Lemma chan_recv_no_panic {A : Type} h (st : list (Chan A)) r :
  chan_recv h st ≠ Panics r.
Proof. unfold chan_recv. repeat case_match; done. Qed.

Lemma ingestor_step_Inv bd (e : Eps) (w w' : World) :
  Inv t0 bd e w → step RunIngestor w = Some w' → Inv t0 bd e w'.
Proof.
  intros [slots c hp cin cout cs ce n tk ich ip cp wt cr tr Hcs Hring Hshut Hing Hcr] Hstep.
  destruct Hcr as [-> | ->]; [| discriminate].
  unfold step in Hstep; simpl in Hstep.
  destruct ip; simpl in Hstep; try discriminate.
  - (* IRange *)
    simplify_eq. apply Inv_intro; simpl; try done. by left.
  - (* IRecv *)
    destruct (chan_recv ich [cin; cout]) as [[x st] | r |] eqn:Hrecv;
      simpl in Hstep; [| by destruct (chan_recv_no_panic _ _ _ Hrecv) | done].
    apply chan_recv_two in Hrecv as (cin' & cout' & -> & Hcl).
    destruct x; simplify_eq/=; apply Inv_intro; simpl; try done;
      try (by left); by rewrite ?Hcl.
  - (* IIndex *)
    simplify_eq. apply Inv_intro; simpl; try done; [| by left].
    destruct (ring_inv_current _ _ _ _ _ Hring) as [_ (p & Hp & _)]. eauto.
  - (* ILoad *)
    destruct Hing as [p Hp]. rewrite Hp in Hstep. simpl in Hstep. simplify_eq.
    apply Inv_intro; simpl; try done; [| by left].
    exists p. split; [done |].
    pose proof (ring_inv_valid _ _ _ _ _ _ _ Hring Hp) as Hlt.
    by rewrite length_fmap in Hlt.
  - (* ICall *)
    destruct Hing as (p & -> & Hp).
    destruct (lookup_lt_is_Some_2 hp p Hp) as [bk Hbk].
    unfold bucket_call in Hstep. simpl in Hstep. rewrite Hbk in Hstep.
    simpl in Hstep. simplify_eq.
    apply Inv_intro; simpl; try done; [| by left].
    rewrite list_fmap_insert, window_HandleSpan, list_insert_id; [done |].
    by rewrite list_lookup_fmap, Hbk.
  - (* ISend *)
    destruct (closed cout) eqn:Hout; simpl in Hstep; simplify_eq.
    + apply Inv_intro; simpl; try done; [by rewrite Hout | by right].
    + apply Inv_intro; simpl; try done. by left.
Qed.

Lemma host_step_Inv bd (e : Eps) a (w w' : World) :
  match a with RunIngestor | RunCloser _ | Select _ => False | _ => True end →
  Inv t0 bd e w → step a w = Some w' → Inv t0 bd e w'.
Proof.
  intros Ha [slots c hp cin cout cs ce n tk ich ip cp wt cr tr Hcs Hring Hshut Hing Hcr] Hstep.
  destruct Hcr as [-> | ->]; [| discriminate].
  unfold step in Hstep; simpl in Hstep.
  destruct a; try done; simpl in Hstep.
  - (* TimerFires *)
    destruct tk; simplify_eq. apply Inv_intro; simpl; try done. by left.
  - (* HostSend *)
    destruct (closed cin); simplify_eq/=. apply Inv_intro; simpl; try done. by left.
  - (* HostCloseIn *)
    destruct (closed cin); simplify_eq/=. apply Inv_intro; simpl; try done. by left.
  - (* HostExit *)
    destruct (closed ce); simplify_eq/=. apply Inv_intro; simpl; try done. by left.
  - (* HostWait *)
    destruct wt; try done; destruct (n =? 0); simplify_eq/=;
      apply Inv_intro; simpl; try done; by left.
  - (* HostRecvSpan *)
    destruct (queue cout); [destruct (closed cout) eqn:Hout |]; simplify_eq/=;
      apply Inv_intro; simpl; rewrite ?Hout; try done; by left.
  - (* HostRecvStats *)
    destruct (queue cs); [destruct (closed cs) eqn:Hout |]; simplify_eq/=;
      apply Inv_intro; simpl; rewrite ?Hout; try done; by left.
Qed.

Lemma step_Inv bd (e : Eps) a (w w' : World) :
  Inv t0 bd e w → step a w = Some w' → Inv t0 bd e w'.
Proof.
  destruct a; eauto using ingestor_step_Inv, closer_step_Inv, select_Inv;
    by apply host_step_Inv.
Qed.

Lemma run_Inv bd (e : Eps) sched (w w' : World) :
  Inv t0 bd e w → run sched w = Some w' → Inv t0 bd e w'.
Proof.
  revert w. induction sched as [| a sched IH]; intros w Hw Hrun; simpl in Hrun.
  - by simplify_eq.
  - destruct (step a w) as [w1 |] eqn:Hstep; [| done].
    eapply IH; [| done]. by eapply step_Inv.
Qed.

(** The invariant holds in every state the process can reach. *)
Lemma reachable_Inv bd (e : Eps) sched (w : World) :
  run sched (started bd e t0) = Some w → Inv t0 bd e w.
Proof. apply run_Inv, started_Inv. Qed.

(** ** Reading the history *)

Local Ltac by_events l :=
  let IH := fresh "IH" in
  induction l as [| [] l IH]; simpl; rewrite ?IH; done.

Lemma emitted_app (l1 l2 : list event) : emitted (l1 ++ l2) = emitted l1 ++ emitted l2.
Proof. by_events l1. Qed.
Lemma stamped_app (l1 l2 : list event) : stamped (l1 ++ l2) = stamped l1 ++ stamped l2.
Proof. by_events l1. Qed.
Lemma allocated_app (l1 l2 : list event) :
  allocated (l1 ++ l2) = allocated l1 ++ allocated l2.
Proof. by_events l1. Qed.
Lemma rotations_app (l1 l2 : list event) :
  rotations (l1 ++ l2) = (rotations l1 + rotations l2)%nat.
Proof. by_events l1. Qed.
Lemma closes_app (l1 l2 : list event) : closes (l1 ++ l2) = closes l1 ++ closes l2.
Proof. by_events l1. Qed.

(** The readings only look at events of [bucketCloser]. *)
Lemma emitted_closer_events (tr : list event) : emitted (closer_events tr) = emitted tr.
Proof. by_events tr. Qed.
Lemma stamped_closer_events (tr : list event) : stamped (closer_events tr) = stamped tr.
Proof. by_events tr. Qed.
Lemma allocated_closer_events (tr : list event) :
  allocated (closer_events tr) = allocated tr.
Proof. by_events tr. Qed.
Lemma rotations_closer_events (tr : list event) :
  rotations (closer_events tr) = rotations tr.
Proof. by_events tr. Qed.
Lemma closes_closer_events (tr : list event) : closes (closer_events tr) = closes tr.
Proof. by_events tr. Qed.

Lemma In_closer_events (e : event) (tr : list event) :
  closer_event e = true → (In e (closer_events tr) ↔ In e tr).
Proof. intros He. unfold closer_events. rewrite filter_In. tauto. Qed.

Lemma In_emitted p v (tr : list event) : In (p, v) (emitted tr) ↔ In (EvEmit p v) tr.
Proof.
  induction tr as [| [] tr IH]; simpl; rewrite ?IH;
    try (split; [tauto | intros [[=] |]; tauto]); [tauto |].
  split; intros [[=] |]; subst; tauto.
Qed.

(** What [k] whole rotations leave in the log, read in the order of time:
    rotation [i + 1] sends bucket [i], which [Start] or rotation [i]
    allocated and which rotation [i + 1] itself stamped. *)
Lemma rotation_log_history k c t (lg : list event) :
  rotation_log t0 k c t lg →
  rotations lg = k ∧ closes lg = [] ∧
  length (emitted lg) = k ∧ length (stamped lg) = k ∧ length (allocated lg) = S k ∧
  rev (allocated lg) !! k = Some (k, t) ∧
  ∀ i, (i < k)%nat →
    ∃ v now ti,
      rev (emitted lg) !! i = Some (i, v) ∧
      rev (stamped lg) !! i = Some (i, now) ∧
      rev (allocated lg) !! i = Some (i, ti) ∧
      window v = (ti, now - ti, true).
Proof.
  induction 1 as [| k c t lg t' now v Hlog IH Hv]; simpl.
  - repeat split; try done. intros i Hi. lia.
  - destruct IH as (Hrot & Hcl & Hem & Hst & Hal & Hcur & IH).
    rewrite Hrot, Hcl, Hem, Hst, Hal. repeat split; try done.
    + rewrite lookup_app_r; rewrite length_rev, Hal; [| lia].
      by rewrite Nat.sub_diag.
    + intros i Hi. destruct (decide (i = k)) as [-> | Hne].
      * exists v, now, t. repeat split; [| | | done].
        -- rewrite lookup_app_r; rewrite length_rev, Hem; [| lia].
           by rewrite Nat.sub_diag.
        -- rewrite lookup_app_r; rewrite length_rev, Hst; [| lia].
           by rewrite Nat.sub_diag.
        -- rewrite lookup_app_l; [done |]. rewrite length_rev, Hal. lia.
      * destruct (IH i) as (v' & now' & ti & H1 & H2 & H3 & H4); [lia |].
        exists v', now', ti. repeat split; [| | | done].
        -- rewrite lookup_app_l; [done |]. rewrite length_rev, Hem. lia.
        -- rewrite lookup_app_l; [done |]. rewrite length_rev, Hst. lia.
        -- rewrite lookup_app_l; [done |]. rewrite length_rev, Hal. lia.
Qed.

(** Whole rotations have sent buckets [0] to [k - 1], each once. *)
Lemma rotation_log_emitted k c t (lg : list event) :
  rotation_log t0 k c t lg → map fst (emitted lg) = rev (seq 0 k).
Proof.
  induction 1 as [| k c t lg t' now v Hlog IH Hv]; [done |].
  rewrite seq_S, rev_app_distr. simpl. by rewrite IH.
Qed.

Lemma rotation_log_emit_lt k c t (lg : list event) p v :
  rotation_log t0 k c t lg → In (EvEmit p v) lg → (p < k)%nat.
Proof.
  intros Hlog Hin. apply In_emitted in Hin.
  apply (in_map fst) in Hin. rewrite (rotation_log_emitted _ _ _ _ Hlog) in Hin.
  apply in_rev, in_seq in Hin. simpl in Hin. lia.
Qed.

(** ** The process between rotations *)

Lemma resting_prefix_quiet pc (pre : list event) :
  resting_prefix pc = Some pre → in_flush pc = false →
  emitted pre = [] ∧ stamped pre = [] ∧ allocated pre = [] ∧ rotations pre = 0%nat.
Proof. destruct pc; intros [= <-] Hf; done. Qed.

Lemma Inv_resting bd (e : Eps) (w : World) pc :
  Inv t0 bd e w → closer w = Some pc → in_flush pc = false →
  ∃ pre k t lg0 b,
    resting_prefix pc = Some pre ∧
    closer_events (trace w) = pre ++ lg0 ∧
    rotation_log t0 k (currentBucket (conc w)) t lg0 ∧
    slots_are (currentBucket (conc w)) (Some k) (prev_bucket k) (openBucket (conc w)) ∧
    length (heap w) = S k ∧ heap w !! k = Some b ∧ model.Start b = t.
Proof.
  intros [slots c hp cin cout cs ce n tk ich ip cp wt cr tr Hcs Hring Hshut Hing Hcr]
    [= ->] Hf. simpl.
  destruct Hring as [pre k t d enc lg0 Hpre _ Hlg Hlog Hs Hlen Hk
                    | ph k c0 t t' now dk enck d' enc' lg0 Hph];
    [| by destruct pc].
  apply lookup_windows in Hk as (b & Hb & Hwin).
  rewrite length_fmap in Hlen.
  exists pre, k, t, lg0, b. repeat split; try done.
  unfold window in Hwin. congruence.
Qed.

(** C2 (as amended).  In every execution, once the rotations begun are done,
    as many buckets were sent as there were rotations.  Counting from 0 in
    the order of time, the [i]-th bucket sent is bucket [i]: the [i]-th
    allocated (by [Start] for [i = 0], else by rotation [i]) and the [i]-th
    stamped (by rotation [i + 1], which also sent it).  The copy sent is
    encoded and carries the [Start] of its allocation and the [Duration]
    [now - Start] of its stamping. *)
Theorem one_bucket_per_rotation bd (e : Eps) sched (w : World) pc :
  run sched (started bd e t0) = Some w →
  closer w = Some pc → in_flush pc = false →
  length (emitted (trace w)) = rotations (trace w) ∧
  ∀ i, (i < rotations (trace w))%nat →
    ∃ v now ti,
      rev (emitted (trace w)) !! i = Some (i, v) ∧
      rev (stamped (trace w)) !! i = Some (i, now) ∧
      rev (allocated (trace w)) !! i = Some (i, ti) ∧
      model.Start v = ti ∧ model.Duration v = now - ti ∧ model.Encoded v = true.
Proof.
  intros Hrun Hpc Hf.
  destruct (Inv_resting _ _ _ _ (reachable_Inv _ _ _ _ Hrun) Hpc Hf)
    as (pre & k & t & lg0 & b & Hpre & Hlg & Hlog & _).
  destruct (resting_prefix_quiet _ _ Hpre Hf) as (He & Hs & Ha & Hr).
  destruct (rotation_log_history _ _ _ _ Hlog) as (Hrot & _ & Hem & _ & _ & _ & Hall).
  rewrite <- (emitted_closer_events (trace w)), <- (stamped_closer_events (trace w)),
    <- (allocated_closer_events (trace w)), <- (rotations_closer_events (trace w)), Hlg.
  rewrite emitted_app, stamped_app, allocated_app, rotations_app, He, Hs, Ha, Hr, Hrot.
  simpl. split; [done |].
  intros i Hi. destruct (Hall i Hi) as (v & now & ti & H1 & H2 & H3 & H4).
  exists v, now, ti. unfold window in H4. simplify_eq. done.
Qed.

(** The nil check of [flush] never fails: no rotation skips its emission. *)
Lemma rotation_log_no_skip k c t (lg : list event) slot :
  rotation_log t0 k c t lg → ¬ In (EvSkip slot) lg.
Proof.
  induction 1 as [| k c t lg t' now v Hlog IH Hv]; simpl; [by intros [|] |].
  intros [| [| [| [| [| [|]]]]]]; done.
Qed.

Lemma Inv_no_skip bd (e : Eps) (w : World) slot :
  Inv t0 bd e w → ¬ In (EvSkip slot) (trace w).
Proof.
  intros [slots c hp cin cout cs ce n tk ich ip cp wt cr tr Hcs Hring Hshut Hing Hcr].
  simpl. rewrite <- (In_closer_events (EvSkip slot) tr) by done.
  destruct Hring as [pre k t d enc lg0 Hpre _ -> Hlog _ _ _
                    | ph k c0 t t' now dk enck d' enc' lg0 Hph _ _ -> Hlog _ _ _ _ _ _];
    rewrite in_app_iff; intros [Hin | Hin];
    try (by eapply rotation_log_no_skip).
  - destruct cp; simplify_eq/=; intuition congruence.
  - destruct ph; simpl in Hin; intuition congruence.
Qed.

(** C1 (as amended).  The first rotation after [Start] finds bucket 0, the
    bucket [Start] allocated, in the drain slot: it has just stamped it.
    That bucket is encoded and sent, with [Start] as [Start()] set it and
    the [Duration] stamped; and no rotation ever skips its emission. *)
Theorem first_rotation_emits bd (e : Eps) sched (w : World) pc :
  run sched (started bd e t0) = Some w →
  closer w = Some pc → in_flush pc = false →
  rotations (trace w) = 1%nat →
  (∀ slot, ¬ In (EvSkip slot) (trace w)) ∧
  ∃ v now t1,
    emitted (trace w) = [(0%nat, v)] ∧
    stamped (trace w) = [(0%nat, now)] ∧
    allocated (trace w) = [(1%nat, t1); (0%nat, t0)] ∧
    model.Start v = t0 ∧ model.Duration v = now - t0 ∧ model.Encoded v = true.
Proof.
  intros Hrun Hpc Hf Hone.
  pose proof (reachable_Inv _ _ _ _ Hrun) as HI.
  split; [intros slot; by apply (Inv_no_skip _ _ _ _ HI) |].
  destruct (Inv_resting _ _ _ _ HI Hpc Hf)
    as (pre & k & t & lg0 & b & Hpre & Hlg & Hlog & _).
  destruct (resting_prefix_quiet _ _ Hpre Hf) as (He & Hs & Ha & Hr).
  destruct (rotation_log_history _ _ _ _ Hlog) as (Hrot & _).
  rewrite <- (emitted_closer_events (trace w)), <- (stamped_closer_events (trace w)),
    <- (allocated_closer_events (trace w)), Hlg.
  rewrite <- (rotations_closer_events (trace w)), Hlg, rotations_app, Hr, Hrot in Hone.
  simpl in Hone. subst k.
  rewrite emitted_app, stamped_app, allocated_app, He, Hs, Ha. simpl.
  inversion Hlog as [| k c t1 lg t' now v Hlog0 Hv]; subst.
  inversion Hlog0; subst. simpl.
  exists v, now, t. unfold window in Hv. simplify_eq. done.
Qed.

(** ** [flush], statement by statement, on any process *)

Lemma flush_alloc_returns now nb (w : World) a :
  array_set (openBucket (conc w)) nb (Some (length (heap w))) = Returns a →
  ∃ w1, flush_alloc now nb w = Returns w1 ∧
    conc w1 = set_openBucket a (conc w) ∧
    heap w1 = heap w ++ [model.NewStatsBucket (eps (conc w)) now] ∧
    statsChans w1 = statsChans w ∧
    trace w1 = EvNew nb (length (heap w)) now :: trace w.
Proof.
  intros Hset. unfold flush_alloc. rewrite Hset. eexists. split; [reflexivity |]. done.
Qed.

Lemma flush_stamp_returns now (w : World) p b :
  array_get (openBucket (conc w)) (currentBucket (conc w)) = Returns (Some p) →
  heap w !! p = Some b →
  ∃ w1, flush_stamp now w = Returns w1 ∧
    conc w1 = conc w ∧
    heap w1 = <[p := model.set_Duration (now - model.Start b) b]> (heap w) ∧
    statsChans w1 = statsChans w ∧
    trace w1 = EvStamp p now (now - model.Start b) :: trace w.
Proof.
  intros Hget Hb. unfold flush_stamp, deref. rewrite Hget. simpl. rewrite Hb.
  eexists. split; [reflexivity |]. done.
Qed.

Lemma flush_check_returns bts (w : World) p :
  array_get (openBucket (conc w)) bts = Returns (Some p) →
  flush_check bts w = Returns true.
Proof. intros Hget. unfold flush_check. by rewrite Hget. Qed.

Lemma flush_encode_returns bts (w : World) p b :
  array_get (openBucket (conc w)) bts = Returns (Some p) →
  heap w !! p = Some b →
  ∃ w1, flush_encode bts w = Returns w1 ∧
    conc w1 = conc w ∧
    heap w1 = <[p := model.Encode b]> (heap w) ∧
    statsChans w1 = statsChans w ∧
    trace w1 = EvEncode p :: trace w.
Proof.
  intros Hget Hb. unfold flush_encode, deref. rewrite Hget. simpl. rewrite Hb.
  eexists. split; [reflexivity |]. done.
Qed.

Lemma flush_send_returns bts (w : World) p b ch :
  array_get (openBucket (conc w)) bts = Returns (Some p) →
  heap w !! p = Some b →
  outStats (conc w) = Some hostStats → statsChans w = [ch] → closed ch = false →
  ∃ w1, flush_send bts w = Returns w1 ∧
    conc w1 = conc w ∧ heap w1 = heap w ∧
    statsChans w1 = [mkChan (queue ch ++ [b]) false] ∧
    trace w1 = EvEmit p b :: trace w.
Proof.
  intros Hget Hb Hout Hst Hcl. unfold flush_send, deref, chan_send.
  rewrite Hget. simpl. rewrite Hb. simpl. rewrite Hout, Hst. simpl. rewrite Hcl.
  eexists. split; [reflexivity |]. done.
Qed.

(** What the invariant says of a process between rotations, field by
    field. *)
Lemma Inv_channels bd (e : Eps) (w : World) :
  Inv t0 bd e w →
  outStats (conc w) = Some hostStats ∧ outSpans (conc w) = Some hostOut ∧
  inSpans (conc w) = Some hostIn ∧ exit (conc w) = Some hostExit ∧
  exitGroup (conc w) = Some hostGroup ∧
  ∃ ch, statsChans w = [ch] ∧ closed ch = false.
Proof. intros []. simpl. repeat split; eauto. Qed.

(** C3 (as amended).  Between rotations, in every execution, [flush]
    returns, and it has done this, in order: allocated a fresh bucket [q]
    into slot [(current + 1) mod 2]; stamped the current bucket [p] with
    [Duration = now - Start]; flipped the current index to the new slot;
    and found in the other slot bucket [p] itself, the bucket it has just
    stamped, which it encoded and sent on the stats channel.  The other slot
    is never empty. *)
Theorem flush_order bd (e : Eps) sched (w : World) pc t_new t_now :
  run sched (started bd e t0) = Some w →
  closer w = Some pc → in_flush pc = false →
  ∃ p b w',
    current_target w = Some p ∧ heap w !! p = Some b ∧
    flush t_new t_now w = Returns w' ∧
    let c := currentBucket (conc w) in
    let next := (c + 1) mod 2 in
    let q := length (heap w) in
    let d := t_now - model.Start b in
    let v := model.Encode (model.set_Duration d b) in
    trace w' =
      [EvEmit p v; EvEncode p; EvFlip next; EvStamp p t_now d; EvNew next q t_new]
        ++ trace w ∧
    heap w' = <[p := v]> (heap w ++ [model.NewStatsBucket (eps (conc w)) t_new]) ∧
    currentBucket (conc w') = next ∧
    array_get (openBucket (conc w')) next = Returns (Some q) ∧
    array_get (openBucket (conc w')) c = Returns (Some p) ∧
    ∃ ch, statsChans w = [ch] ∧ statsChans w' = [mkChan (queue ch ++ [v]) false].
Proof.
  intros Hrun Hpc Hf.
  pose proof (reachable_Inv _ _ _ _ Hrun) as HI.
  destruct (Inv_resting _ _ _ _ HI Hpc Hf)
    as (pre & k & t & lg0 & b & _ & _ & Hlog & Hs & Hlen & Hb & _).
  destruct (Inv_channels _ _ _ HI) as (Hout & _ & _ & _ & _ & ch & Hst & Hcl).
  pose proof (rotation_log_index _ _ _ _ Hlog) as Hc.
  set (c := currentBucket (conc w)) in *.
  assert (next_index c = 1 - c) as Hnext by (by apply next_index_flip).
  assert ((c + 1) mod 2 = 1 - c) as Hmod by (by destruct Hc as [-> | ->]).
  exists k, b.
  (* allocate *)
  destruct (slots_are_set _ _ _ (Some (S k)) _ Hs) as (slots1 & Hset & Hs1).
  rewrite <- Hlen in Hset.
  destruct (flush_alloc_returns t_new (1 - c) w slots1 Hset)
    as (w1 & Hw1 & Hc1 & Hh1 & Hst1 & Htr1).
  (* stamp *)
  assert (array_get (openBucket (conc w1)) (currentBucket (conc w1)) = Returns (Some k))
    as Hget1 by (rewrite Hc1; simpl; by eapply slots_are_current).
  assert (heap w1 !! k = Some b) as Hb1.
  { rewrite Hh1, lookup_app_l; [done | lia]. }
  destruct (flush_stamp_returns t_now w1 k b Hget1 Hb1)
    as (w2 & Hw2 & Hc2 & Hh2 & Hst2 & Htr2).
  (* flip, and the drain slot *)
  set (w3 := flush_flip (1 - c) w2).
  assert (currentBucket (conc w3) = 1 - c) as Hcur3 by done.
  assert (openBucket (conc w3) = slots1) as Hsl3.
  { unfold w3. simpl. by rewrite Hc2, Hc1. }
  assert (next_index (1 - c) = c) as Hnext3.
  { destruct Hc as [Hc | Hc]; rewrite Hc; reflexivity. }
  assert (array_get (openBucket (conc w3)) c = Returns (Some k)) as Hget3.
  { rewrite Hsl3. by eapply slots_are_current. }
  assert (heap w3 !! k = Some (model.set_Duration (t_now - model.Start b) b)) as Hb3.
  { unfold w3. simpl. rewrite Hh2, list_lookup_insert_eq; [done |].
    rewrite Hh1, length_app. simpl. lia. }
  (* encode *)
  destruct (flush_encode_returns c w3 k _ Hget3 Hb3)
    as (w4 & Hw4 & Hc4 & Hh4 & Hst4 & Htr4).
  (* send *)
  assert (array_get (openBucket (conc w4)) c = Returns (Some k)) as Hget4
    by (by rewrite Hc4).
  assert (heap w4 !! k
          = Some (model.Encode (model.set_Duration (t_now - model.Start b) b))) as Hb4.
  { rewrite Hh4, list_lookup_insert_eq; [done |]. by eapply lookup_lt_Some. }
  assert (outStats (conc w4) = Some hostStats) as Hout4.
  { rewrite Hc4. unfold w3. simpl. by rewrite Hc2, Hc1. }
  assert (statsChans w4 = [ch]) as Hst4'.
  { rewrite Hst4. unfold w3. simpl. by rewrite Hst2, Hst1. }
  destruct (flush_send_returns c w4 k _ ch Hget4 Hb4 Hout4 Hst4' Hcl)
    as (w5 & Hw5 & Hc5 & Hh5 & Hst5 & Htr5).
  exists w5.
  split. { unfold current_target. fold c. by erewrite slots_are_current. }
  split; [done |].
  split.
  { unfold flush. fold c. rewrite Hnext, Hw1. simpl. rewrite Hw2. simpl.
    fold w3. rewrite Hnext3, (flush_check_returns c w3 k Hget3). simpl.
    rewrite Hw4. simpl. exact Hw5. }
  simpl. rewrite Hmod.
  split.
  { rewrite Htr5, Htr4. unfold w3. simpl. by rewrite Htr2, Htr1. }
  split.
  { rewrite Hh5, Hh4. unfold w3. simpl. rewrite Hh2, Hh1.
    by rewrite list_insert_insert_eq. }
  split. { by rewrite Hc5, Hc4. }
  split. { rewrite Hc5, Hc4, Hsl3, Hlen. by eapply slots_are_other. }
  split. { by rewrite Hc5, Hc4. }
  exists ch. by rewrite Hst5.
Qed.

(** ** Who logs what *)

Lemma bucket_call_trace s b (w w1 : World) :
  bucket_call s b w = Returns w1 → ∃ p, trace w1 = EvHandle p s :: trace w.
Proof.
  unfold bucket_call. destruct (deref b (heap w)) as [[p bk] | |]; simpl; [| done..].
  intros [= <-]. eauto.
Qed.

Lemma flush_alloc_trace now nb (w w1 : World) :
  flush_alloc now nb w = Returns w1 → ∃ p, trace w1 = EvNew nb p now :: trace w.
Proof.
  unfold flush_alloc. destruct (array_set _ _ _); simpl; [| done..].
  intros [= <-]. eauto.
Qed.

Lemma flush_stamp_trace now (w w1 : World) :
  flush_stamp now w = Returns w1 → ∃ p d, trace w1 = EvStamp p now d :: trace w.
Proof.
  unfold flush_stamp. destruct (array_get _ _) as [slot | |]; simpl; [| done..].
  destruct (deref slot (heap w)) as [[p bk] | |]; simpl; [| done..].
  intros [= <-]. eauto.
Qed.

Lemma flush_encode_trace bts (w w1 : World) :
  flush_encode bts w = Returns w1 → ∃ p, trace w1 = EvEncode p :: trace w.
Proof.
  unfold flush_encode. destruct (array_get _ _) as [slot | |]; simpl; [| done..].
  destruct (deref slot (heap w)) as [[p bk] | |]; simpl; [| done..].
  intros [= <-]. eauto.
Qed.

Lemma flush_send_trace bts (w w1 : World) :
  flush_send bts w = Returns w1 → ∃ p b, trace w1 = EvEmit p b :: trace w.
Proof.
  unfold flush_send. destruct (array_get _ _) as [slot | |]; simpl; [| done..].
  destruct (deref slot (heap w)) as [[p bk] | |]; simpl; [| done..].
  destruct (chan_send _ _ _); simpl; [| done..].
  intros [= <-]. eauto.
Qed.

Lemma ingestor_step_logs ch ip (w : World) ch' ip' w1 :
  ingestor_step ch ip w = Returns (ch', ip', w1) →
  trace w1 = trace w ∨ ∃ e, trace w1 = e :: trace w ∧ may_log RunIngestor (closer w) e.
Proof.
  destruct ip; simpl.
  - intros [= <- <- <-]. by left.
  - destruct (chan_recv ch (spanChans w)) as [[[s |] st] | |]; simpl; try done;
      intros [= <- <- <-]; right; eexists; (split; [reflexivity | done]).
  - intros [= <- <- <-]. by left.
  - destruct (array_get _ _); simpl; [| done..]. intros [= <- <- <-]. by left.
  - destruct (bucket_call s b w) as [w2 | |] eqn:Hcall; simpl; [| done..].
    intros [= <- <- <-]. apply bucket_call_trace in Hcall as [p Hp].
    right. eexists. split; [exact Hp | done].
  - destruct (chan_send _ _ _); simpl; [| done..].
    intros [= <- <- <-]. right. eexists. split; [reflexivity | done].
  - done.
Qed.

Lemma closer_step_logs now cp (w : World) cp' w1 :
  closer w = Some cp →
  closer_step now cp w = Returns (cp', w1) →
  trace w1 = trace w ∨ ∃ e, trace w1 = e :: trace w ∧ may_log (RunCloser now) (closer w) e.
Proof.
  intros ->. destruct cp; simpl; try done.
  - destruct (wg_add _ _ _); simpl; [| done..].
    intros [= <- <-]. right. eexists. split; [reflexivity | done].
  - intros [= <- <-]. by left.
  - destruct (chan_close _ _); simpl; [| done..].
    intros [= <- <-]. right. eexists. split; [reflexivity | done].
  - destruct (wg_add _ _ _); simpl; [| done..].
    intros [= <- <-]. right. eexists. split; [reflexivity | done].
  - intros [= <- <-]. by left.
  - destruct (flush_alloc _ _ _) as [w2 | |] eqn:H2; simpl; [| done..].
    intros [= <- <-]. apply flush_alloc_trace in H2 as [p Hp].
    right. eexists. split; [exact Hp | simpl; eauto].
  - destruct (flush_stamp _ _) as [w2 | |] eqn:H2; simpl; [| done..].
    intros [= <- <-]. apply flush_stamp_trace in H2 as (p & d & Hp).
    right. eexists. split; [exact Hp | simpl; eauto].
  - intros [= <- <-]. right. eexists. split; [reflexivity | simpl; eauto].
  - intros [= <- <-]. by left.
  - destruct (flush_check _ _) as [[|] | |]; simpl; try done;
      intros [= <- <-]; [by left |].
    right. eexists. split; [reflexivity | simpl; eauto].
  - destruct (flush_encode _ _) as [w2 | |] eqn:H2; simpl; [| done..].
    intros [= <- <-]. apply flush_encode_trace in H2 as [p Hp].
    right. eexists. split; [exact Hp | simpl; eauto].
  - destruct (flush_send _ _) as [w2 | |] eqn:H2; simpl; [| done..].
    intros [= <- <-]. apply flush_send_trace in H2 as (p & b & Hp).
    right. eexists. split; [exact Hp | simpl; eauto].
Qed.

Lemma closer_select_logs br (w : World) cp' w1 :
  closer w = Some CSelect →
  closer_select br w = Returns (cp', w1) →
  ∃ e, trace w1 = e :: trace w ∧ may_log (Select br) (closer w) e.
Proof.
  intros ->. destruct br; simpl.
  - destruct (chan_recv _ _) as [[x st] | |]; simpl; [| done..].
    intros [= <- <-]. eexists. split; [reflexivity | done].
  - destruct (ticker w) as [[|] |]; try done.
    intros [= <- <-]. eexists. split; [reflexivity | done].
Qed.

(** Each step logs at most one event, and only one its action can log. *)
Lemma step_logs a (w w' : World) :
  step a w = Some w' →
  trace w' = trace w ∨ ∃ e, trace w' = e :: trace w ∧ may_log a (closer w) e.
Proof.
  unfold step. destruct (crashed w); [done |]. destruct a.
  - destruct (ingestor w) as [[ch ip] |]; [| done].
    destruct (ingestor_step ch ip w) as [[[ch' ip'] w1] | r |] eqn:H1; [| | done].
    + intros [= <-]. unfold set_ingestor. cbn [trace]. by eapply ingestor_step_logs.
    + intros [= <-]. right. eexists. split; [reflexivity | done].
  - destruct (closer w) as [cp |] eqn:Hcp; [| done].
    destruct (closer_step now cp w) as [[cp' w1] | r |] eqn:H1; [| | done].
    + intros [= <-]. unfold set_closer. cbn [trace]. rewrite <- Hcp.
      by eapply closer_step_logs.
    + intros [= <-]. right. eexists. split; [reflexivity | done].
  - destruct (closer w) as [[] |] eqn:Hcp; try done.
    destruct (closer_select br w) as [[cp' w1] | r |] eqn:H1; [| | done].
    + intros [= <-]. unfold set_closer. cbn [trace]. right. rewrite <- Hcp.
      by eapply closer_select_logs.
    + intros [= <-]. right. eexists. split; [reflexivity | by destruct br].
  - destruct (ticker w); [| done]. intros [= <-]. by left.
  - destruct (chan_send _ _ _); [| done..].
    intros [= <-]. right. eexists. split; [reflexivity | done].
  - destruct (chan_close _ _); [| done..]. intros [= <-]. by left.
  - destruct (chan_close _ _); [| done..].
    intros [= <-]. right. eexists. split; [reflexivity | done].
  - destruct (waiter w), (waitGroups w !! hostGroup) as [n |]; try done;
      destruct (n =? 0); intros [= <-]; try (by left);
      right; eexists; (split; [reflexivity | done]).
  - destruct (chan_recv _ _) as [[x st] | |]; [| done..]. intros [= <-]. by left.
  - destruct (chan_recv _ _) as [[x st] | |]; [| done..]. intros [= <-]. by left.
Qed.

(** ** Sending a bucket *)

Lemma cons_neq_self {A : Type} (x : A) (l : list A) : l ≠ x :: l.
Proof. intros H. apply (f_equal length) in H. simpl in H. lia. Qed.

(** The process when [flush] is about to send. *)
Lemma Inv_sending bd (e : Eps) (w : World) bts :
  Inv t0 bd e w → closer w = Some (FSend bts) →
  ∃ k c0 t t' now lg0 v ch,
    closer_events (trace w) = block_prefix PhEncoded k c0 t t' now ++ lg0 ∧
    rotation_log t0 k c0 t lg0 ∧
    array_get (openBucket (conc w)) bts = Returns (Some k) ∧
    heap w !! k = Some v ∧ window v = (t, now - t, true) ∧
    current_target w = Some (S k) ∧
    statsChans w = [ch] ∧ closed ch = false ∧
    outStats (conc w) = Some hostStats.
Proof.
  intros [slots c hp cin cout cs ce n tk ich ip cp wt cr tr Hcs Hring Hshut Hing Hcr]
    [= ->].
  destruct Hring as [pre k t d enc lg0 Hpre | ph k c0 t t' now dk enck d' enc' lg0
                       Hph Hloc -> Hlg Hlog Hs Hlen Hk Hdk Henc Hk']; [discriminate |].
  simpl in Hph, Hloc. simplify_eq.
  apply lookup_windows in Hk as (v & Hv & Hwin).
  rewrite Hdk, Henc in Hwin by done.
  exists k, c0, t, t', now, lg0, v, cs. unfold current_target. simpl.
  repeat split; try done.
  - by eapply slots_are_current.
  - by erewrite slots_are_other.
Qed.

(** C4.  In every execution, when a step sends a bucket on the stats
    channel (it logs [EvEmit p v]: the copy [v] of bucket [p] is put on the
    channel), that bucket's [Duration] was stamped by an earlier step, with
    the value the copy carries; the bucket is not the one
    [c.openBucket[c.currentBucket]] points at, before or after the step; and
    it was never sent before, so that no bucket appears twice among the
    buckets sent. *)
Theorem rotation_safety bd (e : Eps) sched a (w w' : World) p v :
  run sched (started bd e t0) = Some w →
  step a w = Some w' →
  trace w' = EvEmit p v :: trace w →
  heap w !! p = Some v ∧
  (∃ ch, statsChans w = [ch] ∧ statsChans w' = [mkChan (queue ch ++ [v]) false]) ∧
  (∃ now, In (EvStamp p now (model.Duration v)) (trace w) ∧
          model.Duration v = now - model.Start v) ∧
  current_target w ≠ Some p ∧ current_target w' ≠ Some p ∧
  (∀ v', ¬ In (EvEmit p v') (trace w)) ∧
  NoDup (map fst (emitted (trace w'))).
Proof.
  intros Hrun Hstep Htr.
  pose proof (reachable_Inv _ _ _ _ Hrun) as HI.
  destruct (step_logs _ _ _ Hstep) as [Hsame | (ev & Hev & Hlog)].
  { rewrite Hsame in Htr. by destruct (cons_neq_self _ _ Htr). }
  rewrite Hev in Htr. injection Htr as ->.
  destruct a; simpl in Hlog; try done; try (by destruct br).
  destruct Hlog as [bts Hcp].
  destruct (Inv_sending _ _ _ _ HI Hcp)
    as (k & c0 & t & t' & now' & lg0 & v0 & ch & Hlg & Hrot & Hget & Hv0 & Hwin
        & Hcur & Hst & Hcl & Hout).
  destruct (flush_send_returns bts w k v0 ch Hget Hv0 Hout Hst Hcl)
    as (w1 & Hw1 & Hc1 & Hh1 & Hst1 & Htr1).
  unfold step in Hstep. destruct (crashed w); [done |].
  rewrite Hcp in Hstep. simpl in Hstep. rewrite Hw1 in Hstep. simpl in Hstep.
  injection Hstep as <-.
  unfold set_closer in Hev. cbn [trace] in Hev. rewrite Htr1 in Hev.
  injection Hev as <- <-.
  unfold window in Hwin. injection Hwin as HS HD HE.
  assert (∀ ev, closer_event ev = true → In ev (trace w) →
                In ev (block_prefix PhEncoded k c0 t t' now') ∨ In ev lg0) as Hin.
  { intros ev Hce Hin. apply (In_closer_events ev (trace w) Hce) in Hin.
    rewrite Hlg in Hin. by apply in_app_iff in Hin. }
  split; [done |].
  split; [by exists ch |].
  split.
  { exists now'. split; [| lia].
    apply (In_closer_events (EvStamp k now' (model.Duration v0)) (trace w)); [done |].
    rewrite Hlg, HD. simpl. tauto. }
  split; [rewrite Hcur; intros [=]; lia |].
  split.
  { unfold current_target, set_closer. cbn [conc]. rewrite Hc1.
    fold (current_target w). rewrite Hcur. intros [=]. lia. }
  split.
  { intros v' Hv'. destruct (Hin (EvEmit k v') eq_refl Hv') as [Hpre | Hold].
    - simpl in Hpre. intuition congruence.
    - pose proof (rotation_log_emit_lt _ _ _ _ _ _ Hrot Hold). lia. }
  unfold set_closer. cbn [trace]. rewrite Htr1. simpl.
  rewrite <- (emitted_closer_events (trace w)), Hlg, emitted_app. simpl.
  rewrite (rotation_log_emitted _ _ _ _ Hrot).
  change (k :: rev (seq 0 k)) with (rev [k] ++ rev (seq 0 k)).
  rewrite <- rev_app_distr. apply NoDup_ListNoDup, NoDup_rev.
  replace (seq 0 k ++ [k]) with (seq 0 (S k)) by (by rewrite seq_S).
  apply seq_NoDup.
Qed.

(** ** Closing channels *)

(** The closes that the goroutines have performed, by where [bucketCloser]
    stands. *)
Lemma Inv_closes bd (e : Eps) (w : World) :
  Inv t0 bd e w →
  closes (trace w) =
    match closer w with
    | Some CDone | Some CReturned => [(SpanChan, Some hostOut)]
    | _ => []
    end.
Proof.
  intros [slots c hp cin cout cs ce n tk ich ip cp wt cr tr Hcs Hring Hshut Hing Hcr].
  simpl. rewrite <- closes_closer_events.
  destruct Hring as [pre k t d enc lg0 Hpre _ -> Hlog _ _ _
                    | ph k c0 t t' now dk enck d' enc' lg0 Hph _ _ -> Hlog _ _ _ _ _ _];
    destruct (rotation_log_history _ _ _ _ Hlog) as (_ & Hcl & _);
    rewrite closes_app, Hcl.
  - by destruct cp; simplify_eq/=.
  - by destruct cp; simplify_eq/=.
Qed.

(** C8.  In every execution the outbound stats channel is open, and the only
    channel the goroutines of the Concentrator ever close is the outbound
    span channel. *)
Theorem stats_channel_never_closed bd (e : Eps) sched (w : World) :
  run sched (started bd e t0) = Some w →
  (∀ ch, In ch (statsChans w) → closed ch = false) ∧
  (∀ k h, In (k, h) (closes (trace w)) → k = SpanChan ∧ h = outSpans (conc w)).
Proof.
  intros Hrun. pose proof (reachable_Inv _ _ _ _ Hrun) as HI. split.
  - destruct (Inv_channels _ _ _ HI) as (_ & _ & _ & _ & _ & cs & -> & Hcs).
    intros ch [<- | []]. done.
  - intros k h Hin. rewrite (Inv_closes _ _ _ HI) in Hin.
    destruct (Inv_channels _ _ _ HI) as (_ & -> & _).
    destruct (closer w) as [[] |]; simpl in Hin; intuition congruence.
Qed.

(** C9.  In every execution and at every point of it, also in the middle of
    [flush], [currentBucket] is 0 or 1 and [openBucket[currentBucket]]
    points at a bucket of the heap.  So [HandleNewSpan] returns whenever it
    is called, the pointer the ingestor has loaded inside it is never nil,
    and no goroutine has panicked on a nil pointer or an index. *)
Theorem current_bucket_never_nil bd (e : Eps) sched (w : World) :
  run sched (started bd e t0) = Some w →
  (currentBucket (conc w) = 0 ∨ currentBucket (conc w) = 1) ∧
  (∃ p b, current_target w = Some p ∧ heap w !! p = Some b) ∧
  (∀ s, ∃ w', HandleNewSpan s w = Returns w') ∧
  (∀ ch s b, ingestor w = Some (ch, ICall s b) →
     ∃ p bk, b = Some p ∧ heap w !! p = Some bk) ∧
  (∀ g r, crashed w = Some (g, r) → r ≠ NilDereference ∧ r ≠ IndexOutOfRange).
Proof.
  intros Hrun.
  destruct (reachable_Inv _ _ _ _ Hrun)
    as [slots c hp cin cout cs ce n tk ich ip cp wt cr tr Hcs Hring Hshut Hing Hcr].
  destruct (ring_inv_current _ _ _ _ _ Hring) as (Hc & p & Hp & Hlt).
  rewrite length_fmap in Hlt.
  destruct (lookup_lt_is_Some_2 hp p Hlt) as [b Hb].
  unfold current_target, HandleNewSpan, bucket_call, deref. cbn [conc heap
    openBucket currentBucket ingestor crashed].
  rewrite Hp. cbn [mbind outcome_bind]. rewrite Hb.
  split; [done |]. split; [by exists p, b |]. split; [intros s; by eexists |].
  split.
  - intros ch s b0 [= -> ->]. destruct Hing as (q & -> & Hq).
    destruct (lookup_lt_is_Some_2 hp q Hq) as [bk Hbk]. by exists q, bk.
  - intros g r ->. by destruct Hcr as [[=] | [= -> ->]].
Qed.

(** C10.  [Init] stores its three arguments in [inSpans], [outStats] and
    [outSpans] and changes nothing else: not the other fields of the
    Concentrator, not the heap (no bucket is allocated), not the goroutines
    (none is started), nor anything else of the process. *)
Theorem Init_frame (i os o : ref) (w : World) :
  let w' := Init i os o w in
  inSpans (conc w') = i ∧ outStats (conc w') = os ∧ outSpans (conc w') = o ∧
  exit (conc w') = exit (conc w) ∧
  exitGroup (conc w') = exitGroup (conc w) ∧
  bucketDuration (conc w') = bucketDuration (conc w) ∧
  eps (conc w') = eps (conc w) ∧
  openBucket (conc w') = openBucket (conc w) ∧
  currentBucket (conc w') = currentBucket (conc w) ∧
  heap w' = heap w ∧
  ingestor w' = ingestor w ∧ closer w' = closer w ∧
  spanChans w' = spanChans w ∧ statsChans w' = statsChans w ∧
  exitChans w' = exitChans w ∧ waitGroups w' = waitGroups w ∧
  ticker w' = ticker w ∧ waiter w' = waiter w ∧ crashed w' = crashed w ∧
  trace w' = trace w.
Proof. repeat split. Qed.

(** ** Shutdown *)

Lemma chan_send_closed {A : Type} h (x : A) st st' :
  chan_send h x st = Returns st' → closed <$> st' = closed <$> st.
Proof.
  unfold chan_send. destruct h as [i |]; [| done].
  destruct (st !! i) as [ch |] eqn:Hi; [| done].
  destruct (closed ch) eqn:Hcl; [done |]. intros [= <-].
  rewrite list_fmap_insert. simpl. rewrite <- Hcl.
  apply list_insert_id. by rewrite list_lookup_fmap, Hi.
Qed.

(** The statements of [flush] close no channel and leave the wait group
    alone. *)
Lemma flush_step_shutdown_state now cp (w : World) cp' w1 :
  in_flush cp = true →
  closer_step now cp w = Returns (cp', w1) →
  shutdown_state w1 = shutdown_state w.
Proof.
  unfold shutdown_state.
  destruct cp; try done; intros _; simpl.
  - by intros [= <- <-].
  - unfold flush_alloc. destruct (array_set _ _ _); simpl; [| done..].
    by intros [= <- <-].
  - unfold flush_stamp. destruct (array_get _ _) as [slot | |]; simpl; [| done..].
    destruct (deref slot (heap w)) as [[p bk] | |]; simpl; [| done..].
    by intros [= <- <-].
  - by intros [= <- <-].
  - by intros [= <- <-].
  - destruct (flush_check _ _) as [[|] | |]; simpl; try done; by intros [= <- <-].
  - unfold flush_encode. destruct (array_get _ _) as [slot | |]; simpl; [| done..].
    destruct (deref slot (heap w)) as [[p bk] | |]; simpl; [| done..].
    by intros [= <- <-].
  - unfold flush_send. destruct (array_get _ _) as [slot | |]; simpl; [| done..].
    destruct (deref slot (heap w)) as [[p bk] | |]; simpl; [| done..].
    destruct (chan_send _ _ _) as [st | |] eqn:Hsend; simpl; [| done..].
    intros [= <- <-]. simpl. by rewrite (chan_send_closed _ _ _ _ Hsend).
Qed.

Lemma rotation_step_shutdown_state a (w w' : World) :
  rotation_step a (closer w) → step a w = Some w' →
  shutdown_state w' = shutdown_state w.
Proof.
  unfold step. destruct (crashed w); [done |].
  destruct a as [| now | [|] | | | | | | |]; simpl; try done.
  - destruct (closer w) as [cp |]; [| done]. intros Hf.
    destruct (closer_step now cp w) as [[cp' w1] | r |] eqn:H1; [| | done].
    + intros [= <-]. by rewrite <- (flush_step_shutdown_state _ _ _ _ _ Hf H1).
    + by intros [= <-].
  - destruct (closer w) as [[] |]; try done. intros _.
    destruct (ticker w) as [[|] |]; try done. by intros [= <-].
Qed.

Lemma rotation_step_logs a (w w' : World) :
  rotation_step a (closer w) → step a w = Some w' →
  trace w' = trace w ∨ ∃ e, trace w' = e :: trace w ∧ shutdown_event e = false.
Proof.
  intros Hrot Hstep.
  destruct (step_logs _ _ _ Hstep) as [Hsame | (ev & Hev & Hlog)]; [by left |].
  right. exists ev. split; [done |].
  destruct a as [| now | [|] | | | | | | |]; simpl in Hrot; try done;
    destruct (closer w) as [cp |]; try done;
    destruct ev; try done; simpl in Hlog; destruct_and?; simplify_eq; done.
Qed.

(** The exit path, run without interruption from the [select]. *)
Lemma exit_path bd (e : Eps) (w : World) t1 t2 :
  Inv t0 bd e w → closer w = Some CSelect → crashed w = None →
  closed <$> exitChans w = [true] →
  ∃ w' cin cout,
    run [Select OnExit; RunCloser t1; RunCloser t2] w = Some w' ∧
    closer w' = Some CReturned ∧ crashed w' = None ∧
    trace w' = [EvDone; EvClose SpanChan (Some hostOut); EvExit] ++ trace w ∧
    conc w' = conc w ∧ heap w' = heap w ∧ statsChans w' = statsChans w ∧
    spanChans w = [cin; cout] ∧ closed cout = false ∧
    spanChans w' = [cin; mkChan (queue cout) true] ∧
    waitGroups w = [1] ∧ waitGroups w' = [0].
Proof.
  intros [slots c hp cin cout cs ce n tk ich ip cp wt cr tr Hcs Hring Hshut Hing Hcr]
    [= ->] [= ->] [= Hce].
  destruct Hshut as [-> Hout]. destruct ce as [qe cle]. simpl in Hce. subst cle.
  destruct cout as [qo clo]. simpl in Hout. subst clo.
  destruct qe; (eexists _, cin, _; split; [reflexivity |]); by repeat split.
Qed.

Lemma rotation_log_no_exit k c t (lg : list event) :
  rotation_log t0 k c t lg → Forall (λ e, exit_event e = false) lg.
Proof.
  induction 1 as [| k c t lg t' now v Hlog IH Hv]; repeat constructor. done.
Qed.

Lemma Inv_shutdown_log bd (e : Eps) (w : World) pc :
  Inv t0 bd e w → closer w = Some pc →
  ∃ lg, closer_events (trace w) = shutdown_log pc ++ lg ∧
        Forall (λ e, exit_event e = false) lg.
Proof.
  intros [slots c hp cin cout cs ce n tk ich ip cp wt cr tr Hcs Hring Hshut Hing Hcr]
    [= ->]. simpl.
  destruct Hring as [pre k t d enc lg0 Hpre _ -> Hlog _ _ _
                    | ph k c0 t t' now dk enck d' enc' lg0 Hph _ _ -> Hlog _ _ _ _ _ _];
    pose proof (rotation_log_no_exit _ _ _ _ Hlog) as Hno.
  - destruct pc; simplify_eq/=; eexists; (split; [reflexivity |]);
      repeat constructor; done.
  - destruct pc; simplify_eq/=; eexists; (split; [reflexivity |]);
      repeat constructor; done.
Qed.

Lemma Inv_shutdown bd (e : Eps) (w : World) pc :
  Inv t0 bd e w → closer w = Some pc →
  ∃ cin cout n,
    spanChans w = [cin; cout] ∧ waitGroups w = [n] ∧ shutdown_inv pc n (closed cout).
Proof. intros [] [= ->]. simpl. eauto 10. Qed.

(** C5.  In every execution: (a) what [bucketCloser] has done since its
    [select] took the exit case is, in this order and nothing else, close the
    outbound span channel and call [Done] on the wait group, so no rotation
    and no flush; (b) the outbound span channel is the only channel closed,
    once, and the channel and the counter of the wait group stand as
    [shutdown_inv] says; (c) when the exit channel is closed and
    [bucketCloser] is at its [select], the exit path runs to its return: it
    logs the exit, the close and [Done], and leaves the Concentrator, the
    heap and the stats channel as they were; (d) a step of a rotation (the
    [select] taking a tick, or a statement of [flush]) changes no closed
    flag and no counter, and logs no close, no [Add] and no [Done]. *)
Theorem shutdown_protocol bd (e : Eps) sched (w : World) pc :
  run sched (started bd e t0) = Some w →
  closer w = Some pc →
  (∃ lg, closer_events (trace w) = shutdown_log pc ++ lg ∧
         Forall (λ e, exit_event e = false) lg) ∧
  (closes (trace w) =
     match pc with
     | CDone | CReturned => [(SpanChan, outSpans (conc w))]
     | _ => []
     end ∧
   ∃ cin cout n,
     spanChans w = [cin; cout] ∧ waitGroups w = [n] ∧
     shutdown_inv pc n (closed cout)) ∧
  (pc = CSelect → crashed w = None → closed <$> exitChans w = [true] →
   ∀ t1 t2, ∃ w',
     run [Select OnExit; RunCloser t1; RunCloser t2] w = Some w' ∧
     closer w' = Some CReturned ∧ crashed w' = None ∧
     trace w' = [EvDone; EvClose SpanChan (outSpans (conc w)); EvExit] ++ trace w ∧
     conc w' = conc w ∧ heap w' = heap w ∧ statsChans w' = statsChans w) ∧
  (∀ a w', rotation_step a (closer w) → step a w = Some w' →
     shutdown_state w' = shutdown_state w ∧
     (trace w' = trace w ∨ ∃ ev, trace w' = ev :: trace w ∧ shutdown_event ev = false)).
Proof.
  intros Hrun Hpc. pose proof (reachable_Inv _ _ _ _ Hrun) as HI.
  destruct (Inv_channels _ _ _ HI) as (_ & Hout & _).
  split; [by eapply Inv_shutdown_log |].
  split.
  { split; [| by eapply Inv_shutdown].
    rewrite (Inv_closes _ _ _ HI), Hpc, Hout. by destruct pc. }
  split.
  { intros -> Hcr Hex t1 t2.
    destruct (exit_path _ _ _ t1 t2 HI Hpc Hcr Hex)
      as (w' & cin & cout & H1 & H2 & H3 & H4 & H5 & H6 & H7 & _).
    exists w'. rewrite Hout. done. }
  intros a w' Hrot Hstep. split.
  - by eapply rotation_step_shutdown_state.
  - by eapply rotation_step_logs.
Qed.
(** ** The spans through the ingestor *)

Lemma Flow_view (w w' : World) : span_view w' = span_view w → Flow w → Flow w'.
Proof.
  unfold span_view, Flow. intros [= Hin Hing Hp Hr Hh Hf] (cin & ich & ip & H).
  exists cin, ich, ip. unfold flow_at in *. by rewrite Hin, Hing, Hp, Hr, Hh, Hf.
Qed.

Lemma started_Flow bd (e : Eps) : Flow (started (Span:=Span) bd e t0).
Proof. by exists open_chan, None, IRange. Qed.

Local Ltac flow_goal :=
  first [done | split; congruence
        | match goal with H : _ → _ = Some hostIn |- _ => intros _; by apply H end].

Lemma ingestor_step_Flow bd (e : Eps) (w w' : World) :
  Inv t0 bd e w → Flow w → step RunIngestor w = Some w' → Flow w'.
Proof.
  intros [slots c hp cin cout cs ce n tk ich ip cp wt cr tr Hcs Hring Hshut Hing Hcr]
    (cin' & ich' & ip' & [= <-] & [= <- <-] & Hq & Hflow & Hch & Hret) Hstep.
  simpl in Hq, Hflow.
  destruct Hcr as [-> | ->]; [| discriminate].
  unfold step in Hstep; simpl in Hstep.
  destruct ip; simpl in Hstep; try discriminate.
  - (* IRange *)
    simplify_eq. by eexists cin, _, _.
  - (* IRecv *)
    rewrite (Hch ltac:(done)) in Hstep. simpl in Hstep.
    destruct cin as [[| x q] cl]; simpl in *.
    + destruct cl; simplify_eq/=. by eexists _, _, _.
    + simplify_eq/=. destruct Hflow as [H1 H2]. eexists _, _, _.
      repeat split; simpl; try done; try congruence.
      by rewrite <- app_assoc.
  - (* IIndex *)
    simplify_eq. eexists cin, _, _. repeat split; simpl; try flow_goal; apply Hflow.
  - (* ILoad *)
    destruct Hing as [p Hp]. rewrite Hp in Hstep. simpl in Hstep. simplify_eq.
    eexists cin, _, _. repeat split; simpl; try flow_goal; apply Hflow.
  - (* ICall *)
    destruct Hing as (p & -> & Hp).
    destruct (lookup_lt_is_Some_2 hp p Hp) as [bk Hbk].
    unfold bucket_call in Hstep. simpl in Hstep. rewrite Hbk in Hstep.
    simpl in Hstep. simplify_eq. destruct Hflow as [H1 H2].
    eexists cin, _, _. repeat split; simpl; try flow_goal; congruence.
  - (* ISend *)
    destruct Hflow as [H1 H2].
    destruct (closed cout) eqn:Hout; simpl in Hstep; simplify_eq;
      eexists cin, _, _; repeat split; simpl; try flow_goal; congruence.
Qed.

(** [bucketCloser] leaves the inbound channel, the ingestor and the spans
    logged as they are. *)
Lemma closer_step_span_view now cp (w : World) cp' w1 :
  outSpans (conc w) = Some hostOut →
  closer_step now cp w = Returns (cp', w1) →
  span_view w1 = span_view w.
Proof.
  unfold span_view. intros Hout.
  destruct cp; simpl; try done.
  - destruct (wg_add _ _ _); simpl; [| done..]. by intros [= <- <-].
  - by intros [= <- <-].
  - rewrite Hout. unfold chan_close.
    destruct (spanChans w !! hostOut) as [ch |]; simpl; [| done].
    destruct (closed ch); simpl; [done |]. intros [= <- <-]. simpl.
    by rewrite list_lookup_insert_ne.
  - destruct (wg_add _ _ _); simpl; [| done..]. by intros [= <- <-].
  - by intros [= <- <-].
  - unfold flush_alloc. destruct (array_set _ _ _); simpl; [| done..].
    by intros [= <- <-].
  - unfold flush_stamp. destruct (array_get _ _) as [slot | |]; simpl; [| done..].
    destruct (deref slot (heap w)) as [[p bk] | |]; simpl; [| done..].
    by intros [= <- <-].
  - by intros [= <- <-].
  - by intros [= <- <-].
  - destruct (flush_check _ _) as [[|] | |]; simpl; try done; by intros [= <- <-].
  - unfold flush_encode. destruct (array_get _ _) as [slot | |]; simpl; [| done..].
    destruct (deref slot (heap w)) as [[p bk] | |]; simpl; [| done..].
    by intros [= <- <-].
  - unfold flush_send. destruct (array_get _ _) as [slot | |]; simpl; [| done..].
    destruct (deref slot (heap w)) as [[p bk] | |]; simpl; [| done..].
    destruct (chan_send _ _ _) as [st | |]; simpl; [| done..].
    by intros [= <- <-].
Qed.

Lemma step_Flow bd (e : Eps) a (w w' : World) :
  Inv t0 bd e w → Flow w → step a w = Some w' → Flow w'.
Proof.
  intros HI HF Hstep.
  destruct a; [by eapply ingestor_step_Flow | ..];
    destruct (Inv_channels _ _ _ HI) as (_ & Hout & _);
    unfold step in Hstep; (destruct (crashed w); [done |]).
  - (* bucketCloser *)
    destruct (closer w) as [cp |]; [| done].
    destruct (closer_step now cp w) as [[cp' w1] | r |] eqn:H1; [| | done];
      injection Hstep as <-; [| by eapply Flow_view].
    eapply Flow_view; [| done].
    by rewrite <- (closer_step_span_view _ _ _ _ _ Hout H1).
  - (* select *)
    destruct (closer w) as [[] |]; try done.
    destruct br; simpl in Hstep.
    + destruct (chan_recv _ _) as [[x st] | |]; simpl in Hstep; [| | done];
        injection Hstep as <-; by eapply Flow_view.
    + destruct (ticker w) as [[|] |]; try done.
      injection Hstep as <-. by eapply Flow_view.
  - (* TimerFires *)
    destruct (ticker w); [| done]. injection Hstep as <-. by eapply Flow_view.
  - (* HostSend *)
    destruct HF as (cin & ich & ip & Hin & Hing & Hq & Hflow & Hch & Hret).
    unfold chan_send in Hstep. rewrite Hin in Hstep.
    destruct (closed cin) eqn:Hcl; [done |]. injection Hstep as <-.
    exists (mkChan (queue cin ++ [s]) false), ich, ip. simpl.
    split; [apply list_lookup_insert_eq; by eapply lookup_lt_Some |].
    split; [done |]. split; [by rewrite Hq, app_assoc |].
    split; [by destruct ip |]. split; [done |].
    intros Hr. by destruct (Hret Hr).
  - (* HostCloseIn *)
    destruct HF as (cin & ich & ip & Hin & Hing & Hq & Hflow & Hch & Hret).
    unfold chan_close in Hstep. rewrite Hin in Hstep.
    destruct (closed cin) eqn:Hcl; [done |]. injection Hstep as <-.
    exists (mkChan (queue cin) true), ich, ip. simpl.
    split; [apply list_lookup_insert_eq; by eapply lookup_lt_Some |].
    split; [done |]. split; [done |]. split; [by destruct ip |]. split; [done |].
    intros Hr. by destruct (Hret Hr).
  - (* HostExit *)
    destruct (chan_close _ _); [| done..]. injection Hstep as <-. by eapply Flow_view.
  - (* HostWait *)
    destruct (waiter w), (waitGroups w !! hostGroup) as [n |]; try done;
      destruct (n =? 0); injection Hstep as <-; by eapply Flow_view.
  - (* HostRecvSpan *)
    unfold chan_recv in Hstep.
    destruct (spanChans w !! hostOut) as [ch |]; [| done].
    destruct (queue ch); [destruct (closed ch); [| done] |];
      injection Hstep as <-; (eapply Flow_view; [| done]); unfold span_view; simpl;
      by rewrite ?list_lookup_insert_ne.
  - (* HostRecvStats *)
    destruct (chan_recv _ _) as [[x st] | |]; [| done..].
    injection Hstep as <-. by eapply Flow_view.
Qed.

Lemma run_Flow bd (e : Eps) sched (w w' : World) :
  Inv t0 bd e w → Flow w → run sched w = Some w' → Flow w'.
Proof.
  revert w. induction sched as [| a sched IH]; intros w HI HF Hrun; simpl in Hrun.
  - by simplify_eq.
  - destruct (step a w) as [w1 |] eqn:Hstep; [| done].
    eapply IH; [| | done]; [by eapply step_Inv | by eapply step_Flow].
Qed.

(** The loop of the ingestor, in every execution: each span received is
    handled and then forwarded before the next is received, so the spans
    forwarded are the spans handled are the spans received, in the order in
    which the producer sent them, up to the one span in hand; when the loop
    has returned, every span sent was forwarded.  A send on the outbound
    channel succeeds as long as that channel is open. *)
Lemma ingestor_in_order bd (e : Eps) sched (w : World) :
  run sched (started bd e t0) = Some w →
  ∃ ich ip,
    ingestor w = Some (ich, ip) ∧ flow_at ip (trace w) ∧
    (∃ pending, rev (produced (trace w)) = rev (received (trace w)) ++ pending) ∧
    (ip = IReturned → forwarded (trace w) = produced (trace w)) ∧
    (∀ s cout, ip = ISend s → crashed w = None →
       spanChans w !! hostOut = Some cout → closed cout = false →
       ∃ w', step RunIngestor w = Some w' ∧
             ingestor w' = Some (ich, IRecv) ∧
             forwarded (trace w') = s :: forwarded (trace w)).
Proof.
  intros Hrun. pose proof (reachable_Inv _ _ _ _ Hrun) as HI.
  destruct (run_Flow _ _ _ _ _ (started_Inv bd e) (started_Flow bd e) Hrun)
    as (cin & ich & ip & Hin & Hing & Hq & Hflow & Hch & Hret).
  exists ich, ip. split; [done |]. split; [done |]. split; [by exists (queue cin) |].
  split.
  - intros ->. destruct (Hret eq_refl) as [Hnil _]. destruct Hflow as [H1 H2].
    rewrite Hnil, app_nil_r in Hq. apply (f_equal (@rev Span)) in Hq.
    rewrite !rev_involutive in Hq. congruence.
  - intros s cout -> Hcr Hout Hcl.
    destruct (Inv_channels _ _ _ HI) as (_ & Hos & _).
    unfold step. rewrite Hcr, Hing. simpl. unfold chan_send.
    rewrite Hos, Hout, Hcl. simpl. by eexists.
Qed.

(** * The spans, the statistics and the lifecycle *)

(** ** The steps, case by case *)

Lemma step_not_crashed a (w w' : World) : step a w = Some w' → crashed w = None.
Proof. unfold step. by destruct (crashed w). Qed.

Lemma ingestor_step_transition ch pc (w : World) ch' pc' w1 :
  ingestor w = Some (ch, pc) →
  ingestor_step ch pc w = Returns (ch', pc', w1) →
  transition RunIngestor w (set_ingestor (Some (ch', pc')) w1).
Proof.
  intros Hi. destruct pc; simpl.
  - intros [= <- <- <-]. by eapply t_range.
  - destruct (chan_recv ch (spanChans w)) as [[[s |] st] | |] eqn:Hr; simpl; try done;
      intros [= <- <- <-]; [by eapply t_recv | by eapply t_drained].
  - intros [= <- <- <-]. by eapply t_index.
  - destruct (array_get _ _) as [b | |] eqn:Hg; simpl; [| done..].
    intros [= <- <- <-]. by eapply t_load.
  - unfold bucket_call, deref. destruct b as [p |]; [| done].
    destruct (heap w !! p) as [bk |] eqn:Hp; simpl; [| done].
    intros [= <- <- <-]. by eapply t_call.
  - destruct (chan_send _ _ _) as [st | |] eqn:Hs; simpl; [| done..].
    intros [= <- <- <-]. by eapply t_forward.
  - done.
Qed.

Lemma closer_step_transition now pc (w : World) pc' w1 :
  closer w = Some pc →
  closer_step now pc w = Returns (pc', w1) →
  transition (RunCloser now) w (set_closer (Some pc') w1).
Proof.
  intros Hc. destruct pc; simpl; try done.
  - destruct (wg_add _ _ _) as [st | |] eqn:Hs; simpl; [| done..].
    intros [= <- <-]. by eapply t_add.
  - intros [= <- <-]. by eapply t_ticker.
  - destruct (chan_close _ _) as [st | |] eqn:Hs; simpl; [| done..].
    intros [= <- <-]. by eapply t_close.
  - destruct (wg_add _ _ _) as [st | |] eqn:Hs; simpl; [| done..].
    intros [= <- <-]. by eapply t_done.
  - intros [= <- <-]. by eapply t_next.
  - unfold flush_alloc. destruct (array_set _ _ _) as [a | |] eqn:Hs; simpl; [| done..].
    intros [= <- <-]. by eapply t_alloc.
  - unfold flush_stamp, deref.
    destruct (array_get _ _) as [[p |] | |] eqn:Hg; simpl; try done.
    destruct (heap w !! p) as [b |] eqn:Hp; simpl; [| done].
    intros [= <- <-]. by eapply t_stamp.
  - intros [= <- <-]. by eapply t_flip.
  - intros [= <- <-]. by eapply t_drain.
  - unfold flush_check.
    destruct (array_get _ _) as [[p |] | |] eqn:Hg; simpl; try done;
      intros [= <- <-]; [by eapply t_check_full | by eapply t_check_empty].
  - unfold flush_encode, deref.
    destruct (array_get _ _) as [[p |] | |] eqn:Hg; simpl; try done.
    destruct (heap w !! p) as [b |] eqn:Hp; simpl; [| done].
    intros [= <- <-]. by eapply t_encode.
  - unfold flush_send, deref.
    destruct (array_get _ _) as [[p |] | |] eqn:Hg; simpl; try done.
    destruct (heap w !! p) as [b |] eqn:Hp; simpl; [| done].
    destruct (chan_send _ _ _) as [st | |] eqn:Hs; simpl; [| done..].
    intros [= <- <-]. by eapply t_send.
Qed.

(** Every step is one of the cases of [transition]. *)
Lemma step_transition a (w w' : World) : step a w = Some w' → transition a w w'.
Proof.
  unfold step. destruct (crashed w); [done |]. destruct a.
  - destruct (ingestor w) as [[ch pc] |] eqn:Hi; [| done].
    destruct (ingestor_step ch pc w) as [[[ch' pc'] w1] | r |] eqn:H1; [| | done];
      intros [= <-]; [by eapply ingestor_step_transition | by eapply t_ingestor_panics].
  - destruct (closer w) as [pc |] eqn:Hc; [| done].
    destruct (closer_step now pc w) as [[pc' w1] | r |] eqn:H1; [| | done];
      intros [= <-]; [by eapply closer_step_transition | by eapply t_closer_panics].
  - destruct (closer w) as [[] |] eqn:Hc; try done.
    destruct br; simpl.
    + destruct (chan_recv _ _) as [[x st] | r |] eqn:Hr; simpl; [| | done].
      * intros [= <-]. by eapply t_exit.
      * by destruct (chan_recv_no_panic _ _ _ Hr).
    + destruct (ticker w) as [[|] |] eqn:Ht; try done.
      intros [= <-]. by eapply t_tick.
  - destruct (ticker w) as [b |] eqn:Ht; [| done]. intros [= <-]. by eapply t_timer.
  - destruct (chan_send _ _ _) as [st | |] eqn:Hs; [| done..].
    intros [= <-]. by eapply t_host_send.
  - destruct (chan_close _ _) as [st | |] eqn:Hs; [| done..].
    intros [= <-]. by eapply t_host_close.
  - destruct (chan_close _ _) as [st | |] eqn:Hs; [| done..].
    intros [= <-]. by eapply t_host_exit.
  - destruct (waiter w) eqn:Hw; (destruct (waitGroups w !! hostGroup) as [n |] eqn:Hn;
      [| done]); try done;
      (destruct (n =? 0) eqn:Hz; intros [= <-];
       [apply Z.eqb_eq in Hz as ->; eapply t_wait_returns; [by rewrite Hw | done]
       | apply Z.eqb_neq in Hz; eapply t_wait_blocks; [by rewrite Hw | done..]]).
  - destruct (chan_recv _ _) as [[x st] | |] eqn:Hr; [| done..].
    intros [= <-]. by eapply t_host_recv_span.
  - destruct (chan_recv _ _) as [[x st] | |] eqn:Hr; [| done..].
    intros [= <-]. by eapply t_host_recv_stats.
Qed.

(** What holds at the start and is kept by every step holds in every state a
    schedule reaches. *)
Lemma run_ind (P : World → Prop) sched (w0 w : World) :
  P w0 →
  (∀ a w1 w2, P w1 → step a w1 = Some w2 → P w2) →
  run sched w0 = Some w → P w.
Proof.
  intros H0 Hstep. revert w0 H0.
  induction sched as [| a sched IH]; intros w0 H0 Hrun; simpl in Hrun.
  - by simplify_eq.
  - destruct (step a w0) as [w1 |] eqn:H1; [| done]. eauto.
Qed.

(** The same from [Start] on, with the invariant and the flow of the spans at
    hand. *)
Lemma reachable_ind (P : World → Prop) bd (e : Eps) sched (w : World) :
  P (started bd e t0) →
  (∀ a w1 w2, Inv t0 bd e w1 → Flow w1 → crashed w1 = None → P w1 →
              transition a w1 w2 → P w2) →
  run sched (started bd e t0) = Some w → P w.
Proof.
  intros H0 Hstep Hrun.
  enough (Inv t0 bd e w ∧ Flow w ∧ P w) as (_ & _ & HP) by done.
  apply (run_ind (λ w, Inv t0 bd e w ∧ Flow w ∧ P w) sched (started bd e t0) w);
    [| | exact Hrun].
  - split; [apply started_Inv |]. split; [apply started_Flow | done].
  - intros a w1 w2 (HI & HF & HP) Hs. split; [by eapply step_Inv |].
    split; [by eapply step_Flow |].
    eapply Hstep; eauto using step_not_crashed, step_transition.
Qed.

(** ** The statistics: which spans a bucket holds *)

Lemma Inv_eps bd (e : Eps) (w : World) :
  Inv t0 bd e w → eps (conc w) = e ∧ bucketDuration (conc w) = bd.
Proof. by intros []. Qed.

Lemma absorbed_total_insert (hp : list StatsBucket) p b b' d :
  hp !! p = Some b →
  length (model.Absorbed b') = (length (model.Absorbed b) + d)%nat →
  absorbed_total (<[p := b']> hp) = (absorbed_total hp + d)%nat.
Proof.
  unfold absorbed_total. revert p.
  induction hp as [| x hp IH]; intros [| p] Hp Hlen; simplify_eq/=.
  - lia.
  - rewrite (IH p) by done. lia.
Qed.

Lemma transition_heap_ledger bd (e : Eps) a (w1 w2 : World) :
  Inv t0 bd e w1 → heap_ledger e w1 → transition a w1 w2 → heap_ledger e w2.
Proof.
  intros HI HL Ht q. pose proof (HL q) as Hq.
  destruct (Inv_eps _ _ _ HI) as [He _].
  destruct Ht; simpl; try exact Hq.
  - (* HandleSpan *)
    destruct (decide (p = q)) as [-> | Hne].
    + rewrite Nat.eqb_refl, list_lookup_insert_eq by (by eapply lookup_lt_Some).
      rewrite H0 in Hq. destruct Hq as [HA HE]. simpl. by rewrite HA.
    + rewrite (proj2 (Nat.eqb_neq p q)) by done. by rewrite list_lookup_insert_ne.
  - (* the allocation *)
    destruct (decide (q < length (heap w))%nat) as [Hlt | Hge].
    + by rewrite lookup_app_l.
    + rewrite lookup_ge_None_2 in Hq by lia.
      destruct (decide (q = length (heap w))) as [-> | Hne].
      * rewrite lookup_app_r, Nat.sub_diag by lia. simpl. by rewrite Hq.
      * rewrite lookup_ge_None_2; [done |]. rewrite length_app. simpl. lia.
  - (* the stamp *)
    destruct (decide (p = q)) as [-> | Hne].
    + rewrite list_lookup_insert_eq by (by eapply lookup_lt_Some).
      by rewrite H1 in Hq.
    + by rewrite list_lookup_insert_ne.
  - (* Encode *)
    destruct (decide (p = q)) as [-> | Hne].
    + rewrite list_lookup_insert_eq by (by eapply lookup_lt_Some).
      by rewrite H1 in Hq.
    + by rewrite list_lookup_insert_ne.
Qed.

Lemma transition_sent_ledger bd (e : Eps) a (w1 w2 : World) :
  Inv t0 bd e w1 → heap_ledger e w1 → sent_ledger e (trace w1) →
  transition a w1 w2 → sent_ledger e (trace w2).
Proof.
  intros HI HL HS Ht. destruct Ht; simpl; try exact HS.
  split; [| done]. pose proof (HL p) as Hp. rewrite H1 in Hp.
  destruct Hp as [HA HE]. split; [done |]. split; [done |].
  destruct (Inv_sending _ _ _ _ HI H) as (k & c0 & t & t' & now' & lg0 & v & ch & _ & _
    & Hget & Hv & Hwin & _).
  rewrite Hget in H0. simplify_eq. unfold window in Hwin. congruence.
Qed.

Lemma transition_absorbed_total a (w1 w2 : World) :
  length (handled (trace w1)) = absorbed_total (heap w1) →
  transition a w1 w2 →
  length (handled (trace w2)) = absorbed_total (heap w2).
Proof.
  intros HT Ht. destruct Ht; simpl; try exact HT.
  - rewrite (absorbed_total_insert _ _ bk _ 1%nat), HT; [lia | done |].
    simpl. rewrite length_app. simpl. lia.
  - unfold absorbed_total in *. rewrite sum_list_with_app. simpl. lia.
  - rewrite (absorbed_total_insert _ _ b _ 0%nat), HT; [lia | done | simpl; lia].
  - rewrite (absorbed_total_insert _ _ b _ 0%nat), HT; [lia | done | simpl; lia].
Qed.

Lemma reachable_ledger bd (e : Eps) sched (w : World) :
  run sched (started bd e t0) = Some w →
  heap_ledger e w ∧ sent_ledger e (trace w) ∧
  length (handled (trace w)) = absorbed_total (heap w).
Proof.
  intros Hrun. pattern w. eapply reachable_ind; [| | exact Hrun].
  - split; [| done]. by intros [| p].
  - intros a w1 w2 HI _ _ (HL & HS & HT) Ht.
    split; [by eapply transition_heap_ledger |].
    split; [by eapply transition_sent_ledger | by eapply transition_absorbed_total].
Qed.

Lemma sent_ledger_at (e : Eps) (l1 l2 : list event) p v :
  sent_ledger e (l1 ++ EvEmit p v :: l2) →
  model.Absorbed v = rev (absorbed_by p l2) ∧ model.Epsilon v = e ∧
  model.Encoded v = true.
Proof.
  induction l1 as [| ev l1 IH]; simpl; [by intros [] |].
  destruct ev; try exact IH. intros [_ H]. by apply IH.
Qed.

Lemma absorbed_by_In p s (tr : list event) :
  In s (absorbed_by p tr) ↔ In (EvHandle p s) tr.
Proof.
  induction tr as [| ev tr IH]; simpl; [done |].
  destruct ev; try (rewrite IH; split; [by right | by intros [|]]).
  destruct (Nat.eqb_spec p0 p) as [-> | Hne]; simpl; rewrite IH.
  - split; (intros [| ]; [left; congruence | by right]).
  - split; [by right | intros [| ]; [congruence | done]].
Qed.

(** X1.  In every execution and at every point of it, each bucket of the heap
    holds exactly the spans that [HandleNewSpan] has put into it, in the
    order in which they were handled, and carries the [eps] of the
    Concentrator; the rotation (allocation, stamp, [Encode], send) changes
    none of this.  A span is only handled into an allocated bucket, and the
    buckets together hold as many spans as were handled: none is counted
    twice and none is dropped. *)
Theorem buckets_hold_the_spans_handled bd (e : Eps) sched (w : World) :
  run sched (started bd e t0) = Some w →
  (∀ p b, heap w !! p = Some b →
     model.Absorbed b = rev (absorbed_by p (trace w)) ∧ model.Epsilon b = e) ∧
  (∀ p s, In (EvHandle p s) (trace w) → (p < length (heap w))%nat) ∧
  length (handled (trace w)) = absorbed_total (heap w).
Proof.
  intros Hrun. destruct (reachable_ledger _ _ _ _ Hrun) as (HL & _ & HT).
  split; [| split; [| done]].
  - intros p b Hp. pose proof (HL p) as Hq. by rewrite Hp in Hq.
  - intros p s Hin. apply absorbed_by_In in Hin.
    destruct (decide (p < length (heap w))%nat) as [| Hge]; [done |].
    pose proof (HL p) as Hq. rewrite lookup_ge_None_2 in Hq by lia.
    rewrite Hq in Hin. done.
Qed.

(** X2.  In every execution, the copy of a bucket that [flush] sends on the
    stats channel holds exactly the spans handled into that bucket before
    the send, in order; it is encoded and carries [eps].  A span handled
    into the bucket after the send is therefore not in the copy. *)
Theorem sent_copy_holds_spans_handled_before bd (e : Eps) sched (w : World)
    (l1 l2 : list event) p v :
  run sched (started bd e t0) = Some w →
  trace w = l1 ++ EvEmit p v :: l2 →
  model.Absorbed v = rev (absorbed_by p l2) ∧
  model.Epsilon v = e ∧ model.Encoded v = true.
Proof.
  intros Hrun Htr. destruct (reachable_ledger _ _ _ _ Hrun) as (_ & HS & _).
  rewrite Htr in HS. by eapply sent_ledger_at.
Qed.

(** ** The channels: what waits in them *)

Lemma chan_send_inv {A : Type} i (x : A) st st' :
  chan_send (Some i) x st = Returns st' →
  ∃ ch, st !! i = Some ch ∧ closed ch = false ∧
        st' = <[i := mkChan (queue ch ++ [x]) false]> st.
Proof.
  unfold chan_send. destruct (st !! i) as [ch |]; [| done].
  destruct (closed ch) eqn:Hcl; [done |]. intros [= <-]. eauto.
Qed.

Lemma chan_recv_inv {A : Type} i (x : option A) st st' :
  chan_recv (Some i) st = Returns (x, st') →
  ∃ ch, st !! i = Some ch ∧
    ((∃ q, queue ch = from_option (λ y, y :: q) [] x ∧ is_Some x ∧
           st' = <[i := mkChan q (closed ch)]> st) ∨
     (queue ch = [] ∧ closed ch = true ∧ x = None ∧ st' = st)).
Proof.
  unfold chan_recv. destruct (st !! i) as [ch |]; [| done].
  destruct (queue ch) as [| y q] eqn:Hq.
  - destruct (closed ch) eqn:Hcl; [| done]. intros [= <- <-]. eauto 10.
  - intros [= <- <-]. exists ch. split; [done |]. left. exists q. by rewrite Hq.
Qed.

Lemma chan_close_inv {A : Type} i (st st' : list (Chan A)) :
  chan_close (Some i) st = Returns st' →
  ∃ ch, st !! i = Some ch ∧ closed ch = false ∧
        st' = <[i := mkChan (queue ch) true]> st.
Proof.
  unfold chan_close. destruct (st !! i) as [ch |]; [| done].
  destruct (closed ch) eqn:Hcl; [done |]. intros [= <-]. eauto.
Qed.

Lemma Inv_spanChans bd (e : Eps) (w : World) :
  Inv t0 bd e w → ∃ cin cout, spanChans w = [cin; cout].
Proof. intros []. simpl. eauto. Qed.

(** The ingestor receives from the inbound channel. *)
Lemma Flow_range (w : World) ch pc :
  Flow w → ingestor w = Some (ch, pc) → pc ≠ IRange → ch = Some hostIn.
Proof.
  intros (cin & ich & ip & _ & Hing & _ & _ & Hch & _) Hi Hne.
  rewrite Hi in Hing. simplify_eq. by apply Hch.
Qed.

Lemma transition_out_ledger bd (e : Eps) a (w1 w2 : World) :
  Inv t0 bd e w1 → Flow w1 → out_ledger w1 → transition a w1 w2 → out_ledger w2.
Proof.
  intros HI HF (cout & Hout & k & Hk) Ht.
  destruct (Inv_channels _ _ _ HI) as (_ & Hos & _).
  destruct Ht; unfold out_ledger; simpl; try (by exists cout; split; [| exists k]).
  - (* the ingestor receives *)
    rewrite (Flow_range _ _ _ HF H) in H0 by done.
    apply chan_recv_inv in H0 as (ch' & _ & [(q & _ & _ & ->) | (_ & _ & _ & ->)]);
      exists cout; (split; [| by exists k]); [| done].
    by rewrite list_lookup_insert_ne.
  - (* the ingestor forwards *)
    rewrite Hos in H0. apply chan_send_inv in H0 as (ch' & Hch' & _ & ->).
    simplify_eq. eexists. split; [apply list_lookup_insert_eq; by eapply lookup_lt_Some |].
    exists k. simpl. by rewrite Hk, app_assoc.
  - (* close(c.outSpans) *)
    rewrite Hos in H0. apply chan_close_inv in H0 as (ch' & Hch' & _ & ->).
    simplify_eq. eexists. split; [apply list_lookup_insert_eq; by eapply lookup_lt_Some |].
    by exists k.
  - (* the producer sends *)
    apply chan_send_inv in H as (ch' & _ & _ & ->).
    exists cout. split; [by rewrite list_lookup_insert_ne | by exists k].
  - (* the producer closes *)
    apply chan_close_inv in H as (ch' & _ & _ & ->).
    exists cout. split; [by rewrite list_lookup_insert_ne | by exists k].
  - (* the span writer receives *)
    apply chan_recv_inv in H as (ch' & Hch' & [(q & Hq & [y ->] & ->) | (_ & _ & _ & ->)]);
      simplify_eq; [| by exists cout; split; [| exists k]].
    eexists. split; [apply list_lookup_insert_eq; by eapply lookup_lt_Some |].
    exists (k ++ [y]). simpl in *. by rewrite Hk, Hq, <- app_assoc.
Qed.

Lemma transition_stats_ledger bd (e : Eps) a (w1 w2 : World) :
  Inv t0 bd e w1 → stats_ledger w1 → transition a w1 w2 → stats_ledger w2.
Proof.
  intros HI (cs & Hcs & k & Hk) Ht.
  destruct (Inv_channels _ _ _ HI) as (Hos & _).
  destruct Ht; unfold stats_ledger; simpl; try (by exists cs; split; [| exists k]).
  - (* flush sends *)
    rewrite Hos in H2. apply chan_send_inv in H2 as (ch' & Hch' & _ & ->).
    simplify_eq. eexists. split; [apply list_lookup_insert_eq; by eapply lookup_lt_Some |].
    exists k. simpl. by rewrite Hk, app_assoc.
  - (* the stats writer receives *)
    apply chan_recv_inv in H as (ch' & Hch' & [(q & Hq & [y ->] & ->) | (_ & _ & _ & ->)]);
      simplify_eq; [| by exists cs; split; [| exists k]].
    eexists. split; [apply list_lookup_insert_eq; by eapply lookup_lt_Some |].
    exists (k ++ [y]). simpl in *. by rewrite Hk, Hq, <- app_assoc.
Qed.

Lemma reachable_channel_ledgers bd (e : Eps) sched (w : World) :
  run sched (started bd e t0) = Some w → out_ledger w ∧ stats_ledger w.
Proof.
  intros Hrun. pattern w. eapply reachable_ind; [| | exact Hrun].
  - split; (eexists; split; [done |]); by exists [].
  - intros a w1 w2 HI HF _ [HO HS] Ht.
    split; [by eapply transition_out_ledger | by eapply transition_stats_ledger].
Qed.

(** X3.  In every execution, what the producer has sent is, in order: the
    spans the ingestor has put on the outbound span channel, then the one
    span it has in hand, if any, then the spans that wait in the inbound
    channel.  What waits in the outbound channel is the last of what was put
    on it, in order.  So the spans leave in the order of their arrival, none
    is dropped, repeated or made up, and the ingestor holds at most one. *)
Theorem spans_leave_in_arrival_order bd (e : Eps) sched (w : World) :
  run sched (started bd e t0) = Some w →
  ∃ cin cout hand,
    spanChans w = [cin; cout] ∧
    queue cout `suffix_of` rev (forwarded (trace w)) ∧
    rev (produced (trace w)) = rev (forwarded (trace w)) ++ hand ++ queue cin ∧
    (length hand ≤ 1)%nat.
Proof.
  intros Hrun. pose proof (reachable_Inv _ _ _ _ Hrun) as HI.
  destruct (reachable_channel_ledgers _ _ _ _ Hrun) as [(cout & Hout & Hsuf) _].
  destruct (run_Flow _ _ _ _ _ (started_Inv bd e) (started_Flow bd e) Hrun)
    as (cin & ich & ip & Hin & _ & Hq & Hflow & _).
  destruct (Inv_spanChans _ _ _ HI) as (cin' & cout' & Hsp).
  rewrite Hsp in Hin, Hout. simplify_eq/=.
  exists cin, cout.
  destruct ip; simpl in Hflow; destruct Hflow as [H1 H2].
  1,2,7: exists []; (split; [done |]); (split; [done |]);
    rewrite Hq, H2, H1; split; [done | simpl; lia].
  1,2,3: exists [s]; (split; [done |]); (split; [done |]);
    rewrite Hq, H2, H1; simpl; rewrite <- app_assoc; split; [done | lia].
  exists [s]. split; [done |]. split; [done |].
  rewrite Hq, <- H1, H2. simpl. rewrite <- app_assoc. split; [done | lia].
Qed.

(** X4.  In every execution the stats channel is open, and what waits in it
    is the last of what [flush] has sent, in the order of the rotations;
    each bucket in it is encoded and carries [eps]. *)
Theorem stats_leave_in_rotation_order bd (e : Eps) sched (w : World) :
  run sched (started bd e t0) = Some w →
  ∃ cs,
    statsChans w = [cs] ∧ closed cs = false ∧
    queue cs `suffix_of` rev (map snd (emitted (trace w))) ∧
    Forall (λ v, model.Encoded v = true ∧ model.Epsilon v = e) (queue cs).
Proof.
  intros Hrun. pose proof (reachable_Inv _ _ _ _ Hrun) as HI.
  destruct (reachable_channel_ledgers _ _ _ _ Hrun) as [_ (cs & Hcs & Hsuf)].
  destruct (reachable_ledger _ _ _ _ Hrun) as (_ & HS & _).
  destruct (Inv_channels _ _ _ HI) as (_ & _ & _ & _ & _ & cs' & Hst & Hcl).
  rewrite Hst in Hcs. simplify_eq/=.
  exists cs. repeat split; try done.
  apply Forall_forall. intros v Hv.
  destruct Hsuf as [k Hk].
  assert (In v (map snd (emitted (trace w)))) as Hin.
  { apply in_rev. rewrite Hk. apply in_or_app. by right. }
  apply in_map_iff in Hin as ([p v'] & Heq & Hin). simpl in Heq. subst v'.
  apply In_emitted, in_split in Hin as (l1 & l2 & Hl).
  rewrite Hl in HS. apply sent_ledger_at in HS. tauto.
Qed.

(** ** Panics *)

Lemma transition_exit_ledger bd (e : Eps) a (w1 w2 : World) :
  Inv t0 bd e w1 → exit_ledger w1 → transition a w1 w2 → exit_ledger w2.
Proof.
  intros HI (ce & Hce & Hq & Hex & Hcl) Ht.
  destruct (Inv_channels _ _ _ HI) as (_ & _ & _ & Hexit & _).
  destruct Ht; unfold exit_ledger; simpl;
    try (by exists ce; repeat split; [done.. | intros [| ]; [done | by apply Hex]
                                     | intros Hc; right; by apply Hcl]);
    try (by exists ce).
  - (* the select takes the exit case *)
    rewrite Hexit in H0.
    apply chan_recv_inv in H0 as (ce' & Hce' & [(q & Hq' & [y ->] & ->)
                                                   | (_ & Hc & _ & ->)]);
      simplify_eq/=; [congruence |].
    exists ce. repeat split; try done. intros Hcl'. right. by apply Hcl.
  - (* the host closes the exit channel *)
    apply chan_close_inv in H as (ce' & Hce' & _ & ->). simplify_eq.
    eexists. split; [apply list_lookup_insert_eq; by eapply lookup_lt_Some |].
    simpl. repeat split; try done. by left.
Qed.

Lemma array_get_panics {A : Type} (a : array2 A) i r :
  array_get a i = Panics r → r = IndexOutOfRange.
Proof. unfold array_get. repeat case_match; congruence. Qed.

Lemma chan_send_panics {A : Type} i (x : A) st r :
  chan_send (Some i) x st = Panics r →
  r = SendOnClosedChannel ∧ ∃ ch, st !! i = Some ch ∧ closed ch = true.
Proof.
  unfold chan_send. destruct (st !! i) as [ch |]; [| done].
  destruct (closed ch) eqn:Hcl; [| done]. intros [= <-]. eauto.
Qed.

(** The ingestor panics in its send and nowhere else. *)
Lemma ingestor_step_panics bd (e : Eps) (w : World) ch pc r :
  Inv t0 bd e w → ingestor w = Some (ch, pc) →
  ingestor_step ch pc w = Panics r →
  r = SendOnClosedChannel ∧ (∃ s, pc = ISend s) ∧
  ∃ cout, spanChans w !! hostOut = Some cout ∧ closed cout = true.
Proof.
  intros HI Hi Hp. destruct (Inv_channels _ _ _ HI) as (_ & Hos & _).
  destruct pc; simpl in Hp; try done.
  - destruct (chan_recv ch (spanChans w)) as [[[s |] st] | r' |] eqn:Hr; try done.
    by destruct (chan_recv_no_panic _ _ _ Hr).
  - exfalso. destruct HI. simpl in *. simplify_eq.
    match goal with H : ingest_inv _ _ _ |- _ => destruct H as [p Hp'] end.
    by rewrite Hp' in Hp.
  - exfalso. destruct HI. simpl in *. simplify_eq.
    match goal with H : ingest_inv _ _ _ |- _ => destruct H as (p & -> & Hlt) end.
    unfold bucket_call, deref in Hp. simpl in Hp.
    destruct (lookup_lt_is_Some_2 _ _ Hlt) as [bk Hbk]. by rewrite Hbk in Hp.
  - rewrite Hos in Hp.
    destruct (chan_send _ _ _) as [st | r' |] eqn:Hs; simplify_eq/=.
    apply chan_send_panics in Hs as [-> Hc]. eauto.
Qed.

(** [bucketCloser] does not panic. *)
Lemma closer_step_no_panic bd (e : Eps) (w : World) now pc r :
  Inv t0 bd e w → crashed w = None → closer w = Some pc →
  closer_step now pc w ≠ Panics r.
Proof.
  intros HI Hcr Hc Hp.
  assert (step (RunCloser now) w = Some (crash Closer r w)) as Hstep.
  { unfold step. by rewrite Hcr, Hc, Hp. }
  apply (step_Inv _ _ _ _ _ HI) in Hstep.
  inversion Hstep as [? ? ? ? ? ? ? ? ? ? ? ? ? ? ? ? ? ? ? Hcrash].
  by destruct Hcrash.
Qed.

Lemma transition_crash_shape bd (e : Eps) a (w1 w2 : World) :
  Inv t0 bd e w1 → crashed w1 = None → transition a w1 w2 → crash_shape w2.
Proof.
  intros HI Hcr Ht. destruct Ht; try (by left).
  - destruct (ingestor_step_panics _ _ _ _ _ _ HI H H0) as (-> & [s ->] & Hout).
    right. simpl. eauto 10.
  - by destruct (closer_step_no_panic _ _ _ _ _ _ HI Hcr H H0).
Qed.

Lemma reachable_crash_shape bd (e : Eps) sched (w : World) :
  run sched (started bd e t0) = Some w → crash_shape w ∧ exit_ledger w.
Proof.
  intros Hrun. pattern w. eapply reachable_ind; [| | exact Hrun].
  - split; [by left |]. exists open_chan. repeat split; [by intros [| []] | done].
  - intros a w1 w2 HI _ Hcr [_ HE] Ht.
    split; [by eapply transition_crash_shape | by eapply transition_exit_ledger].
Qed.

(** X5.  With a host that sends on and closes the inbound channel, closes
    the exit channel, waits on the group and receives from the outbound
    channels, the process panics in one way only: the ingestor sends
    ([c.outSpans <- s]) when [bucketCloser] has closed the outbound span
    channel.  The panic is the last event; before it, the host
    has closed the exit channel, the [select] has taken the exit case and
    [bucketCloser] has closed the channel.  So [bucketCloser] never panics,
    and nothing panics as long as the host has not signalled the exit. *)
Theorem panic_only_in_send_after_close bd (e : Eps) sched (w : World) :
  run sched (started bd e t0) = Some w →
  crashed w = None ∨
  (crashed w = Some (Ingestor, SendOnClosedChannel) ∧
   ∃ ch s tr cin cout,
     ingestor w = Some (ch, ISend s) ∧
     trace w = EvPanic Ingestor SendOnClosedChannel :: tr ∧
     spanChans w = [cin; cout] ∧ closed cout = true ∧
     (closer w = Some CDone ∨ closer w = Some CReturned) ∧
     In (EvClose SpanChan (outSpans (conc w))) tr ∧ In EvExit tr ∧
     In EvHostExit tr).
Proof.
  intros Hrun. pose proof (reachable_Inv _ _ _ _ Hrun) as HI.
  destruct (reachable_crash_shape _ _ _ _ Hrun)
    as [[Hcr | (Hcr & (ch & s & Hi) & (cout & Hout & Hcl) & tr & Htr)]
        (ce & Hce & _ & Hex & Hhost)]; [by left | right].
  split; [done |].
  destruct (Inv_spanChans _ _ _ HI) as (cin & cout' & Hsp).
  rewrite Hsp in Hout. simplify_eq/=.
  destruct (Inv_channels _ _ _ HI) as (_ & Hos & _).
  assert (∃ pc, closer w = Some pc) as [pc Hpc] by (destruct HI; simpl; eauto).
  destruct (Inv_shutdown _ _ _ _ HI Hpc) as (cin' & cout' & n & Hsp' & _ & Hsh).
  rewrite Hsp in Hsp'. simplify_eq.
  destruct (Inv_shutdown_log _ _ _ _ HI Hpc) as (lg & Hlg & _).
  assert (In (EvClose SpanChan (Some hostOut)) (trace w) ∧ In EvExit (trace w)
          ∧ (pc = CDone ∨ pc = CReturned)) as (Hc1 & Hc2 & Hc3).
  { rewrite <- (In_closer_events (EvClose SpanChan (Some hostOut)) (trace w)) by done.
    rewrite <- (In_closer_events EvExit (trace w)) by done. rewrite Hlg.
    destruct pc; simpl in Hsh; destruct Hsh as [_ Hsh];
      try congruence; simpl; tauto. }
  exists ch, s, tr, cin', cout'. rewrite Hos, Hpc.
  pose proof (Hhost (Hex Hc2)) as Hc4.
  rewrite Htr in Hc1, Hc2, Hc4.
  destruct Hc1 as [| Hc1]; [done |]. destruct Hc2 as [| Hc2]; [done |].
  destruct Hc4 as [| Hc4]; [done |].
  repeat split; try done. destruct Hc3 as [-> | ->]; eauto.
Qed.

(** ** The wait group *)

(** X6.  In every execution, the Concentrator being the only user of the
    wait group, [exitGroup.Wait()] returns exactly when [bucketCloser] either
    has not yet run its first statement, [Add(1)], or has returned; in the
    second case the outbound span channel is closed.  From [Add(1)] to
    [Done()] the caller stays blocked. *)
Theorem Wait_returns_only_at_rest bd (e : Eps) sched (w w' : World) :
  run sched (started bd e t0) = Some w →
  step HostWait w = Some w' →
  (waiter w' = WReleased ↔ closer w = Some CAdd ∨ closer w = Some CReturned) ∧
  (waiter w' = WReleased ∨ waiter w' = WBlocked) ∧
  (closer w = Some CReturned →
   ∃ cin cout, spanChans w' = [cin; cout] ∧ closed cout = true).
Proof.
  intros Hrun Hstep. pose proof (reachable_Inv _ _ _ _ Hrun) as HI.
  assert (∃ pc, closer w = Some pc) as [pc Hpc] by (destruct HI; simpl; eauto).
  destruct (Inv_shutdown _ _ _ _ HI Hpc) as (cin & cout & n & Hsp & Hwg & Hsh).
  rewrite Hpc.
  apply step_transition in Hstep. inversion Hstep as [| | | | | | | | | | | | | | | |
    | | | | | | | | | | | | w1 Hw Hn | w1 n' Hw Hn Hne | |]; subst; simpl.
  - rewrite Hwg in Hn. simplify_eq/=.
    split; [| split; [by left |]].
    + split; [intros _ | done]. destruct pc; simpl in Hsh; destruct Hsh; try done; eauto.
    + intros [= ->]. simpl in Hsh. destruct Hsh. eauto.
  - rewrite Hwg in Hn. simplify_eq/=.
    split; [| split; [by right |]].
    + split; [done |]. intros [[= ->] | [= ->]]; simpl in Hsh; by destruct Hsh.
    + intros [= ->]. simpl in Hsh. destruct Hsh. eauto.
Qed.

(** ** A Concentrator without ticker *)

Lemma rotation_log_zero c t (lg : list event) : rotation_log t0 0 c t lg → c = 0.
Proof. by inversion 1. Qed.

Lemma transition_idle bd (e : Eps) a (w1 w2 : World) :
  new_ticker bd = None →
  Inv t0 bd e w1 → idle w1 → transition a w1 w2 → idle w2.
Proof.
  intros Hbd HI (Htk & Hrot & pc0 & Hpc & Hf) Ht.
  destruct (Inv_eps _ _ _ HI) as [_ Hd].
  destruct Ht; unfold idle; simpl; rewrite ?Hd, ?Hbd;
    try (by repeat split; eauto);
    try (rewrite Hpc in *; by simplify_eq/=);
    congruence.
Qed.

Lemma reachable_idle bd (e : Eps) sched (w : World) :
  new_ticker bd = None → run sched (started bd e t0) = Some w → idle w.
Proof.
  intros Hbd Hrun. pattern w. eapply reachable_ind; [| | exact Hrun].
  - repeat split. by exists CAdd.
  - intros a w1 w2 HI _ _ Hid Ht. by eapply transition_idle.
Qed.

(** X7.  When [time.Tick] gives no ticker, because the period
    [time.Duration(c.bucketDuration) * time.Second] is not positive, no
    rotation ever begins: in every execution no bucket is allocated beyond
    the first, none is stamped or sent, the first bucket stays the current
    one, and every span handled goes into it. *)
Theorem no_ticker_no_rotation bd (e : Eps) sched (w : World) :
  new_ticker bd = None →
  run sched (started bd e t0) = Some w →
  ticker w = None ∧ rotations (trace w) = 0%nat ∧
  emitted (trace w) = [] ∧ stamped (trace w) = [] ∧
  length (heap w) = 1%nat ∧
  currentBucket (conc w) = 0 ∧ openBucket (conc w) = (Some 0%nat, None) ∧
  ∀ p s, In (EvHandle p s) (trace w) → p = 0%nat.
Proof.
  intros Hbd Hrun. pose proof (reachable_Inv _ _ _ _ Hrun) as HI.
  destruct (reachable_idle _ _ _ _ Hbd Hrun) as (Htk & Hrot & pc & Hpc & Hf).
  destruct (Inv_resting _ _ _ _ HI Hpc Hf)
    as (pre & k & t & lg0 & b & Hpre & Hlg & Hlog & Hs & Hlen & Hb & _).
  destruct (resting_prefix_quiet _ _ Hpre Hf) as (He & Hst & _ & Hr).
  destruct (rotation_log_history _ _ _ _ Hlog) as (Hk & _ & Hem & Hsm & _).
  assert (k = 0%nat) as ->.
  { rewrite <- (rotations_closer_events (trace w)), Hlg, rotations_app, Hr, Hk in Hrot.
    done. }
  pose proof (rotation_log_zero _ _ _ Hlog) as Hc0.
  apply nil_length_inv in Hem, Hsm.
  rewrite <- (emitted_closer_events (trace w)), <- (stamped_closer_events (trace w)), Hlg.
  rewrite emitted_app, stamped_app, He, Hst, Hem, Hsm. simpl.
  destruct Hs as [[_ Hs] | [? _]]; [| congruence].
  repeat split; try done.
  intros p s Hin. apply absorbed_by_In in Hin.
  destruct (reachable_ledger _ _ _ _ Hrun) as (HL & _).
  pose proof (HL p) as Hp. destruct p as [| p]; [done |].
  rewrite lookup_ge_None_2 in Hp by lia. by rewrite Hp in Hin.
Qed.

(** X8.  The period of the ticker is computed in [int64] nanoseconds.  For a
    [bucketDuration] from 1 to 9223372036 seconds there is a ticker; for 0
    and for a negative [bucketDuration] down to -9223372036 there is none;
    and from 9223372037 to 18446744073 the product overflows to a negative
    period, so that there is no ticker either. *)
Theorem new_ticker_range (bd : Z) :
  -9223372036 ≤ bd ≤ 18446744073 →
  new_ticker bd = if (0 <? bd) && (bd <=? 9223372036) then Some false else None.
Proof.
  intros Hbd. unfold new_ticker, wrap64.
  rewrite (Z.mod_small (bd + _)) by lia.
  replace (bd + 9223372036854775808 - 9223372036854775808) with bd by lia.
  destruct (Z.leb_spec bd 9223372036) as [Hle | Hgt].
  - rewrite Z.mod_small by lia.
    replace (bd * 1000000000 + 9223372036854775808 - 9223372036854775808)
      with (bd * 1000000000) by lia.
    rewrite andb_true_r.
    destruct (Z.ltb_spec 0 bd), (Z.ltb_spec 0 (bd * 1000000000)); try done; lia.
  - rewrite andb_false_r.
    replace (bd * 1000000000 + 9223372036854775808)
      with (bd * 1000000000 - 9223372036854775808 + 1 * 18446744073709551616) by lia.
    rewrite Z.mod_add by lia. rewrite Z.mod_small by lia.
    destruct (Z.ltb_spec 0 (bd * 1000000000 - 9223372036854775808
                            - 9223372036854775808)); [lia | done].
Qed.

(** ** [Start] without [Init] *)

Lemma stalled_ingestor (w : World) ch pc :
  stalled w → ingestor w = Some (ch, pc) → pc = IRange ∨ pc = IRecv ∧ ch = None.
Proof. intros (_ & _ & _ & (ch' & pc' & Hi & H) & _) Hi'. congruence. Qed.

Lemma stalled_closer (w : World) pc :
  stalled w → closer w = Some pc → pc ≠ CDone ∧ pc ≠ CReturned.
Proof. intros (_ & _ & _ & _ & (pc' & Hc & H) & _) Hc'. congruence. Qed.

Lemma transition_stalled a (w1 w2 : World) :
  stalled w1 → transition a w1 w2 → stalled w2.
Proof.
  intros Hst Ht.
  pose proof (stalled_ingestor w1) as Hing. pose proof (stalled_closer w1) as Hclo.
  destruct Hst as (Hin & Hos & Hout & Hi & Hc & Htr) eqn:Heq.
  destruct Ht; unfold stalled; simpl;
    try (destruct (Hing _ _ ltac:(done) ltac:(done)) as [? | [? ?]]; simplify_eq/=);
    try (destruct (Hclo _ ltac:(done) ltac:(done)) as [? ?]);
    try (rewrite ?Hout, ?Hos in *; done);
    try (by repeat split; eauto 10).
Qed.

Lemma started_without_Init_stalled bd (e : Eps) :
  stalled (started_without_Init (Span:=Span) t0 bd e).
Proof.
  repeat split; simpl; eauto 10.
Qed.

Lemma needs_channel_quiet (tr : list event) :
  Forall (λ ev, needs_channel ev = false) tr →
  received tr = [] ∧ handled tr = [] ∧ forwarded tr = [] ∧ emitted tr = [] ∧
  closes tr = [] ∧ ¬ In EvDone tr.
Proof.
  induction 1 as [| ev tr Hev _ IH]; [by repeat split; try intros [] |].
  destruct IH as (? & ? & ? & ? & ? & ?).
  destruct ev; simplify_eq/=; repeat split; try done; by intros [|].
Qed.

(** X9.  [NewConcentrator] leaves the three work channels nil, and only
    [Init] sets them.  When [Start] is called without [Init], in every
    execution: the ingestor never receives, handles or forwards a span; no
    bucket is ever sent; no channel is closed and [Done] is never called;
    and when [bucketCloser] comes to its [close(c.outSpans)], after the exit
    case of its [select], it panics on the nil channel. *)
Theorem Start_without_Init_stalls bd (e : Eps) sched (w : World) :
  run sched (started_without_Init t0 bd e) = Some w →
  (received (trace w) = [] ∧ handled (trace w) = [] ∧ forwarded (trace w) = [] ∧
   emitted (trace w) = [] ∧ closes (trace w) = [] ∧ ¬ In EvDone (trace w)) ∧
  (∀ now, crashed w = None → closer w = Some CClose →
     step (RunCloser now) w = Some (crash Closer CloseOfNilChannel w)).
Proof.
  intros Hrun.
  assert (stalled w) as Hst.
  { pattern w. eapply run_ind; [apply started_without_Init_stalled | | exact Hrun].
    intros a w1 w2 H1 Hs. eapply transition_stalled; [done |].
    by apply step_transition. }
  destruct Hst as (_ & _ & Hout & _ & _ & Htr).
  split; [by apply needs_channel_quiet |].
  intros now Hcr Hc. unfold step. rewrite Hcr, Hc. simpl. by rewrite Hout.
Qed.

(** ** Before [Start] *)

(** X10.  As [NewConcentrator] returns it, and until [Start] has stored the
    first bucket, the current slot of the ring is nil; [HandleNewSpan] and
    [flush] on a Concentrator whose current slot is nil panic with a nil
    dereference ([flush] when it stamps, after it has allocated the next
    bucket). *)
Theorem calls_before_Start_panic (w : World) s t_new t_now :
  array_get (openBucket (conc w)) (currentBucket (conc w)) = Returns None →
  HandleNewSpan s w = Panics NilDereference ∧
  flush t_new t_now w = Panics NilDereference.
Proof.
  intros Hget. split.
  - unfold HandleNewSpan. by rewrite Hget.
  - unfold flush, flush_alloc, flush_stamp.
    destruct (openBucket (conc w)) as [s0 s1] eqn:Hs.
    unfold array_get in Hget.
    destruct (Z.eqb_spec (currentBucket (conc w)) 0) as [H0 | H0].
    + injection Hget as ->. rewrite H0. change (next_index 0) with 1.
      simpl. by rewrite H0.
    + destruct (Z.eqb_spec (currentBucket (conc w)) 1) as [H1 | H1]; [| done].
      injection Hget as ->. rewrite H1. change (next_index 1) with 0.
      simpl. by rewrite H1.
Qed.

(** ** Sequential use *)

Lemma HandleNewSpan_ready (e : Eps) start cur q (w : World) s :
  ready e start cur q w →
  ∃ w', HandleNewSpan s w = Returns w' ∧ ready e start (cur ++ [s]) q w'.
Proof.
  intros (k & x & Hs & Hk & He & Hos & Hst).
  unfold HandleNewSpan, bucket_call, deref.
  rewrite (slots_are_current _ _ _ _ Hs). simpl. rewrite Hk. simpl.
  eexists. split; [reflexivity |]. exists k, x. simpl.
  repeat split; try done.
  rewrite list_lookup_insert_eq; [done | by eapply lookup_lt_Some].
Qed.

Lemma flush_ready (e : Eps) start cur q (w : World) t_new t_now :
  ready e start cur q w →
  ∃ w', flush t_new t_now w = Returns w' ∧
        ready e t_new []
          (q ++ [model.mkStatsBucket start (t_now - start) e cur true]) w'.
Proof.
  intros (k & x & Hs & Hk & He & Hos & Hst).
  set (c := currentBucket (conc w)) in *.
  set (b := model.mkStatsBucket start 0 e cur false) in *.
  assert (c = 0 ∨ c = 1) as Hc by (destruct Hs as [[? _] | [? _]]; eauto).
  assert (next_index c = 1 - c) as Hnext by (by apply next_index_flip).
  pose proof (lookup_lt_Some _ _ _ Hk) as Hlt.
  (* allocate *)
  destruct (slots_are_set _ _ _ (Some (length (heap w))) _ Hs) as (slots1 & Hset & Hs1).
  destruct (flush_alloc_returns t_new (1 - c) w slots1 Hset)
    as (w1 & Hw1 & Hc1 & Hh1 & Hst1 & Htr1).
  (* stamp *)
  assert (array_get (openBucket (conc w1)) (currentBucket (conc w1)) = Returns (Some k))
    as Hget1 by (rewrite Hc1; simpl; by eapply slots_are_current).
  assert (heap w1 !! k = Some b) as Hb1 by (by rewrite Hh1, lookup_app_l).
  destruct (flush_stamp_returns t_now w1 k b Hget1 Hb1)
    as (w2 & Hw2 & Hc2 & Hh2 & Hst2 & Htr2).
  (* flip, and the drain slot *)
  set (w3 := flush_flip (1 - c) w2).
  assert (openBucket (conc w3) = slots1) as Hsl3.
  { unfold w3. simpl. by rewrite Hc2, Hc1. }
  assert (next_index (1 - c) = c) as Hnext3.
  { destruct Hc as [Hc | Hc]; rewrite Hc; reflexivity. }
  assert (array_get (openBucket (conc w3)) c = Returns (Some k)) as Hget3.
  { rewrite Hsl3. by eapply slots_are_current. }
  assert (heap w3 !! k = Some (model.set_Duration (t_now - model.Start b) b)) as Hb3.
  { unfold w3. simpl. rewrite Hh2, list_lookup_insert_eq; [done |].
    rewrite Hh1, length_app. simpl. lia. }
  (* encode *)
  destruct (flush_encode_returns c w3 k _ Hget3 Hb3)
    as (w4 & Hw4 & Hc4 & Hh4 & Hst4 & Htr4).
  (* send *)
  assert (array_get (openBucket (conc w4)) c = Returns (Some k)) as Hget4
    by (by rewrite Hc4).
  assert (heap w4 !! k
          = Some (model.Encode (model.set_Duration (t_now - model.Start b) b))) as Hb4.
  { rewrite Hh4, list_lookup_insert_eq; [done |]. by eapply lookup_lt_Some. }
  assert (outStats (conc w4) = Some hostStats) as Hout4.
  { rewrite Hc4. unfold w3. simpl. by rewrite Hc2, Hc1. }
  assert (statsChans w4 = [mkChan q false]) as Hst4'.
  { rewrite Hst4. unfold w3. simpl. by rewrite Hst2, Hst1. }
  destruct (flush_send_returns c w4 k _ _ Hget4 Hb4 Hout4 Hst4' eq_refl)
    as (w5 & Hw5 & Hc5 & Hh5 & Hst5 & Htr5).
  exists w5. split.
  { unfold flush. fold c. rewrite Hnext, Hw1. simpl. rewrite Hw2. simpl.
    fold w3. rewrite Hnext3, (flush_check_returns c w3 k Hget3). simpl.
    rewrite Hw4. simpl. exact Hw5. }
  exists (length (heap w)), (Some k).
  assert (conc w5 = set_currentBucket (1 - c) (set_openBucket slots1 (conc w))) as Hc5'.
  { rewrite Hc5, Hc4. unfold w3. simpl. by rewrite Hc2, Hc1. }
  rewrite Hc5'. simpl.
  split. { destruct Hc as [Hc | Hc]; rewrite Hc in *; simpl;
             destruct Hs1 as [[? ->] | [? ->]]; try lia; [by right | by left]. }
  split. { rewrite Hh5, Hh4. unfold w3. simpl. rewrite Hh2, Hh1.
           rewrite !list_lookup_insert_ne by lia.
           rewrite lookup_app_r, Nat.sub_diag by lia. simpl. by rewrite He. }
  repeat split; try done.
Qed.

Lemma calls_ready (e : Eps) cs start cur q (w : World) :
  ready e start cur q w →
  ∃ w' p,
    calls cs w = Returns w' ∧
    statsChans w' = [mkChan (q ++ (buckets_of e start cur cs).1) false] ∧
    current_target w' = Some p ∧
    heap w' !! p = Some (buckets_of e start cur cs).2.
Proof.
  revert start cur q w.
  induction cs as [| [s | t_new t_now] cs IH]; intros start cur q w Hr; simpl.
  - destruct Hr as (k & x & Hs & Hk & He & Hos & Hst).
    exists w, k. rewrite app_nil_r. repeat split; try done.
    unfold current_target. by rewrite (slots_are_current _ _ _ _ Hs).
  - destruct (HandleNewSpan_ready _ _ _ _ _ s Hr) as (w1 & -> & Hr1). simpl.
    by apply IH.
  - destruct (flush_ready _ _ _ _ _ t_new t_now Hr) as (w1 & -> & Hr1). simpl.
    destruct (IH _ _ _ _ Hr1) as (w' & p & Hcalls & Hst & Hp & Hhp).
    destruct (buckets_of e t_new [] cs) as [sent last]. simpl in *.
    exists w', p. rewrite <- app_assoc in Hst. done.
Qed.

(** X11.  When [HandleNewSpan] and [flush] are called one after the other
    on a started Concentrator, none overlapping another, every call returns,
    and the stats channel receives one bucket for each [flush], in order:
    the bucket that was open, with the spans handled since the flush before
    (since [Start] for the first), the [Start] of its allocation and
    [Duration = now - Start], encoded.  The current bucket then holds the
    spans handled since the last [flush]. *)
Theorem sequential_calls_fill_buckets bd (e : Eps) (cs : list (call Span)) :
  ∃ w p,
    calls cs (started bd e t0) = Returns w ∧
    statsChans w = [mkChan (buckets_of e t0 [] cs).1 false] ∧
    current_target w = Some p ∧
    heap w !! p = Some (buckets_of e t0 [] cs).2.
Proof.
  apply (calls_ready e cs t0 [] [] (started bd e t0)).
  exists 0%nat, None. repeat split. by left.
Qed.

(** ** A span that arrives as a rotation begins *)

Lemma run_app sched1 sched2 (w : World) :
  run (sched1 ++ sched2) w = run sched1 w ≫= run sched2.
Proof.
  revert w. induction sched1 as [| a l IH]; intros w; simpl; [done |].
  by destruct (step a w).
Qed.

(** X12.  [HandleNewSpan] and [flush] are not exclusive of each other.  When
    a rotation runs between the load of [c.openBucket[c.currentBucket]] and
    the call of [HandleSpan] on it, the span is absorbed by the bucket that
    the rotation has closed and sent: the span is handled, but the copy on
    the stats channel does not hold it, and the bucket is no longer the
    current one. *)
Theorem late_span_misses_the_bucket_sent bd (e : Eps) (s : Span) t :
  new_ticker bd = Some false →
  ∃ w v b,
    run (late_handle s t) (started bd e t0) = Some w ∧
    closer w = Some CSelect ∧ crashed w = None ∧
    handled (trace w) = [s] ∧ absorbed_by 0 (trace w) = [s] ∧
    emitted (trace w) = [(0%nat, v)] ∧ model.Absorbed v = [] ∧
    heap w !! 0%nat = Some b ∧ model.Absorbed b = [s] ∧ model.Encoded b = true ∧
    current_target w = Some 1%nat.
Proof.
  intros Hbd.
  assert (run [RunCloser t; RunCloser t] (started bd e t0)
          = Some (set_closer (Some CSelect) (set_ticker (new_ticker bd)
                    (log EvAdd (set_waitGroups [1] (started (Span:=Span) bd e t0))))))
    as H1 by (lazy -[new_ticker]; reflexivity).
  rewrite Hbd in H1.
  change (late_handle s t)
    with ([RunCloser t; RunCloser t] ++ skipn 2 (late_handle s t)).
  rewrite run_app, H1. clear H1. change (Some ?w ≫= ?f) with (f w).
  vm_compute. eexists _, _, _. repeat split; reflexivity.
Qed.

(** ** Draining the inbound channel *)

(** The cases of [transition] are steps. *)
Lemma transition_step a (w w' : World) :
  crashed w = None → transition a w w' → step a w = Some w'.
Proof.
  intros Hcr Ht. unfold step. rewrite Hcr.
  destruct Ht;
    repeat match goal with
           | H : ingestor _ = _ |- _ => rewrite H; clear H
           | H : closer _ = _ |- _ => rewrite H; clear H
           | H : _ = Returns _ |- _ => rewrite H; clear H
           end;
    simpl;
    unfold bucket_call, flush_alloc, flush_stamp, flush_check, flush_encode,
      flush_send, deref;
    repeat match goal with
           | H : _ = Returns _ |- _ => rewrite H; clear H; simpl
           | H : _ = Panics _ |- _ => rewrite H; clear H; simpl
           | H : _ !! _ = Some _ |- _ => rewrite H; clear H; simpl
           | H : ticker _ = _ |- _ => rewrite H; clear H; simpl
           end;
    try done.
  - destruct (waiter w); done.
  - destruct (n =? 0) eqn:Hz; [by apply Z.eqb_eq in Hz |]. by destruct (waiter w).
Qed.

Lemma Inv_ILoad bd (e : Eps) (w : World) ch s i :
  Inv t0 bd e w → ingestor w = Some (ch, ILoad s i) →
  ∃ p, array_get (openBucket (conc w)) i = Returns (Some p).
Proof. intros [] [= -> ->]. done. Qed.

Lemma Inv_ICall bd (e : Eps) (w : World) ch s b :
  Inv t0 bd e w → ingestor w = Some (ch, ICall s b) →
  ∃ p bk, b = Some p ∧ heap w !! p = Some bk.
Proof.
  intros [] [= -> ->]. simpl.
  match goal with H : ingest_inv _ _ _ |- _ => destruct H as (p & -> & Hlt) end.
  destruct (lookup_lt_is_Some_2 _ _ Hlt) as [bk Hbk]. eauto.
Qed.

Lemma run_cons a sched (w w1 : World) :
  step a w = Some w1 → run (a :: sched) w = run sched w1.
Proof. intros H. simpl. by rewrite H. Qed.

(** One span through the loop of the ingestor and on to the span writer. *)
Lemma drain_one bd (e : Eps) (w : World) x q cl :
  Inv t0 bd e w → crashed w = None →
  ingestor w = Some (Some hostIn, IRecv) →
  spanChans w = [mkChan (x :: q) cl; mkChan [] false] →
  ∃ w',
    run [RunIngestor; RunIngestor; RunIngestor; RunIngestor; RunIngestor;
         HostRecvSpan] w = Some w' ∧
    Inv t0 bd e w' ∧ crashed w' = None ∧
    ingestor w' = Some (Some hostIn, IRecv) ∧
    spanChans w' = [mkChan q cl; mkChan [] false] ∧
    forwarded (trace w') = x :: forwarded (trace w) ∧
    closer w' = closer w.
Proof.
  intros HI Hcr Hi Hsp.
  (* receive *)
  set (w1 := set_ingestor (Some (Some hostIn, IIndex x))
               (log (EvRecv x) (set_spanChans [mkChan q cl; mkChan [] false] w))).
  assert (step RunIngestor w = Some w1) as H1.
  { apply transition_step; [done |]. eapply t_recv; [done |]. by rewrite Hsp. }
  pose proof (step_Inv _ _ _ _ _ HI H1) as HI1.
  (* read the index *)
  set (w2 := set_ingestor (Some (Some hostIn, ILoad x (currentBucket (conc w1)))) w1).
  assert (step RunIngestor w1 = Some w2) as H2.
  { apply transition_step; [done |]. by eapply t_index. }
  pose proof (step_Inv _ _ _ _ _ HI1 H2) as HI2.
  (* load the slot *)
  destruct (Inv_ILoad _ _ _ _ _ _ HI2 eq_refl) as [p Hp].
  set (w3 := set_ingestor (Some (Some hostIn, ICall x (Some p))) w2).
  assert (step RunIngestor w2 = Some w3) as H3.
  { apply transition_step; [done |]. by eapply t_load. }
  pose proof (step_Inv _ _ _ _ _ HI2 H3) as HI3.
  (* HandleSpan *)
  destruct (Inv_ICall _ _ _ _ _ _ HI3 eq_refl) as (p' & bk & [= <-] & Hbk).
  set (w4 := set_ingestor (Some (Some hostIn, ISend x))
               (log (EvHandle p x)
                  (set_heap (<[p := model.HandleSpan x bk]> (heap w3)) w3))).
  assert (step RunIngestor w3 = Some w4) as H4.
  { apply transition_step; [done |]. by eapply t_call. }
  pose proof (step_Inv _ _ _ _ _ HI3 H4) as HI4.
  (* forward *)
  destruct (Inv_channels _ _ _ HI4) as (_ & Hos & _).
  set (w5 := set_ingestor (Some (Some hostIn, IRecv))
               (log (EvForward x)
                  (set_spanChans [mkChan q cl; mkChan [x] false] w4))).
  assert (step RunIngestor w4 = Some w5) as H5.
  { apply transition_step; [done |]. eapply t_forward; [done |]. by rewrite Hos. }
  pose proof (step_Inv _ _ _ _ _ HI4 H5) as HI5.
  (* the span writer receives *)
  set (w6 := set_spanChans [mkChan q cl; mkChan [] false] w5).
  assert (step HostRecvSpan w5 = Some w6) as H6.
  { apply transition_step; [done |]. eapply t_host_recv_span. reflexivity. }
  pose proof (step_Inv _ _ _ _ _ HI5 H6) as HI6.
  exists w6. split.
  { rewrite (run_cons _ _ _ _ H1), (run_cons _ _ _ _ H2), (run_cons _ _ _ _ H3),
      (run_cons _ _ _ _ H4), (run_cons _ _ _ _ H5), (run_cons _ _ _ _ H6). done. }
  by repeat split.
Qed.

Lemma drain_all bd (e : Eps) q (w : World) :
  Inv t0 bd e w → crashed w = None →
  ingestor w = Some (Some hostIn, IRecv) →
  spanChans w = [mkChan q true; mkChan [] false] →
  ∃ w',
    run (drain (length q)) w = Some w' ∧ crashed w' = None ∧
    ingestor w' = Some (Some hostIn, IReturned) ∧
    spanChans w' = [mkChan [] true; mkChan [] false] ∧
    rev (forwarded (trace w')) = rev (forwarded (trace w)) ++ q ∧
    closer w' = closer w.
Proof.
  revert w. induction q as [| x q IH]; intros w HI Hcr Hi Hsp.
  - exists (set_ingestor (Some (Some hostIn, IReturned)) (log EvIngestorReturns w)).
    split; [| by rewrite app_nil_r].
    unfold drain. simpl concat. simpl app. apply run_cons with (sched := []) (w1 := _).
    apply transition_step; [done |]. eapply t_drained; [done |]. by rewrite Hsp.
  - destruct (drain_one _ _ _ _ _ _ HI Hcr Hi Hsp)
      as (w1 & Hrun1 & HI1 & Hcr1 & Hi1 & Hsp1 & Hf1 & Hc1).
    destruct (IH w1 HI1 Hcr1 Hi1 Hsp1) as (w' & Hrun & Hcr' & Hi' & Hsp' & Hf' & Hc').
    exists w'. split.
    { unfold drain in *. simpl length. simpl replicate. simpl concat.
      rewrite <- !app_comm_cons. simpl app.
      change (RunIngestor :: RunIngestor :: RunIngestor :: RunIngestor :: RunIngestor
                :: HostRecvSpan :: ?l)
        with ([RunIngestor; RunIngestor; RunIngestor; RunIngestor; RunIngestor;
               HostRecvSpan] ++ l).
      rewrite run_app, Hrun1. exact Hrun. }
    repeat split; try done; [| congruence].
    rewrite Hf', Hf1. simpl. by rewrite <- app_assoc.
Qed.

(** X13.  In every execution, when the ingestor is at the head of its loop,
    the producer has closed the inbound channel, the outbound span channel
    is open and empty, and only the ingestor and the span writer run: the
    ingestor receives, handles and forwards each span that still waits in
    the inbound channel, in order, the span writer receiving each as it is
    sent; then the ingestor finds the channel closed and empty, and its loop
    returns.  Every span the producer has sent has then been forwarded. *)
Theorem ingestor_drains_and_returns bd (e : Eps) sched (w : World) ich q :
  run sched (started bd e t0) = Some w →
  crashed w = None →
  ingestor w = Some (ich, IRecv) →
  spanChans w = [mkChan q true; mkChan [] false] →
  ∃ w',
    run (drain (length q)) w = Some w' ∧ crashed w' = None ∧
    ingestor w' = Some (ich, IReturned) ∧
    spanChans w' = [mkChan [] true; mkChan [] false] ∧
    rev (forwarded (trace w')) = rev (forwarded (trace w)) ++ q ∧
    forwarded (trace w') = produced (trace w') ∧
    closer w' = closer w.
Proof.
  intros Hrun Hcr Hi Hsp. pose proof (reachable_Inv _ _ _ _ Hrun) as HI.
  pose proof (run_Flow _ _ _ _ _ (started_Inv bd e) (started_Flow bd e) Hrun) as HF.
  pose proof (Flow_range _ _ _ HF Hi ltac:(done)) as ->.
  destruct (drain_all _ _ _ _ HI Hcr Hi Hsp) as (w' & Hrun' & Hcr' & Hi' & Hsp' & Hf & Hc).
  exists w'. repeat split; try done.
  assert (run (sched ++ drain (length q)) (started bd e t0) = Some w') as Hall.
  { by rewrite run_app, Hrun. }
  destruct (ingestor_in_order _ _ _ _ Hall) as (ich' & ip' & Hi2 & _ & _ & Hret & _).
  rewrite Hi' in Hi2. simplify_eq. by apply Hret.
Qed.

(** ** Rotations and ticks *)

Lemma transition_ticks a (w1 w2 : World) :
  transition a w1 w2 →
  (rotations (trace w2) + pending w2
   ≤ rotations (trace w1) + pending w1 + (if is_tick a then 1 else 0))%nat.
Proof.
  intros Ht. destruct Ht; unfold pending; simpl; try lia.
  - unfold new_ticker. destruct (0 <? _); simpl; lia.
  - rewrite H0. lia.
Qed.

Lemma run_ticks sched (w0 w : World) :
  run sched w0 = Some w →
  (rotations (trace w) + pending w ≤ rotations (trace w0) + pending w0 + ticks sched)%nat.
Proof.
  revert w0. induction sched as [| a sched IH]; intros w0 Hrun; simpl in Hrun.
  - simplify_eq. unfold ticks. simpl. lia.
  - destruct (step a w0) as [w1 |] eqn:H1; [| done].
    apply step_transition, transition_ticks in H1. apply IH in Hrun.
    unfold ticks in *. simpl. destruct (is_tick a); simpl; lia.
Qed.

(** X14.  [flush] is called for a tick and for nothing else: in every
    execution there are at most as many rotations as the runtime has
    delivered ticks, not counting the tick that still waits in the ticker.  (A
    tick delivered while one waits is lost.) *)
Theorem rotations_at_most_ticks bd (e : Eps) sched (w : World) :
  run sched (started bd e t0) = Some w →
  (rotations (trace w) + pending w ≤ ticks sched)%nat.
Proof. intros Hrun. by apply run_ticks in Hrun. Qed.

(** ** The functions, statement by statement *)










End Verification.

(** * Concrete executions *)

Import Example.

Example first_rotation_log :
  (λ w, trace w) <$> run (startup ++ rotation 2) process =
  Some [EvEmit 0%nat bucket0; EvEncode 0%nat; EvFlip 1; EvStamp 0%nat 2 2;
        EvNew 1 1%nat 2; EvTick; EvAdd; EvNew 0 0%nat 0].
Proof. reflexivity. Qed.

(** The statements of [flush] as [bucketCloser] runs them one by one, and
    [flush] called as a whole, come to the same process. *)
Example flush_by_statements :
  run [TimerFires; Select OnTick] after_first = Some ticked ∧
  run (replicate 8 (RunCloser 4)) ticked = Some after_second ∧
  (λ w, set_closer (Some CSelect) w)
    <$> (match flush 4 4 ticked with Returns w => Some w | _ => None end)
  = Some after_second.
Proof. repeat split; vm_compute; reflexivity. Qed.

(** ** C1 *)

(** C1, counterexample.  After [Start] and one whole rotation at time 2,
    bucket 0 has been sent: the first rotation is not silent. *)
Lemma first_rotation_not_silent :
  run (startup ++ rotation 2) process = Some after_first ∧
  emitted (trace after_first) = [(0%nat, bucket0)] ∧
  ¬ first_rotation_silent process.
Proof.
  split; [by vm_compute |]. split; [by vm_compute |].
  intros H.
  specialize (H (startup ++ rotation 2) after_first CSelect).
  assert (emitted (trace after_first) = []) as Hnone
    by (apply H; by vm_compute).
  vm_compute in Hnone. discriminate Hnone.
Qed.

(** C1 (as amended) at the first rotation of the example. *)
Lemma first_rotation_emits_witness :
  run (startup ++ rotation 2) process = Some after_first ∧
  closer after_first = Some CSelect ∧ rotations (trace after_first) = 1%nat ∧
  (∀ slot, ¬ In (EvSkip slot) (trace after_first)) ∧
  ∃ v now t1,
    emitted (trace after_first) = [(0%nat, v)] ∧
    stamped (trace after_first) = [(0%nat, now)] ∧
    allocated (trace after_first) = [(1%nat, t1); (0%nat, 0)] ∧
    model.Start v = 0 ∧ model.Duration v = now - 0 ∧ model.Encoded v = true.
Proof.
  split; [vm_compute; reflexivity |]. split; [vm_compute; reflexivity |].
  split; [vm_compute; reflexivity |].
  apply (first_rotation_emits nat unit 0 2 tt (startup ++ rotation 2) after_first
           CSelect); vm_compute; reflexivity.
Defined.

(** ** C2 *)

(** C2, counterexample.  After two rotations, at times 2 and 4, two buckets
    have been sent, not one: bucket 0 by the first rotation and bucket 1 by
    the second. *)
Lemma two_rotations_two_buckets :
  run (startup ++ rotation 2 ++ rotation 4) process = Some after_second ∧
  rotations (trace after_second) = 2%nat ∧
  emitted (trace after_second) = [(1%nat, bucket1); (0%nat, bucket0)] ∧
  ¬ one_bucket_fewer process.
Proof.
  split; [by vm_compute |]. split; [by vm_compute |]. split; [by vm_compute |].
  intros H.
  specialize (H (startup ++ rotation 2 ++ rotation 4) after_second CSelect).
  assert (length (emitted (trace after_second))
          = (rotations (trace after_second) - 1)%nat) as Hlen.
  { apply H; vm_compute; (reflexivity || lia). }
  vm_compute in Hlen. discriminate Hlen.
Qed.

(** C2 (as amended) after two rotations of the example. *)
Lemma one_bucket_per_rotation_witness :
  run (startup ++ rotation 2 ++ rotation 4) process = Some after_second ∧
  closer after_second = Some CSelect ∧
  length (emitted (trace after_second)) = rotations (trace after_second) ∧
  ∀ i, (i < rotations (trace after_second))%nat →
    ∃ v now ti,
      rev (emitted (trace after_second)) !! i = Some (i, v) ∧
      rev (stamped (trace after_second)) !! i = Some (i, now) ∧
      rev (allocated (trace after_second)) !! i = Some (i, ti) ∧
      model.Start v = ti ∧ model.Duration v = now - ti ∧ model.Encoded v = true.
Proof.
  split; [vm_compute; reflexivity |]. split; [vm_compute; reflexivity |].
  apply (one_bucket_per_rotation nat unit 0 2 tt
           (startup ++ rotation 2 ++ rotation 4) after_second CSelect);
    vm_compute; reflexivity.
Defined.

(** ** C3 *)

(** C3, counterexample.  The second rotation sends bucket 1, which it has
    stamped itself; the bucket stamped one rotation earlier is bucket 0. *)
Lemma drain_holds_bucket_just_stamped :
  run (startup ++ rotation 2) process = Some after_first ∧
  flush 4 4 after_first = Returns flushed_again ∧
  stamped (trace after_first) = [(0%nat, 2)] ∧
  emitted (trace after_first) = [(0%nat, bucket0)] ∧
  emitted (trace flushed_again) = [(1%nat, bucket1); (0%nat, bucket0)] ∧
  ¬ drain_holds_earlier_bucket process.
Proof.
  split; [by vm_compute |]. split; [by vm_compute |]. split; [by vm_compute |].
  split; [by vm_compute |]. split; [by vm_compute |].
  intros H.
  specialize (H (startup ++ rotation 2) after_first CSelect 4 4 flushed_again
                1%nat bucket1).
  assert (In 1%nat (map fst (stamped (trace after_first)))) as Hin.
  { apply H; try (by vm_compute).
    - vm_compute. tauto.
    - vm_compute. intros [[=] | []]. }
  vm_compute in Hin. destruct Hin as [[=] | []].
Qed.

(** C3 (as amended) at the second rotation of the example. *)
Lemma flush_order_witness :
  run (startup ++ rotation 2) process = Some after_first ∧
  closer after_first = Some CSelect ∧
  ∃ p b w',
    current_target after_first = Some p ∧ heap after_first !! p = Some b ∧
    flush 4 4 after_first = Returns w' ∧
    let c := currentBucket (conc after_first) in
    let next := (c + 1) mod 2 in
    let q := length (heap after_first) in
    let d := 4 - model.Start b in
    let v := model.Encode (model.set_Duration d b) in
    trace w' =
      [EvEmit p v; EvEncode p; EvFlip next; EvStamp p 4 d; EvNew next q 4]
        ++ trace after_first ∧
    heap w' =
      <[p := v]> (heap after_first
                    ++ [model.NewStatsBucket (eps (conc after_first)) 4]) ∧
    currentBucket (conc w') = next ∧
    array_get (openBucket (conc w')) next = Returns (Some q) ∧
    array_get (openBucket (conc w')) c = Returns (Some p) ∧
    ∃ ch, statsChans after_first = [ch] ∧
          statsChans w' = [mkChan (queue ch ++ [v]) false].
Proof.
  split; [vm_compute; reflexivity |]. split; [vm_compute; reflexivity |].
  apply (flush_order nat unit 0 2 tt (startup ++ rotation 2) after_first CSelect 4 4);
    vm_compute; reflexivity.
Defined.

(** ** C4 *)

(** C4 at the send of the first rotation. *)
Lemma rotation_safety_witness :
  run (startup ++ rotation_to_send 2 2) process = Some before_send ∧
  step (RunCloser 0) before_send = Some after_first ∧
  trace after_first = EvEmit 0%nat bucket0 :: trace before_send ∧
  heap before_send !! 0%nat = Some bucket0 ∧
  (∃ ch, statsChans before_send = [ch] ∧
         statsChans after_first = [mkChan (queue ch ++ [bucket0]) false]) ∧
  (∃ now, In (EvStamp 0%nat now (model.Duration bucket0)) (trace before_send) ∧
          model.Duration bucket0 = now - model.Start bucket0) ∧
  current_target before_send ≠ Some 0%nat ∧
  current_target after_first ≠ Some 0%nat ∧
  (∀ v', ¬ In (EvEmit 0%nat v') (trace before_send)) ∧
  NoDup (map fst (emitted (trace after_first))).
Proof.
  split; [vm_compute; reflexivity |]. split; [vm_compute; reflexivity |].
  split; [vm_compute; reflexivity |].
  apply (rotation_safety nat unit 0 2 tt (startup ++ rotation_to_send 2 2)
           (RunCloser 0) before_send after_first 0%nat bucket0);
    vm_compute; reflexivity.
Defined.

(** ** C5 *)

(** C5 when the exit channel has just been closed. *)
Lemma shutdown_protocol_witness :
  run (startup ++ [HostExit]) process = Some exit_signalled ∧
  closer exit_signalled = Some CSelect ∧
  (∃ lg, closer_events (trace exit_signalled) = shutdown_log CSelect ++ lg ∧
         Forall (λ e, exit_event e = false) lg) ∧
  (closes (trace exit_signalled) = [] ∧
   ∃ cin cout n,
     spanChans exit_signalled = [cin; cout] ∧ waitGroups exit_signalled = [n] ∧
     shutdown_inv CSelect n (closed cout)) ∧
  (CSelect = CSelect → crashed exit_signalled = None →
   closed <$> exitChans exit_signalled = [true] →
   ∀ t1 t2, ∃ w',
     run [Select OnExit; RunCloser t1; RunCloser t2] exit_signalled = Some w' ∧
     closer w' = Some CReturned ∧ crashed w' = None ∧
     trace w' =
       [EvDone; EvClose SpanChan (outSpans (conc exit_signalled)); EvExit]
         ++ trace exit_signalled ∧
     conc w' = conc exit_signalled ∧ heap w' = heap exit_signalled ∧
     statsChans w' = statsChans exit_signalled) ∧
  (∀ a w', rotation_step a (closer exit_signalled) → step a exit_signalled = Some w' →
     shutdown_state w' = shutdown_state exit_signalled ∧
     (trace w' = trace exit_signalled
      ∨ ∃ ev, trace w' = ev :: trace exit_signalled ∧ shutdown_event ev = false)).
Proof.
  split; [vm_compute; reflexivity |]. split; [vm_compute; reflexivity |].
  apply (shutdown_protocol nat unit 0 2 tt (startup ++ [HostExit]) exit_signalled
           CSelect); vm_compute; reflexivity.
Defined.

(** ** C8 and C9 *)

(** C8 after two rotations of the example. *)
Lemma stats_channel_never_closed_witness :
  run (startup ++ rotation 2 ++ rotation 4) process = Some after_second ∧
  (∀ ch, In ch (statsChans after_second) → closed ch = false) ∧
  (∀ k h, In (k, h) (closes (trace after_second)) →
     k = SpanChan ∧ h = outSpans (conc after_second)).
Proof.
  split; [vm_compute; reflexivity |].
  apply (stats_channel_never_closed nat unit 0 2 tt
           (startup ++ rotation 2 ++ rotation 4) after_second);
    vm_compute; reflexivity.
Defined.

(** C9 in the middle of the first rotation, before its send. *)
Lemma current_bucket_never_nil_witness :
  run (startup ++ rotation_to_send 2 2) process = Some before_send ∧
  (currentBucket (conc before_send) = 0 ∨ currentBucket (conc before_send) = 1) ∧
  (∃ p b, current_target before_send = Some p ∧ heap before_send !! p = Some b) ∧
  (∀ s, ∃ w', HandleNewSpan s before_send = Returns w') ∧
  (∀ ch s b, ingestor before_send = Some (ch, ICall s b) →
     ∃ p bk, b = Some p ∧ heap before_send !! p = Some bk) ∧
  (∀ g r, crashed before_send = Some (g, r) →
     r ≠ NilDereference ∧ r ≠ IndexOutOfRange).
Proof.
  split; [vm_compute; reflexivity |].
  apply (current_bucket_never_nil nat unit 0 2 tt (startup ++ rotation_to_send 2 2)
           before_send); vm_compute; reflexivity.
Defined.

(** ** C7: [Wait] returns before [bucketCloser] has closed anything *)

(** C7, the failing execution.  The counter is still 0, so [Wait] returns at
    once: the exit signal has been delivered and the caller is released,
    while the outbound span channel is open and [bucketCloser] has not
    exited. *)
Lemma wait_returns_before_close :
  run [HostExit; HostWait] process = Some released_early ∧
  trace released_early = [EvWaitReturns; EvHostExit; EvNew 0 0%nat 0] ∧
  waiter released_early = WReleased ∧
  closer released_early = Some CAdd ∧
  closed <$> spanChans released_early = [false; false] ∧
  closes (trace released_early) = [].
Proof. repeat split; vm_compute; reflexivity. Qed.

(** ** C6: a span received after shutdown is not forwarded *)

(** C6, the failing execution.  The send panics on the closed channel: the
    span was handled but is not forwarded, and the ingestor has not returned
    although the inbound channel is closed and empty. *)
Lemma forward_after_close_panics :
  run late_span process = Some after_late_span ∧
  crashed after_late_span = Some (Ingestor, SendOnClosedChannel) ∧
  ingestor after_late_span = Some (Some hostIn, ISend 7%nat) ∧
  spanChans after_late_span = [mkChan [] true; mkChan [] true] ∧
  trace after_late_span =
    [EvPanic Ingestor SendOnClosedChannel; EvHandle 0%nat 7%nat;
     EvClose SpanChan (Some hostOut); EvExit; EvHostExit; EvRecv 7%nat;
     EvHostSend 7%nat; EvAdd; EvNew 0 0%nat 0].
Proof. repeat split; vm_compute; reflexivity. Qed.

(** * Concrete executions: spans, statistics and lifecycle *)

(** X1 when span 7 has been handled into the first bucket. *)
Lemma buckets_hold_the_spans_handled_witness :
  run (late_handle 7%nat 2) process = Some late_world ∧
  ((∀ p b, heap late_world !! p = Some b →
      model.Absorbed b = rev (absorbed_by p (trace late_world)) ∧
      model.Epsilon b = tt) ∧
   (∀ p s, In (EvHandle p s) (trace late_world) → (p < length (heap late_world))%nat) ∧
   length (handled (trace late_world)) = absorbed_total (heap late_world)).
Proof.
  split; [vm_compute; reflexivity |].
  apply (buckets_hold_the_spans_handled nat unit 0 2 tt (late_handle 7%nat 2) late_world).
  vm_compute; reflexivity.
Defined.

(** X2 at the copy of the first bucket, sent before span 7 was handled into
    the bucket. *)
Lemma sent_copy_holds_spans_handled_before_witness :
  run (late_handle 7%nat 2) process = Some late_world ∧
  trace late_world
    = [EvHandle 0%nat 7%nat] ++ EvEmit 0%nat bucket0 :: skipn 2 (trace late_world) ∧
  (model.Absorbed bucket0 = rev (absorbed_by 0%nat (skipn 2 (trace late_world))) ∧
   model.Epsilon bucket0 = tt ∧ model.Encoded bucket0 = true).
Proof.
  split; [vm_compute; reflexivity |]. split; [vm_compute; reflexivity |].
  apply (sent_copy_holds_spans_handled_before nat unit 0 2 tt (late_handle 7%nat 2)
           late_world [EvHandle 0%nat 7%nat] (skipn 2 (trace late_world)) 0%nat bucket0);
    vm_compute; reflexivity.
Defined.

(** X3 when the ingestor has span 7 in hand. *)
Lemma spans_leave_in_arrival_order_witness :
  run (late_handle 7%nat 2) process = Some late_world ∧
  ∃ cin cout hand,
    spanChans late_world = [cin; cout] ∧
    queue cout `suffix_of` rev (forwarded (trace late_world)) ∧
    rev (produced (trace late_world))
      = rev (forwarded (trace late_world)) ++ hand ++ queue cin ∧
    (length hand ≤ 1)%nat.
Proof.
  split; [vm_compute; reflexivity |].
  apply (spans_leave_in_arrival_order nat unit 0 2 tt (late_handle 7%nat 2) late_world).
  vm_compute; reflexivity.
Defined.

(** X4 after two rotations. *)
Lemma stats_leave_in_rotation_order_witness :
  run (startup ++ rotation 2 ++ rotation 4) process = Some after_second ∧
  ∃ cs,
    statsChans after_second = [cs] ∧ closed cs = false ∧
    queue cs `suffix_of` rev (map snd (emitted (trace after_second))) ∧
    Forall (λ v, model.Encoded v = true ∧ model.Epsilon v = tt) (queue cs).
Proof.
  split; [vm_compute; reflexivity |].
  apply (stats_leave_in_rotation_order nat unit 0 2 tt
           (startup ++ rotation 2 ++ rotation 4) after_second).
  vm_compute; reflexivity.
Defined.

(** X5 at the panic of the ingestor. *)
Lemma panic_only_in_send_after_close_witness :
  run late_span process = Some after_late_span ∧
  (crashed after_late_span = None ∨
   (crashed after_late_span = Some (Ingestor, SendOnClosedChannel) ∧
    ∃ ch s tr cin cout,
      ingestor after_late_span = Some (ch, ISend s) ∧
      trace after_late_span = EvPanic Ingestor SendOnClosedChannel :: tr ∧
      spanChans after_late_span = [cin; cout] ∧ closed cout = true ∧
      (closer after_late_span = Some CDone ∨ closer after_late_span = Some CReturned) ∧
      In (EvClose SpanChan (outSpans (conc after_late_span))) tr ∧ In EvExit tr ∧
      In EvHostExit tr)).
Proof.
  split; [vm_compute; reflexivity |].
  apply (panic_only_in_send_after_close nat unit 0 2 tt late_span after_late_span).
  vm_compute; reflexivity.
Defined.

(** X6 when [bucketCloser] has called [Add(1)]. *)
Lemma Wait_returns_only_at_rest_witness :
  run [RunCloser 0] process = Some added ∧
  step HostWait added = Some blocked ∧
  ((waiter blocked = WReleased ↔
      closer added = Some CAdd ∨ closer added = Some CReturned) ∧
   (waiter blocked = WReleased ∨ waiter blocked = WBlocked) ∧
   (closer added = Some CReturned →
    ∃ cin cout, spanChans blocked = [cin; cout] ∧ closed cout = true)).
Proof.
  split; [vm_compute; reflexivity |]. split; [vm_compute; reflexivity |].
  apply (Wait_returns_only_at_rest nat unit 0 2 tt [RunCloser 0] added blocked);
    vm_compute; reflexivity.
Defined.

(** X7 with [bucketDuration = 0]. *)
Lemma no_ticker_no_rotation_witness :
  new_ticker 0 = None ∧
  run one_span process_without_ticker = Some without_ticker ∧
  (ticker without_ticker = None ∧ rotations (trace without_ticker) = 0%nat ∧
   emitted (trace without_ticker) = [] ∧ stamped (trace without_ticker) = [] ∧
   length (heap without_ticker) = 1%nat ∧
   currentBucket (conc without_ticker) = 0 ∧
   openBucket (conc without_ticker) = (Some 0%nat, None) ∧
   ∀ p s, In (EvHandle p s) (trace without_ticker) → p = 0%nat).
Proof.
  split; [vm_compute; reflexivity |]. split; [vm_compute; reflexivity |].
  apply (no_ticker_no_rotation nat unit 0 0 tt one_span without_ticker);
    vm_compute; reflexivity.
Defined.

(** X8 at the first [bucketDuration] whose period overflows. *)
Lemma new_ticker_range_witness :
  -9223372036 ≤ 9223372037 ≤ 18446744073 ∧
  new_ticker 9223372037
    = if (0 <? 9223372037) && (9223372037 <=? 9223372036) then Some false else None.
Proof. split; [lia |]. apply (new_ticker_range 9223372037). lia. Defined.

(** X9 when [bucketCloser] is at its close. *)
Lemma Start_without_Init_stalls_witness :
  run to_the_close (started_without_Init 0 2 tt) = Some at_nil_close ∧
  ((received (trace at_nil_close) = [] ∧ handled (trace at_nil_close) = [] ∧
    forwarded (trace at_nil_close) = [] ∧ emitted (trace at_nil_close) = [] ∧
    closes (trace at_nil_close) = [] ∧ ¬ In EvDone (trace at_nil_close)) ∧
   (∀ now, crashed at_nil_close = None → closer at_nil_close = Some CClose →
      step (RunCloser now) at_nil_close
        = Some (crash Closer CloseOfNilChannel at_nil_close))).
Proof.
  split; [vm_compute; reflexivity |].
  apply (Start_without_Init_stalls nat unit 0 2 tt to_the_close at_nil_close).
  vm_compute; reflexivity.
Defined.

(** X10 after [NewConcentrator] and [Init]. *)
Lemma calls_before_Start_panic_witness :
  array_get (openBucket (conc initialised)) (currentBucket (conc initialised))
    = Returns None ∧
  (HandleNewSpan 7%nat initialised = Panics NilDereference ∧
   flush 1 2 initialised = Panics NilDereference).
Proof.
  split; [reflexivity |].
  apply (calls_before_Start_panic nat unit initialised 7%nat 1 2). reflexivity.
Defined.

(** X12 for span 7 and the first rotation, at time 2. *)
Lemma late_span_misses_the_bucket_sent_witness :
  new_ticker 2 = Some false ∧
  ∃ w v b,
    run (late_handle 7%nat 2) process = Some w ∧
    closer w = Some CSelect ∧ crashed w = None ∧
    handled (trace w) = [7%nat] ∧ absorbed_by 0%nat (trace w) = [7%nat] ∧
    emitted (trace w) = [(0%nat, v)] ∧ model.Absorbed v = [] ∧
    heap w !! 0%nat = Some b ∧ model.Absorbed b = [7%nat] ∧ model.Encoded b = true ∧
    current_target w = Some 1%nat.
Proof.
  split; [vm_compute; reflexivity |].
  apply (late_span_misses_the_bucket_sent nat unit 0 2 tt 7%nat 2).
  vm_compute; reflexivity.
Defined.

(** X13 with spans 7 and 8 in the closed inbound channel. *)
Lemma ingestor_drains_and_returns_witness :
  run two_spans process = Some closing ∧
  crashed closing = None ∧
  ingestor closing = Some (Some hostIn, IRecv) ∧
  spanChans closing = [mkChan [7%nat; 8%nat] true; mkChan [] false] ∧
  ∃ w',
    run (drain (length [7%nat; 8%nat])) closing = Some w' ∧ crashed w' = None ∧
    ingestor w' = Some (Some hostIn, IReturned) ∧
    spanChans w' = [mkChan [] true; mkChan [] false] ∧
    rev (forwarded (trace w')) = rev (forwarded (trace closing)) ++ [7%nat; 8%nat] ∧
    forwarded (trace w') = produced (trace w') ∧
    closer w' = closer closing.
Proof.
  split; [vm_compute; reflexivity |]. split; [vm_compute; reflexivity |].
  split; [vm_compute; reflexivity |]. split; [vm_compute; reflexivity |].
  apply (ingestor_drains_and_returns nat unit 0 2 tt two_spans closing (Some hostIn)
           [7%nat; 8%nat]); vm_compute; reflexivity.
Defined.

(** X14 after two ticks and two rotations. *)
Lemma rotations_at_most_ticks_witness :
  run (startup ++ rotation 2 ++ rotation 4) process = Some after_second ∧
  (rotations (trace after_second) + pending after_second
   ≤ ticks (startup ++ rotation 2 ++ rotation 4))%nat.
Proof.
  split; [vm_compute; reflexivity |].
  apply (rotations_at_most_ticks nat unit 0 2 tt (startup ++ rotation 2 ++ rotation 4)
           after_second).
  vm_compute; reflexivity.
Defined.


